(** * Encoder-decoder RNN with conditional write (model/encdec.py)

    A shallow embedding of [time_major], [EncoderDecoder.build_model],
    [EncoderDecoder._get_final_state] and [EncoderDecoder.generate], with
    the TensorFlow and NumPy operations they call modelled on row-major
    tensors.  Floating-point arithmetic and the numeric kernels (matmul,
    softmax cross-entropy, the recurrent cell) are kept abstract.

    Conventions: an operation that can raise returns an [option], [None]
    being the exception; the graph built by [build_model] is a family of
    functions of the [feed_dict], one per fetched tensor, so that
    [sess.run([t], feed_dict)] is [t self feed_dict]; the loop of
    [generate] runs on fuel. *)

From Stdlib Require Import List Arith Lia Bool ZArith.
Import ListNotations.

(** ** Tensors: a shape and the row-major list of the entries *)

Record tensor (A : Type) : Type := mkTensor { shape : list nat; data : list A }.

Arguments mkTensor {A} _ _.
Arguments shape {A} _.
Arguments data {A} _.

Definition numel (sh : list nat) : nat := fold_right Nat.mul 1 sh.

Definition wf_tensor {A} (t : tensor A) : Prop := length (data t) = numel (shape t).

Definition rank {A} (t : tensor A) : nat := length (shape t).

(** Offset of a multi-index in row-major order, and its inverse. *)
Fixpoint ravel (sh idx : list nat) : nat :=
  match sh, idx with
  | _ :: sh', i :: idx' => i * numel sh' + ravel sh' idx'
  | _, _ => 0
  end.

Fixpoint unravel (sh : list nat) (k : nat) : list nat :=
  match sh with
  | [] => []
  | _ :: sh' => k / numel sh' :: unravel sh' (k mod numel sh')
  end.

(** A multi-index within the bounds of a shape. *)
Fixpoint in_range (sh idx : list nat) : Prop :=
  match sh, idx with
  | [], [] => True
  | d :: sh', i :: idx' => i < d /\ in_range sh' idx'
  | _, _ => False
  end.

(** The first two entries of a multi-index exchanged. *)
Definition swap2 (idx : list nat) : list nat :=
  match idx with a :: b :: r => b :: a :: r | _ => idx end.

(** [gather l idxs]: the entries of [l] at the positions [idxs]. *)
Definition gather {A} (l : list A) (idxs : list nat) : list A :=
  flat_map (fun i => match nth_error l i with Some a => [a] | None => [] end) idxs.

(** Position of the first occurrence of [j] in [perm]. *)
Fixpoint index_of (j : nat) (perm : list nat) : nat :=
  match perm with
  | [] => 0
  | p :: perm' => if p =? j then 0 else S (index_of j perm')
  end.

Definition is_permutation (perm : list nat) (r : nat) : bool :=
  (length perm =? r) && forallb (fun j => existsb (Nat.eqb j) perm) (seq 0 r).

(** Source multi-index of the output multi-index [oidx] under [perm]:
    the output's axis [k] is the input's axis [perm[k]]. *)
Definition permute_back (perm oidx : list nat) : list nat :=
  map (fun j => nth (index_of j perm) oidx 0) (seq 0 (length perm)).

(** [tf.transpose(t, perm)]; [None] when [perm] is not a permutation of the
    axes of [t] (TensorFlow raises). *)
Definition tf_transpose {A} (t : tensor A) (perm : list nat) : option (tensor A) :=
  if is_permutation perm (rank t) then
    let sh' := map (fun p => nth p (shape t) 0) perm in
    Some (mkTensor sh'
            (gather (data t)
               (map (fun k => ravel (shape t) (permute_back perm (unravel sh' k)))
                    (seq 0 (numel sh')))))
  else None.

(** [time_major(batch_input, rank)]:
    [tf.transpose(batch_input, perm=[1, 0]+range(2, rank))]. *)
Definition time_major {A} (batch_input : tensor A) (rank : nat) : option (tensor A) :=
  tf_transpose batch_input ([1; 0] ++ seq 2 (rank - 2)).

Definition bind {A B} (o : option A) (f : A -> option B) : option B :=
  match o with Some a => f a | None => None end.

Notation "x <- c1 ;; c2" := (bind c1 (fun x => c2))
  (at level 61, c1 at next level, right associativity).

Fixpoint mapM {A B} (f : A -> option B) (l : list A) : option (list B) :=
  match l with
  | [] => Some []
  | a :: l' => b <- f a ;; bs <- mapM f l' ;; Some (b :: bs)
  end.

(** [tf.constant(a, shape=sh)], [tf.zeros(sh)] when [a] is zero. *)
Definition tf_constant {A} (a : A) (sh : list nat) : tensor A :=
  mkTensor sh (repeat a (numel sh)).

(** The [i]-th block of [p] consecutive entries. *)
Definition chunk {A} (p i : nat) (l : list A) : list A := firstn p (skipn (i * p) l).

(** The slices of a tensor along axis 0: what [tf.scan] and [tf.map_fn]
    iterate on.  A scalar has none (TensorFlow raises). *)
Definition unstack {A} (t : tensor A) : option (list (tensor A)) :=
  match shape t with
  | [] => None
  | d :: sh' => Some (map (fun i => mkTensor sh' (chunk (numel sh') i (data t))) (seq 0 d))
  end.

(** The tensors that [tf.scan] and [tf.map_fn] return are kept as the list
    of their slices along axis 0, one per time step.  [pack] is the single
    array [sess.run] hands back for such a list. *)
Definition pack {A} (l : list (tensor A)) : tensor A :=
  mkTensor (length l :: match l with [] => [] | t :: _ => shape t end) (flat_map data l).

Definition valid_index (d : nat) (i : Z) : bool := (0 <=? i)%Z && (i <? Z.of_nat d)%Z.

(** [tf.nn.embedding_lookup(params, ids)]: the rows of [params] selected by
    [ids]; an id outside [0, rows) raises. *)
Definition embedding_lookup {A} (params : tensor A) (ids : tensor Z) : option (tensor A) :=
  match shape params with
  | [] => None
  | d :: sh' =>
      if forallb (valid_index d) (data ids) then
        Some (mkTensor (shape ids ++ sh')
                (flat_map (fun i => chunk (numel sh') (Z.to_nat i) (data params)) (data ids)))
      else None
  end.

(** [tf.nn.embedding_lookup(s, i)] for a scalar index [i] into a tensor kept
    as its slices. *)
Definition slice_lookup {A} (s : list (tensor A)) (i : Z) : option (tensor A) :=
  if valid_index (length s) i then nth_error s (Z.to_nat i) else None.

(** A placeholder of static shape [sh] ([None] for an unknown dimension)
    accepts a fed value of matching shape only; an unfed placeholder raises.
    The fed array is the one the session holds after converting the feed to
    the placeholder's dtype: for the [tf.int32] placeholders its entries are
    32-bit values ([is_int32] in the statements), the conversion itself is
    not part of this definition. *)
Fixpoint shape_matches (sh : list (option nat)) (actual : list nat) : bool :=
  match sh, actual with
  | [], [] => true
  | None :: sh', _ :: actual' => shape_matches sh' actual'
  | Some d :: sh', d' :: actual' => (d =? d') && shape_matches sh' actual'
  | _, _ => false
  end.

Definition placeholder {A} (sh : list (option nat)) (fed : option (tensor A)) : option (tensor A) :=
  t <- fed ;; if shape_matches sh (shape t) then Some t else None.

(** The entries that are present, in order. *)
Definition gather_opt {A} (l : list (option A)) : list A :=
  flat_map (fun o => match o with Some a => [a] | None => [] end) l.

(** [tf.scan(fn, elems, initializer)]: the accumulators after each element,
    left to right; the initializer itself is not part of the result. *)
Fixpoint tf_scan {X Acc} (fn : Acc -> X -> Acc) (elems : list X) (a : Acc) : list Acc :=
  match elems with
  | [] => []
  | x :: elems' => let a' := fn a x in a' :: tf_scan fn elems' a'
  end.

(** [tf.map_fn(fn, elems)] for a tuple [elems]: the components are
    unpacked together and must have as many slices. *)
Definition map_fn2 {A B C} (fn : A * B -> option C) (xs : list A) (ys : list B)
  : option (list C) :=
  if length xs =? length ys then mapM fn (combine xs ys) else None.

Definition map_fn3 {A B C D} (fn : A * B * C -> option D)
    (xs : list A) (ys : list B) (zs : list C) : option (list D) :=
  if (length xs =? length ys) && (length ys =? length zs)
  then mapM fn (combine (combine xs ys) zs) else None.

(** [tf.cond(pred, true_fn, false_fn)]: only the chosen branch runs. *)
Definition tf_cond {A} (pred : bool) (true_fn false_fn : unit -> A) : A :=
  if pred then true_fn tt else false_fn tt.

(** [tf.reshape(t, [])]: a tensor of exactly one entry as a scalar. *)
Definition reshape_scalar {A} (t : tensor A) : option A :=
  match data t with [x] => Some x | _ => None end.

(** ** NumPy indexing used by [generate] *)

(** [a[:, :-1]] (and [a[:, :-1, :]]), written with [nidx] indices. *)
Definition np_drop_last {A} (nidx : nat) (a : tensor A) : option (tensor A) :=
  match shape a with
  | b :: n :: rest =>
      if nidx <=? rank a then
        let p := numel rest in
        Some (mkTensor (b :: (n - 1) :: rest)
                (flat_map (fun i => firstn ((n - 1) * p) (chunk (n * p) i (data a))) (seq 0 b)))
      else None
  | _ => None
  end.

(** [a[:, -1]] (and [a[:, -1, :]]); an empty axis 1 is an IndexError. *)
Definition np_last {A} (nidx : nat) (a : tensor A) : option (tensor A) :=
  match shape a with
  | b :: n :: rest =>
      if (nidx <=? rank a) && negb (n =? 0) then
        let p := numel rest in
        Some (mkTensor (b :: rest)
                (flat_map (fun i => skipn ((n - 1) * p) (chunk (n * p) i (data a))) (seq 0 b)))
      else None
  | _ => None
  end.

(** [np.expand_dims(a, 1)]. *)
Definition np_expand_dims1 {A} (a : tensor A) : option (tensor A) :=
  match shape a with
  | b :: rest => Some (mkTensor (b :: 1 :: rest) (data a))
  | [] => None
  end.

(** [int(a)]: only an array of one entry converts. *)
Definition np_int (a : tensor Z) : option Z :=
  match data a with [x] => Some x | _ => None end.

(** [np.asarray(..).reshape([1, -1, c])]. *)
Definition np_reshape_1_any (c : nat) (a : tensor Z) : option (tensor Z) :=
  if (c =? 0) || negb (length (data a) mod c =? 0) then None
  else Some (mkTensor [1; length (data a) / c; c] (data a)).

(** ** Nested structures ([tensorflow.python.util.nest]) *)

#[warnings="-register-all"]
Inductive nest (A : Type) : Type :=
| Leaf (a : A)
| Tuple (l : list (nest A)).

Arguments Leaf {A} _.
Arguments Tuple {A} _.

Fixpoint flatten {A} (s : nest A) : list A :=
  match s with
  | Leaf a => [a]
  | Tuple l => flat_map flatten l
  end.

Fixpoint nest_map {A B} (f : A -> B) (s : nest A) : nest B :=
  match s with
  | Leaf a => Leaf (f a)
  | Tuple l => Tuple (map (nest_map f) l)
  end.

Fixpoint same_structure {A B} (s : nest A) (t : nest B) : bool :=
  match s, t with
  | Leaf _, Leaf _ => true
  | Tuple l, Tuple l' =>
      (fix go (l : list (nest A)) (l' : list (nest B)) : bool :=
         match l, l' with
         | [], [] => true
         | x :: xs, y :: ys => same_structure x y && go xs ys
         | _, _ => false
         end) l l'
  | _, _ => false
  end.

(** Fill the leaves of [s], left to right, from [flat]; returns the filled
    structure and what is left of [flat]. *)
Fixpoint pack_from {A B} (s : nest A) (flat : list B) : option (nest B * list B) :=
  match s with
  | Leaf _ => match flat with b :: flat' => Some (Leaf b, flat') | [] => None end
  | Tuple l =>
      r <- (fix go (l : list (nest A)) (flat : list B) : option (list (nest B) * list B) :=
              match l with
              | [] => Some ([], flat)
              | x :: xs =>
                  r1 <- pack_from x flat ;;
                  r2 <- go xs (snd r1) ;;
                  Some (fst r1 :: fst r2, snd r2)
              end) l flat ;;
      Some (Tuple (fst r), snd r)
  end.

(** [nest.pack_sequence_as(structure, flat_sequence)]; raises unless the
    sequence has exactly as many entries as the structure has leaves. *)
Definition pack_sequence_as {A B} (structure : nest A) (flat : list B) : option (nest B) :=
  r <- pack_from structure flat ;;
  match snd r with [] => Some (fst r) | _ :: _ => None end.

(** The list part of [same_structure] and of [pack_from], named. *)
Fixpoint same_structures {A B} (l : list (nest A)) (l' : list (nest B)) : bool :=
  match l, l' with
  | [], [] => true
  | x :: xs, y :: ys => same_structure x y && same_structures xs ys
  | _, _ => false
  end.

Fixpoint pack_list {A B} (l : list (nest A)) (flat : list B)
  : option (list (nest B) * list B) :=
  match l with
  | [] => Some ([], flat)
  | x :: xs =>
      r1 <- pack_from x flat ;;
      r2 <- pack_list xs (snd r1) ;;
      Some (fst r1 :: fst r2, snd r2)
  end.

(** ** The numeric backend

    float32 values with the operations the model uses, and the TensorFlow
    kernels whose arithmetic is not modelled. *)

Class Backend : Type := {
  F : Type;
  fzero : F;
  fadd : F -> F -> F;
  fdiv : F -> F -> F;
  to_float : Z -> F;
  (** [x > y], as [np.argmax] compares scores *)
  fgt : F -> F -> bool;
  (** Python truth value of a float: [x != 0] *)
  ftruth : F -> bool;
  tf_matmul : tensor F -> tensor F -> tensor F;
  tf_add : tensor F -> tensor F -> tensor F;
  sparse_softmax_cross_entropy_with_logits : tensor F -> tensor Z -> tensor F
}.

(** The collaborators of the attention variant, whose sources are other
    modules: the knowledge graph ([kg.load]), the vocabulary
    ([vocab.to_word]) and [model.preprocess.get_entities] followed by
    [np.asarray].  A [None] result is a raised exception. *)
Class Collaborators : Type := {
  KB : Type;
  KGInput : Type;
  Word : Type;
  Lexicon : Type;
  Vocab : Type;
  kg_load : KB -> KGInput;
  to_word : Vocab -> Z -> option Word;
  get_entities : list Word -> Lexicon -> nat -> option (tensor Z)
}.

Section Model.
Context {B : Backend} {C : Collaborators}.

(** The state of a recurrent cell: a tensor, or a (nested) tuple of them. *)
Definition rnn_state : Type := nest (tensor F).

(** One element of the scanned sequence: the embedded token and, in the
    attention variant, the entity cache of that step. *)
Definition rnn_input : Type := (tensor F * option (tensor Z))%type.

(** A recurrent cell ([tf.nn.rnn_cell.RNNCell], [AttnRNNCell]). *)
Record RNNCell : Type := {
  output_size : nat;
  state_size : nest nat;
  (** [cell(x, state)], reading the fed knowledge graph if there is one *)
  call : option KGInput -> rnn_input -> rnn_state -> tensor F * rnn_state
}.

(** [cell.zero_state(batch_size, tf.float32)] of [tf.nn.rnn_cell.RNNCell]:
    zeros of shape [batch_size x s] for every size [s] of the state.
    ([AttnRNNCell] is taken to inherit it.) *)
Definition zero_state (cell : RNNCell) (batch_size : nat) : rnn_state :=
  nest_map (fun s => tf_constant fzero [batch_size; s]) (state_size cell).

(** An instance of [EncoderDecoder] (of [AttnEncoderDecoder] when [has_kg]):
    the constructor's arguments, the cell [_build_rnn_cell] makes from
    [rnn_type], [rnn_size] and [num_layers], and the variables
    ['embedding'], ['output_w'] and ['output_b'] made by [build_model]. *)
Record EncoderDecoder : Type := {
  vocab_size : nat;
  rnn_size : nat;
  cell : RNNCell;
  embedding : tensor F;
  output_w : tensor F;
  output_b : tensor F;
  (** [hasattr(self, 'kg')] *)
  has_kg : bool;
  entity_cache_size : nat
}.

(** [self.batch_size = 1]: only single-instance training is supported. *)
Definition batch_size (self : EncoderDecoder) : nat := 1.

(** What a [feed_dict] can hold. *)
Record feed_dict : Type := {
  input_data : option (tensor Z);
  input_iswrite : option (tensor bool);
  targets : option (tensor Z);
  init_state : option rnn_state;
  kg_input_data : option KGInput;
  input_entities : option (tensor Z)
}.

(** [_build_rnn_inputs]: the embedded tokens, time-major, and in the
    attention variant also the entities, time-major. *)
Definition _build_rnn_inputs (self : EncoderDecoder) (fd : feed_dict)
  : option (tensor F * option (tensor Z)) :=
  ids <- placeholder [Some (batch_size self); None] (input_data fd) ;;
  rnn_inputs <- embedding_lookup (embedding self) ids ;;
  input_tokens <- time_major rnn_inputs 3 ;;
  if has_kg self then
    ents <- placeholder [Some (batch_size self); None; Some (entity_cache_size self)]
              (input_entities fd) ;;
    input_entities <- time_major ents 3 ;;
    Some (input_tokens, Some input_entities)
  else Some (input_tokens, None).

(** The elements [tf.scan] unpacks from [inputs]. *)
Definition scan_elems (inputs : tensor F * option (tensor Z)) : option (list rnn_input) :=
  xs <- unstack (fst inputs) ;;
  match snd inputs with
  | None => Some (map (fun x => (x, None)) xs)
  | Some e =>
      es <- unstack e ;;
      if length xs =? length es
      then Some (map (fun xe => (fst xe, Some (snd xe))) (combine xs es))
      else None
  end.

(** The value of [self.init_state]: the fed one, else
    [cell.zero_state(self.batch_size, tf.float32)] ([_build_rnn_cell]).
    A state is fed as it is: that it has the structure and the shapes of
    [self.init_state], without which the session refuses the feed, is the
    condition [feedable] of the statements on runs that are given a state
    from outside. *)
Definition init_state_value (self : EncoderDecoder) (fd : feed_dict) : rnn_state :=
  match init_state fd with
  | Some s => s
  | None => zero_state (cell self) (batch_size self)
  end.

(** The knowledge graph handed to the cell: what the [feed_dict] holds for
    [kg.input_data] when the model has a [kg], nothing otherwise. The [kg]
    object and the attention cell are not part of this file: what becomes of
    the graph, fed or not, is the cell's [call]. *)
Definition kg_value (self : EncoderDecoder) (fd : feed_dict) : option (option KGInput) :=
  Some (if has_kg self then kg_input_data fd else None).

(** [tf.scan(lambda a, x: cell(x, a[1]), inputs,
            initializer=(tf.zeros([batch_size, cell.output_size]), init_state))]:
    the accumulators (output, state) after each step. *)
Definition scan_rnn (self : EncoderDecoder) (fd : feed_dict) : option (list (tensor F * rnn_state)) :=
  inputs <- _build_rnn_inputs self fd ;;
  elems <- scan_elems inputs ;;
  kgi <- kg_value self fd ;;
  Some (tf_scan (fun a x => call (cell self) kgi x (snd a)) elems
          (tf_constant fzero [batch_size self; output_size (cell self)],
           init_state_value self fd)).

Definition rnn_outputs (self : EncoderDecoder) (fd : feed_dict) : option (list (tensor F)) :=
  accs <- scan_rnn self fd ;; Some (map fst accs).

(** The second result of the scan: a structure like the initial state whose
    leaves are the per-step values of that leaf. *)
Definition stack_states (init : rnn_state) (steps : list rnn_state) : option (nest (list (tensor F))) :=
  if forallb (same_structure init) steps then
    pack_sequence_as init
      (map (fun j => gather_opt (map (fun s => nth_error (flatten s) j) steps))
           (seq 0 (length (flatten init))))
  else None.

Definition states (self : EncoderDecoder) (fd : feed_dict) : option (nest (list (tensor F))) :=
  accs <- scan_rnn self fd ;;
  stack_states (init_state_value self fd) (map snd accs).

(** [_get_final_state(states)]. *)
Definition _get_final_state (states : nest (list (tensor F))) : option rnn_state :=
  let flat_states := flatten states in
  first <- nth_error flat_states 0 ;;
  let last_ind := (Z.of_nat (length first) - 1)%Z in
  flat_last_states <- mapM (fun state => slice_lookup state last_ind) flat_states ;;
  pack_sequence_as states flat_last_states.

Definition final_state (self : EncoderDecoder) (fd : feed_dict) : option rnn_state :=
  sts <- states self fd ;; _get_final_state sts.

(** [cond_output((h, write))]. *)
Definition cond_output (self : EncoderDecoder) (hw : tensor F * tensor bool)
  : option (tensor F) :=
  let (h, write) := hw in
  let enc := fun _ : unit => tf_constant fzero [batch_size self; vocab_size self] in
  let dec := fun _ : unit => tf_add (tf_matmul h (output_w self)) (output_b self) in
  c <- reshape_scalar write ;;
  Some (tf_cond c dec enc).

(** [iswrite = time_major(self.input_iswrite, 2)], by slices. *)
Definition iswrite (self : EncoderDecoder) (fd : feed_dict) : option (list (tensor bool)) :=
  w <- placeholder [Some (batch_size self); None] (input_iswrite fd) ;;
  w' <- time_major w 2 ;;
  unstack w'.

(** [self.outputs]. *)
Definition outputs (self : EncoderDecoder) (fd : feed_dict) : option (list (tensor F)) :=
  hs <- rnn_outputs self fd ;;
  ws <- iswrite self fd ;;
  map_fn2 (cond_output self) hs ws.

(** [cond_loss((output, target, write))]. *)
Definition cond_loss (self : EncoderDecoder) (otw : tensor F * tensor Z * tensor bool)
  : option (tensor F) :=
  let '(output, target, write) := otw in
  let loss := fun _ : unit => sparse_softmax_cross_entropy_with_logits output target in
  let skip := fun _ : unit => tf_constant fzero [batch_size self] in
  c <- reshape_scalar write ;;
  Some (tf_cond c loss skip).

(** [self.seq_loss]. *)
Definition seq_loss (self : EncoderDecoder) (fd : feed_dict) : option (list (tensor F)) :=
  outs <- outputs self fd ;;
  t <- placeholder [Some (batch_size self); None] (targets fd) ;;
  t' <- time_major t 2 ;;
  ts <- unstack t' ;;
  ws <- iswrite self fd ;;
  map_fn3 (cond_loss self) outs ts ws.

(** [tf.reduce_sum] over every entry of every slice. *)
Definition reduce_sum (l : list (tensor F)) : F :=
  fold_left fadd (flat_map data l) fzero.

(** [self.loss]:
    [tf.reduce_sum(self.seq_loss) / self.batch_size / tf.to_float(tf.shape(self.seq_loss)[0])]. *)
Definition loss (self : EncoderDecoder) (fd : feed_dict) : option F :=
  sl <- seq_loss self fd ;;
  Some (fdiv (fdiv (reduce_sum sl) (to_float (Z.of_nat (batch_size self))))
             (to_float (Z.of_nat (length sl)))).

End Model.

(** ** Generation *)

(** What a call of [generate] does within a given number of loop
    iterations: it returns, raises, or is still looping. *)
Inductive outcome (A : Type) : Type :=
| Returned (a : A)
| Raised
| OutOfFuel.

Arguments Returned {A} _.
Arguments Raised {A}.
Arguments OutOfFuel {A}.

Definition try {A R} (o : option A) (k : A -> outcome R) : outcome R :=
  match o with Some a => k a | None => Raised end.

Notation "x <-! c1 ;; c2" := (try c1 (fun x => c2))
  (at level 61, c1 at next level, right associativity).

(** [pred in stop_symbols]. *)
Definition py_in (pred : Z) (stop_symbols : list Z) : bool :=
  existsb (Z.eqb pred) stop_symbols.

(** [len(preds) == max_len], with [max_len] an integer or [None]. *)
Definition len_eq (preds : list Z) (max_len : option Z) : bool :=
  match max_len with
  | Some m => (Z.of_nat (length preds) =? m)%Z
  | None => false
  end.

Section Generate.
Context {B : Backend} {C : Collaborators}.

(** [np.argmax] of a row: the first position holding the largest score. *)
Fixpoint argmax_from (l : list F) (i best_i : nat) (best : F) : nat :=
  match l with
  | [] => best_i
  | x :: l' => if fgt x best then argmax_from l' (S i) i x
               else argmax_from l' (S i) best_i best
  end.

Definition argmax (l : list F) : option nat :=
  match l with
  | [] => None
  | x :: l' => Some (argmax_from l' 1 0 x)
  end.

(** [np.argmax(output, axis=2)] on the [seq_len x batch_size x vocab_size]
    array of logits (the logits of a step, a matrix product plus a bias,
    are a matrix, so the array has three axes). *)
Definition np_argmax_axis2 (output : tensor F) : option (tensor Z) :=
  match shape output with
  | [a; b; c] =>
      idxs <- mapM (fun i => argmax (chunk c i (data output))) (seq 0 (a * b)) ;;
      Some (mkTensor [a; b] (map Z.of_nat idxs))
  | _ => None
  end.

(** The truth value Python gives [init_state] in [if init_state:]: [None]
    is false, a tuple is true unless empty, and an array is true when its
    single entry is not zero; an array of several entries raises. *)
Definition truth_value (init_state : option rnn_state) : option bool :=
  match init_state with
  | None => Some false
  | Some (Tuple l) => Some (match l with [] => false | _ :: _ => true end)
  | Some (Leaf a) =>
      match data a with
      | [] => Some false
      | [x] => Some (ftruth x)
      | _ :: _ :: _ => None
      end
  end.

(** [np.ones([1, 1]).astype(np.bool_)]. *)
Definition iswrite_true : tensor bool := mkTensor [1; 1] [true].

(** The entity cache after [preds] (lines 184-187). *)
Definition update_entity (self : EncoderDecoder) (lexicon : Lexicon) (vocab : Vocab)
    (preds : list Z) : option (tensor Z) :=
  words <- mapM (to_word vocab) preds ;;
  entity <- get_entities words lexicon (entity_cache_size self) ;;
  np_reshape_1_any (entity_cache_size self) entity.

(** The [feed_dict] of one decoding step. *)
Definition decode_feed (self : EncoderDecoder) (kg_input : option KGInput)
    (input_ entity : tensor Z) (state : option rnn_state) : feed_dict :=
  {| input_data := Some input_;
     input_iswrite := Some iswrite_true;
     targets := None;
     init_state := state;
     kg_input_data := if has_kg self then kg_input else None;
     input_entities := if has_kg self then Some entity else None |}.

(** The [while True] loop of [generate], run for at most [fuel] iterations. *)
Fixpoint decode_loop (self : EncoderDecoder) (stop_symbols : list Z)
    (lexicon : Lexicon) (vocab : Vocab) (max_len : option Z)
    (kg_input : option KGInput) (fuel : nat)
    (input_ entity : tensor Z) (state : option rnn_state) (preds : list Z)
  : outcome (list Z * rnn_state) :=
  match fuel with
  | 0 => OutOfFuel
  | S fuel' =>
      let fd := decode_feed self kg_input input_ entity state in
      state' <-! final_state self fd ;;
      output <-! outputs self fd ;;
      pred_arr <-! np_argmax_axis2 (pack output) ;;
      pred <-! np_int pred_arr ;;
      let preds' := preds ++ [pred] in
      if py_in pred stop_symbols || len_eq preds' max_len then Returned (preds', state')
      else
        entity' <-! (if has_kg self then update_entity self lexicon vocab preds'
                     else Some entity) ;;
        decode_loop self stop_symbols lexicon vocab max_len kg_input fuel'
          pred_arr entity' (Some state') preds'
  end.

(** The [feed_dict] of the pass over the prefix. *)
Definition encode_feed (self : EncoderDecoder) (kg_input : option KGInput)
    (ins : tensor Z) (ents : option (tensor Z)) (init_state : option rnn_state)
  : feed_dict :=
  {| input_data := Some ins;
     input_iswrite := None;
     targets := None;
     init_state := init_state;
     kg_input_data := if has_kg self then kg_input else None;
     input_entities := ents |}.

(** The state [generate] decodes from: the final state of a pass over all
    but the last token when there are several, else [init_state] as given. *)
Definition encode (self : EncoderDecoder) (kg_input : option KGInput)
    (inputs entities : tensor Z) (init_state : option rnn_state) : option (option rnn_state) :=
  truthy <- truth_value init_state ;;
  n <- nth_error (shape inputs) 1 ;;
  if 1 <? n then
    ins <- np_drop_last 2 inputs ;;
    ents <- (if has_kg self then (e <- np_drop_last 3 entities ;; Some (Some e))
             else Some None) ;;
    st <- final_state self
            (encode_feed self kg_input ins ents (if truthy then init_state else None)) ;;
    Some (Some st)
  else Some init_state.

(** [generate(sess, kb, inputs, entities, stop_symbols, lexicon, vocab,
              max_len, init_state)], with [fuel] iterations for its loop. *)
Definition generate (self : EncoderDecoder) (kb : KB) (inputs entities : tensor Z)
    (stop_symbols : list Z) (lexicon : Lexicon) (vocab : Vocab)
    (max_len : option Z) (init_state : option rnn_state) (fuel : nat)
  : outcome (list Z * rnn_state) :=
  let kg_input := if has_kg self then Some (kg_load kb) else None in
  state <-! encode self kg_input inputs entities init_state ;;
  input_ <-! (a <- np_last 2 inputs ;; np_expand_dims1 a) ;;
  entity <-! (e <- np_last 3 entities ;; np_expand_dims1 e) ;;
  decode_loop self stop_symbols lexicon vocab max_len kg_input fuel
    input_ entity state [].

End Generate.


(** ** Notions used in the statements *)

(** A batch holding the single sequence [l]: shape [1 x len(l)]. *)
Definition row {A} (l : list A) : tensor A := mkTensor [1; length l] l.

(** The test that ends the loop of [generate], on the predictions made so
    far: the newest one is a stop symbol, or there are [max_len] of them. *)
Definition stops (stop_symbols : list Z) (max_len : option Z) (preds : list Z) : bool :=
  py_in (last preds 0%Z) stop_symbols || len_eq preds max_len.

(** The entity array of a batch of one sequence: one cache per token. *)
Definition entity_array (c : nat) (caches : list (list Z)) : tensor Z :=
  mkTensor [1; length caches; c] (concat caches).

Section Reference.
Context {B : Backend} {C : Collaborators}.

(** The variables as [build_model] creates them:
    [tf.get_variable('embedding', [vocab_size, rnn_size])]. *)
Definition variables_ok (self : EncoderDecoder) : Prop :=
  shape (embedding self) = [vocab_size self; rnn_size self] /\ wf_tensor (embedding self).

(** The embedding of one token, as a batch of one. *)
Definition embed (self : EncoderDecoder) (tok : Z) : tensor F :=
  mkTensor [1; rnn_size self]
    (chunk (rnn_size self) (Z.to_nat tok) (data (embedding self))).

(** The linear projection of a hidden output to the vocabulary. *)
Definition linear (self : EncoderDecoder) (h : tensor F) : tensor F :=
  tf_add (tf_matmul h (output_w self)) (output_b self).

(** One step of the recurrence: the cell on the element and the carried state. *)
Definition rnn_step (self : EncoderDecoder) (kgi : option KGInput)
    (a : tensor F * rnn_state) (x : rnn_input) : tensor F * rnn_state :=
  call (cell self) kgi x (snd a).

(** The accumulator the scan starts from when no state is fed. *)
Definition initializer (self : EncoderDecoder) : tensor F * rnn_state :=
  (tf_constant fzero [1; output_size (cell self)],
   nest_map (fun s => tf_constant fzero [1; s]) (state_size (cell self))).

(** The entity caches of the steps, from the fed [1 x n x cache] array. *)
Definition entity_slices (ents : tensor Z) : list (tensor Z) :=
  match shape ents with
  | [_; n; c] => map (fun i => mkTensor [1; c] (chunk c i (data ents))) (seq 0 n)
  | _ => []
  end.

(** The elements the scan runs over: the embedded tokens, each paired with
    its entity cache in the attention variant. *)
Definition elems_of (self : EncoderDecoder) (toks : list Z) (ents : option (tensor Z))
  : list rnn_input :=
  match ents with
  | None => map (fun tok => (embed self tok, None)) toks
  | Some e =>
      map (fun xe => (fst xe, Some (snd xe)))
          (combine (map (embed self) toks) (entity_slices e))
  end.

(** What the fed entities must look like: [1 x n x cache], all entries there. *)
Definition entities_ok (self : EncoderDecoder) (n : nat) (ents : option (tensor Z)) : Prop :=
  match ents with
  | None => has_kg self = false
  | Some e => has_kg self = true /\
              shape e = [1; n; entity_cache_size self] /\ wf_tensor e
  end.

Definition fed_entities (fd : feed_dict) (ents : option (tensor Z)) : Prop :=
  match ents with
  | None => True
  | Some e => input_entities fd = Some e
  end.

(** The contract of a recurrent cell: the state it returns is structured
    as [state_size] says, and there is at least one state tensor. *)
Definition cell_ok (self : EncoderDecoder) : Prop :=
  flatten (state_size (cell self)) <> [] /\
  forall kgi x st,
    same_structure (state_size (cell self)) st = true ->
    same_structure (state_size (cell self)) (snd (call (cell self) kgi x st)) = true.

(** The scores compare as an order does (no NaN among them). *)
Definition scores_ordered : Prop :=
  (forall x, fgt x x = false) /\
  (forall x y z, fgt x y = true -> fgt z y = false -> fgt z x = false).

(** [x] is what the scan sees for the token [tok]: its embedding, and no
    entity cache unless the model has a knowledge graph. *)
Definition is_input (self : EncoderDecoder) (tok : Z) (x : rnn_input) : Prop :=
  fst x = embed self tok /\ (has_kg self = false -> snd x = None).

(** One greedy decoding step from the state [st] on the element [x]: the
    logits are the projection of the cell's output, [pred] is a token no
    other token outscores, and [st'] is the cell's new state. *)
Definition greedy_step (self : EncoderDecoder) (kgi : option KGInput)
    (x : rnn_input) (st : rnn_state) (pred : Z) (st' : rnn_state) : Prop :=
  let logits := linear self (fst (call (cell self) kgi x st)) in
  st' = snd (call (cell self) kgi x st) /\
  exists c i,
    shape logits = [1; c] /\ i < c /\ pred = Z.of_nat i /\
    argmax (firstn c (data logits)) = Some i /\
    (scores_ordered ->
     forall j, j < length (firstn c (data logits)) ->
       fgt (nth j (data logits) fzero) (nth i (data logits) fzero) = false).

(** Greedy decoding from the token [tok] and the state [st]: every step
    takes the token emitted by the step before it as its input. *)
Inductive greedy_decoding (self : EncoderDecoder) (kgi : option KGInput)
  : Z -> rnn_state -> list Z -> rnn_state -> Prop :=
| greedy_last tok st x pred st' :
    is_input self tok x -> greedy_step self kgi x st pred st' ->
    greedy_decoding self kgi tok st [pred] st'
| greedy_more tok st x pred st' preds st_final :
    is_input self tok x -> greedy_step self kgi x st pred st' ->
    greedy_decoding self kgi pred st' preds st_final ->
    greedy_decoding self kgi tok st (pred :: preds) st_final.

(** The elements of a pass over [toks] with the entity caches [caches]. *)
Definition steps (self : EncoderDecoder) (toks : list Z) (caches : list (list Z))
  : list rnn_input :=
  if has_kg self
  then map (fun p => (embed self (fst p), Some (mkTensor [1; entity_cache_size self] (snd p))))
           (combine toks caches)
  else map (fun tok => (embed self tok, None)) toks.

(** The state a pass starts from when [init] is fed, if anything is. *)
Definition start_state (self : EncoderDecoder) (init : option rnn_state) : rnn_state :=
  match init with
  | Some s => s
  | None => zero_state (cell self) 1
  end.

(** A value that can be fed for [self.init_state]: it has the structure of
    [cell.zero_state(batch_size, tf.float32)] and each of its tensors the
    shape [batch_size x size] of the zero tensor in its place. Feeding
    nothing is always possible. *)
Definition feedable (self : EncoderDecoder) (init : option rnn_state) : Prop :=
  match init with
  | None => True
  | Some s =>
      same_structure (state_size (cell self)) s = true /\
      Forall2 (fun size t => shape t = [batch_size self; size] /\ wf_tensor t)
        (flatten (state_size (cell self))) (flatten s)
  end.

(** The values of a [tf.int32] array. *)
Definition is_int32 (z : Z) : Prop := (- 2 ^ 31 <= z < 2 ^ 31)%Z.

(** The state after a pass over [toks], started from [init]. *)
Definition state_after (self : EncoderDecoder) (kgi : option KGInput)
    (toks : list Z) (caches : list (list Z)) (init : option rnn_state) : rnn_state :=
  snd (fold_left (rnn_step self kgi) (steps self toks caches)
         (tf_constant fzero [1; output_size (cell self)], start_state self init)).

(** The fed entities of a pass: the array of the caches when the model has
    a knowledge graph, nothing otherwise. *)
Definition fed_caches (self : EncoderDecoder) (caches : list (list Z)) : option (tensor Z) :=
  if has_kg self then Some (entity_array (entity_cache_size self) caches) else None.

(** The knowledge graph [generate] feeds: [self.kg.load(kb)] if there is one. *)
Definition kg_input_of (self : EncoderDecoder) (kb : KB) : option KGInput :=
  if has_kg self then Some (kg_load kb) else None.

(** The contract of the projection: logits are a [1 x vocab_size] array,
    over a vocabulary that is not empty. *)
Definition logits_ok (self : EncoderDecoder) : Prop :=
  0 < vocab_size self /\
  forall h, shape (linear self h) = [1; vocab_size self] /\
            length (data (linear self h)) = vocab_size self.

(** The contract of the entity lookup of the attention variant: it finds
    one cache for the next step. *)
Definition entity_updates_ok (self : EncoderDecoder) (lexicon : Lexicon) (vocab : Vocab)
  : Prop :=
  has_kg self = true ->
  forall preds, exists e,
    update_entity self lexicon vocab preds = Some e /\
    shape e = [1; 1; entity_cache_size self].

(** A tensor to fall back on where a list is indexed out of range. *)
Definition no_tensor : tensor F := mkTensor [] [].

End Reference.

(** ** A small integer instance, for running the definitions *)

Module Toy.

Definition zip_add (x y : list Z) : list Z := map (fun p => (fst p + snd p)%Z) (combine x y).

Definition dot (x y : list Z) : Z := fold_left Z.add (map (fun p => (fst p * snd p)%Z) (combine x y)) 0%Z.

(** Row vector times matrix. *)
Definition matmul (h w : tensor Z) : tensor Z :=
  match shape w with
  | [k; v] =>
      mkTensor [1; v]
        (map (fun j => dot (data h) (map (fun i => nth (i * v + j) (data w) 0%Z) (seq 0 k)))
             (seq 0 v))
  | _ => mkTensor [] []
  end.

Definition add (x y : tensor Z) : tensor Z := mkTensor (shape x) (zip_add (data x) (data y)).

Definition xent (logits : tensor Z) (target : tensor Z) : tensor Z :=
  mkTensor [1] [(1 + nth (Z.to_nat (hd 0%Z (data target))) (data logits) 0)%Z].

#[export] Instance backend : Backend := {|
  F := Z;
  fzero := 0%Z;
  fadd := Z.add;
  fdiv := Z.div;
  to_float := fun z => z;
  fgt := Z.gtb;
  ftruth := fun z => negb (z =? 0)%Z;
  tf_matmul := matmul;
  tf_add := add;
  sparse_softmax_cross_entropy_with_logits := xent
|}.

#[export] Instance collaborators : Collaborators := {|
  KB := unit;
  KGInput := Z;
  Word := Z;
  Lexicon := unit;
  Vocab := unit;
  kg_load := fun _ => 7%Z;
  to_word := fun _ z => Some z;
  get_entities := fun words _ c => Some (mkTensor [c] (repeat (last words 0%Z) c))
|}.

(** A cell with an LSTM-style state, a pair (c, h). *)
Definition lstm_like : RNNCell := {|
  output_size := 2;
  state_size := Tuple [Leaf 2; Leaf 2];
  call := fun _ x st =>
    match st with
    | Tuple [Leaf c; Leaf h] =>
        let h' := mkTensor [1; 2] (zip_add (data (fst x)) (data c)) in
        (h', Tuple [Leaf (mkTensor [1; 2] (zip_add (data c) (data h))); Leaf h'])
    | _ => (mkTensor [1; 2] [0; 0]%Z, st)
    end
|}.

(** A cell with a GRU-style state, a single tensor. *)
Definition gru_like : RNNCell := {|
  output_size := 2;
  state_size := Leaf 2;
  call := fun _ x st =>
    match st with
    | Leaf h => let h' := mkTensor [1; 2] (zip_add (data (fst x)) (data h)) in (h', Leaf h')
    | _ => (mkTensor [1; 2] [0; 0]%Z, st)
    end
|}.

(** A cell that also reads the knowledge graph and the entity cache. *)
Definition attn_like : RNNCell := {|
  output_size := 2;
  state_size := Tuple [Leaf 2; Leaf 2];
  call := fun kgi x st =>
    match st with
    | Tuple [Leaf c; Leaf h] =>
        let k := match kgi with Some k => k | None => 0%Z end in
        let e := match snd x with Some e => hd 0%Z (data e) | None => 0%Z end in
        let h' := mkTensor [1; 2] (map (Z.add (k + e)) (zip_add (data (fst x)) (data c))) in
        (h', Tuple [Leaf (mkTensor [1; 2] (zip_add (data c) (data h))); Leaf h'])
    | _ => (mkTensor [1; 2] [0; 0]%Z, st)
    end
|}.

Definition model (c : RNNCell) : EncoderDecoder := {|
  vocab_size := 3;
  rnn_size := 2;
  cell := c;
  embedding := mkTensor [3; 2] [1; 0; 0; 1; 1; 1]%Z;
  output_w := mkTensor [2; 3] [1; 0; 2; 0; 3; 1]%Z;
  output_b := mkTensor [3] [0; 1; 0]%Z;
  has_kg := false;
  entity_cache_size := 2
|}.

(** The attention variant. *)
Definition attn_model : EncoderDecoder := {|
  vocab_size := 3;
  rnn_size := 2;
  cell := attn_like;
  embedding := mkTensor [3; 2] [1; 0; 0; 1; 1; 1]%Z;
  output_w := mkTensor [2; 3] [1; 0; 2; 0; 3; 1]%Z;
  output_b := mkTensor [3] [0; 1; 0]%Z;
  has_kg := true;
  entity_cache_size := 2
|}.

Definition train_feed (toks : list Z) (ws : list bool) (tgts : list Z) : feed_dict := {|
  input_data := Some (row toks);
  input_iswrite := Some (row ws);
  targets := Some (row tgts);
  init_state := None;
  kg_input_data := None;
  input_entities := None
|}.

Definition no_entities (n : nat) : tensor Z := mkTensor [1; n; 2] (repeat (-1)%Z (n * 2)).

(** A training example and what the graph computes on it. *)
Definition toks : list Z := [0; 1; 2; 1]%Z.
Definition flags : list bool := [true; false; true; true].
Definition tgts : list Z := [1; 2; 1; 0]%Z.
Definition fd : feed_dict := train_feed toks flags tgts.
Definition self : EncoderDecoder := model lstm_like.

Definition hs : list (tensor Z) :=
  [mkTensor [1; 2] [1; 0]%Z; mkTensor [1; 2] [0; 1]%Z;
   mkTensor [1; 2] [2; 1]%Z; mkTensor [1; 2] [1; 2]%Z].

Definition outs : list (tensor Z) :=
  [mkTensor [1; 3] [1; 1; 2]%Z; mkTensor [1; 3] [0; 0; 0]%Z;
   mkTensor [1; 3] [2; 4; 5]%Z; mkTensor [1; 3] [1; 7; 4]%Z].

Definition ls : list (tensor Z) :=
  [mkTensor [1] [2%Z]; mkTensor [1] [0%Z]; mkTensor [1] [5%Z]; mkTensor [1] [2%Z]].

Definition caches : list (list Z) := [[-1; -1]; [-1; -1]; [-1; -1]]%Z.

(** A state of an earlier turn, of the shapes of [lstm_like]'s state. *)
Definition prior_state : nest (tensor Z) :=
  Tuple [Leaf (mkTensor [1; 2] [1; 0]%Z); Leaf (mkTensor [1; 2] [0; 1]%Z)].

End Toy.

(** * Facts *)

(** ** Row-major indexing *)

Lemma ravel_lt sh : forall idx, in_range sh idx -> ravel sh idx < numel sh.
Proof.
  induction sh as [|d sh IH]; intros [|i idx] H; simpl in *; try tauto; try lia.
  destruct H as [Hi H]. specialize (IH _ H). nia.
Qed.

Lemma unravel_in_range sh : forall k, k < numel sh -> in_range sh (unravel sh k).
Proof.
  induction sh as [|d sh IH]; intros k H; simpl in *; [exact I|].
  assert (numel sh <> 0) by (intro E; rewrite E in H; lia).
  split.
  - apply Nat.Div0.div_lt_upper_bound. lia.
  - apply IH. apply Nat.mod_upper_bound. assumption.
Qed.

Lemma ravel_unravel sh : forall k, k < numel sh -> ravel sh (unravel sh k) = k.
Proof.
  induction sh as [|d sh IH]; intros k H; simpl in *; [lia|].
  assert (numel sh <> 0) by (intro E; rewrite E in H; lia).
  rewrite IH by (apply Nat.mod_upper_bound; assumption).
  rewrite (Nat.div_mod_eq k (numel sh)) at 3. lia.
Qed.

Lemma unravel_ravel sh : forall idx, in_range sh idx -> unravel sh (ravel sh idx) = idx.
Proof.
  induction sh as [|d sh IH]; intros [|i idx] H; simpl in *; try tauto.
  destruct H as [Hi H]. pose proof (ravel_lt _ _ H) as Hlt.
  assert (Hd : (i * numel sh + ravel sh idx) / numel sh = i).
  { rewrite Nat.div_add_l by lia. rewrite Nat.div_small by assumption. lia. }
  assert (Hm : (i * numel sh + ravel sh idx) mod numel sh = ravel sh idx).
  { rewrite (Nat.add_comm (i * numel sh)), Nat.Div0.mod_add. now apply Nat.mod_small. }
  rewrite Hd, Hm, IH by assumption. reflexivity.
Qed.

Lemma in_range_length sh : forall idx, in_range sh idx -> length idx = length sh.
Proof.
  induction sh; intros [|i idx] H; simpl in *; try tauto. f_equal. apply IHsh, H.
Qed.

(** ** Gathering *)

Lemma gather_app {A} (l : list A) ix js : gather l (ix ++ js) = gather l ix ++ gather l js.
Proof. unfold gather. apply flat_map_app. Qed.

Lemma gather_cons_valid {A} (l : list A) i ix a :
  nth_error l i = Some a -> gather l (i :: ix) = a :: gather l ix.
Proof. intros H. unfold gather. simpl. rewrite H. reflexivity. Qed.

Lemma nth_error_gather {A} (l : list A) ix :
  Forall (fun i => i < length l) ix ->
  forall j, nth_error (gather l ix) j =
            match nth_error ix j with Some i => nth_error l i | None => None end.
Proof.
  induction 1 as [|i ix Hi _ IH]; intros j.
  - destruct j; reflexivity.
  - destruct (nth_error l i) as [a|] eqn:E.
    + rewrite (gather_cons_valid _ _ ix _ E). destruct j; simpl; [now rewrite E | apply IH].
    + apply nth_error_None in E. lia.
Qed.

Lemma gather_gather {A} (l : list A) ix js :
  Forall (fun i => i < length l) ix ->
  gather (gather l ix) js = gather l (gather ix js).
Proof.
  intros H. induction js as [|j js IH]; [reflexivity|].
  change (j :: js) with ([j] ++ js). rewrite !gather_app, IH. f_equal.
  unfold gather at 1 4. simpl. rewrite !app_nil_r, (nth_error_gather _ _ H).
  destruct (nth_error ix j) as [i|]; [|reflexivity].
  unfold gather. simpl. now rewrite app_nil_r.
Qed.

Lemma gather_map {A B} (g : A -> B) l ix : gather (map g l) ix = map g (gather l ix).
Proof.
  induction ix as [|i ix IH]; [reflexivity|].
  change (i :: ix) with ([i] ++ ix). rewrite !gather_app, map_app, IH. f_equal.
  unfold gather. simpl. rewrite !app_nil_r, nth_error_map.
  destruct (nth_error l i); reflexivity.
Qed.

Lemma gather_ext_in {A} (l l' : list A) ix :
  (forall i, In i ix -> nth_error l i = nth_error l' i) -> gather l ix = gather l' ix.
Proof.
  induction ix as [|i ix IH]; intros H; [reflexivity|].
  unfold gather in *. simpl. rewrite H by now left.
  f_equal. apply IH. intros; apply H; now right.
Qed.

Lemma gather_seq n ix : Forall (fun i => i < n) ix -> gather (seq 0 n) ix = ix.
Proof.
  induction 1 as [|i ix Hi _ IH]; [reflexivity|].
  rewrite (gather_cons_valid (seq 0 n) i ix i), IH; [reflexivity|].
  rewrite nth_error_nth' with (d := 0) by (now rewrite length_seq).
  now rewrite seq_nth.
Qed.

Lemma gather_all {A} (l : list A) : gather l (seq 0 (length l)) = l.
Proof.
  induction l as [|a l IH] using rev_ind; [reflexivity|].
  rewrite length_app. cbn [length]. rewrite Nat.add_1_r, seq_S, gather_app.
  cbn [Nat.add]. f_equal.
  - etransitivity; [|exact IH]. apply gather_ext_in.
    intros i Hi. apply in_seq in Hi. apply nth_error_app1. lia.
  - unfold gather. simpl. rewrite nth_error_app2, Nat.sub_diag by lia. reflexivity.
Qed.

Lemma gather_map_id {A} (l : list A) f :
  (forall k, k < length l -> f k = k) -> gather l (map f (seq 0 (length l))) = l.
Proof.
  intros H. rewrite <- (gather_all l) at 3. f_equal.
  rewrite <- (map_id (seq 0 (length l))) at 2. apply map_ext_in.
  intros k Hk. apply in_seq in Hk. apply H. lia.
Qed.

Lemma length_gather {A} (l : list A) ix :
  Forall (fun i => i < length l) ix -> length (gather l ix) = length ix.
Proof.
  induction 1 as [|i ix Hi _ IH]; [reflexivity|].
  destruct (nth_error l i) as [a|] eqn:E.
  - rewrite (gather_cons_valid _ _ ix _ E). simpl. now rewrite IH.
  - apply nth_error_None in E. lia.
Qed.

(** ** The permutation of [time_major] *)

Lemma index_of_seq m : forall s j, s <= j < s + m -> index_of j (seq s m) = j - s.
Proof.
  induction m as [|m IH]; intros s j H; [lia|]. simpl.
  destruct (Nat.eqb_spec s j) as [->|Hne]; [lia|].
  rewrite IH by lia. lia.
Qed.

Lemma map_nth_shift {A} (d : A) (pre r : list A) :
  map (fun j => nth j (pre ++ r) d) (seq (length pre) (length r)) = r.
Proof.
  revert pre. induction r as [|x r IH]; intros pre; [reflexivity|].
  simpl. f_equal.
  - rewrite app_nth2, Nat.sub_diag by lia. reflexivity.
  - specialize (IH (pre ++ [x])). rewrite <- app_assoc, length_app, Nat.add_1_r in IH.
    exact IH.
Qed.

Lemma time_major_perm_ok m : is_permutation ([1; 0] ++ seq 2 m) (2 + m) = true.
Proof.
  unfold is_permutation. cbn [app length]. rewrite length_seq, Nat.eqb_refl.
  apply forallb_forall. intros j Hj. apply in_seq in Hj.
  apply existsb_exists. exists j. split; [|apply Nat.eqb_refl].
  destruct j as [|[|j]]; [right; now left | now left |].
  right; right. apply in_seq. lia.
Qed.

Lemma time_major_shape d0 d1 rest :
  map (fun p => nth p (d0 :: d1 :: rest) 0) ([1; 0] ++ seq 2 (length rest)) = d1 :: d0 :: rest.
Proof.
  cbn [app map nth]. do 2 f_equal. apply (map_nth_shift 0 [d0; d1] rest).
Qed.

Lemma permute_back_swap a b r :
  permute_back ([1; 0] ++ seq 2 (length r)) (a :: b :: r) = b :: a :: r.
Proof.
  unfold permute_back. cbn [app length]. rewrite length_seq.
  cbn [seq map index_of Nat.eqb nth]. do 2 f_equal.
  rewrite <- (map_nth_shift 0 [a; b] r) at 2. apply map_ext_in.
  intros j Hj. apply in_seq in Hj. cbn [length] in Hj.
  destruct j as [|[|j]]; try lia. cbn [Nat.eqb].
  rewrite index_of_seq by lia.
  replace (S (S j) - 2) with j by lia. reflexivity.
Qed.

Lemma permute_back_swap2 sh idx :
  in_range sh idx -> 2 <= length sh ->
  permute_back ([1; 0] ++ seq 2 (length sh - 2)) idx = swap2 idx.
Proof.
  intros H Hl. pose proof (in_range_length _ _ H) as E.
  destruct idx as [|a [|b r]]; simpl in E; try lia.
  replace (length sh - 2) with (length r) by lia. apply permute_back_swap.
Qed.

Lemma in_range_swap2 d0 d1 rest idx :
  in_range (d0 :: d1 :: rest) idx -> in_range (d1 :: d0 :: rest) (swap2 idx).
Proof.
  destruct idx as [|a [|b r]]; simpl; tauto.
Qed.

Lemma swap2_involutive idx : swap2 (swap2 idx) = idx.
Proof. destruct idx as [|a [|b r]]; reflexivity. Qed.

Lemma numel_swap d0 d1 rest : numel (d1 :: d0 :: rest) = numel (d0 :: d1 :: rest).
Proof. simpl. lia. Qed.

(** [time_major] on a tensor of shape [d0 :: d1 :: rest], spelled out. *)
Lemma time_major_unfold {A} (t : tensor A) d0 d1 rest :
  shape t = d0 :: d1 :: rest ->
  time_major t (rank t) =
  Some (mkTensor (d1 :: d0 :: rest)
          (gather (data t)
             (map (fun k => ravel (d0 :: d1 :: rest) (swap2 (unravel (d1 :: d0 :: rest) k)))
                  (seq 0 (numel (d1 :: d0 :: rest)))))).
Proof.
  intros Hs. unfold time_major, tf_transpose, rank. rewrite Hs.
  cbn [length]. replace (S (S (length rest)) - 2) with (length rest) by lia.
  change (S (S (length rest))) with (2 + length rest).
  rewrite (time_major_perm_ok (length rest)), time_major_shape.
  do 3 f_equal. apply map_ext_in. intros k Hk. apply in_seq in Hk. f_equal.
  rewrite <- (permute_back_swap2 (d1 :: d0 :: rest)).
  - cbn [length]. now replace (S (S (length rest)) - 2) with (length rest) by lia.
  - apply unravel_in_range. lia.
  - simpl. lia.
Qed.

Lemma swap_src_lt d0 d1 rest k :
  k < numel (d1 :: d0 :: rest) ->
  ravel (d0 :: d1 :: rest) (swap2 (unravel (d1 :: d0 :: rest) k)) < numel (d0 :: d1 :: rest).
Proof.
  intros H. apply ravel_lt, in_range_swap2, unravel_in_range, H.
Qed.

Lemma swap_src_involutive d0 d1 rest k :
  k < numel (d0 :: d1 :: rest) ->
  ravel (d0 :: d1 :: rest)
    (swap2 (unravel (d1 :: d0 :: rest)
       (ravel (d1 :: d0 :: rest) (swap2 (unravel (d0 :: d1 :: rest) k))))) = k.
Proof.
  intros H.
  rewrite unravel_ravel by (apply in_range_swap2, unravel_in_range, H).
  rewrite swap2_involutive. apply ravel_unravel, H.
Qed.

(** C10: on a tensor of rank at least 2, [time_major] applied twice gives the
    tensor back: the transposition [1, 0, 2, ..., rank-1] is its own inverse. *)
Theorem time_major_involutive {A} (t : tensor A) (rk : nat) :
  wf_tensor t -> rank t = rk -> 2 <= rk ->
  (t' <- time_major t rk ;; time_major t' rk) = Some t.
Proof.
  intros Hwf Hr Hrk. subst rk. destruct t as [sh d]. unfold wf_tensor, rank in *.
  cbn [shape data] in *.
  destruct sh as [|d0 [|d1 rest]]; simpl in Hrk; try lia.
  pose proof (time_major_unfold (mkTensor (d0 :: d1 :: rest) d) d0 d1 rest eq_refl) as E1.
  unfold rank in E1. cbn [shape data length] in E1. cbn [length]. rewrite E1. cbn [bind].
  match goal with |- time_major ?t' _ = _ =>
    pose proof (time_major_unfold t' d1 d0 rest eq_refl) as E2 end.
  unfold rank in E2. cbn [shape data length] in E2. rewrite E2. do 2 f_equal.
  rewrite gather_gather.
  - rewrite gather_map, gather_seq, map_map.
    + rewrite <- Hwf. apply gather_map_id.
      intros k Hk. apply swap_src_involutive. lia.
    + apply Forall_forall. intros i Hi. apply in_map_iff in Hi.
      destruct Hi as (k & <- & Hk). apply in_seq in Hk.
      apply swap_src_lt. lia.
  - apply Forall_forall. intros i Hi. apply in_map_iff in Hi.
    destruct Hi as (k & <- & Hk). apply in_seq in Hk.
    rewrite Hwf. apply swap_src_lt. lia.
Qed.

Lemma time_major_involutive_witness :
  let t := mkTensor [2; 3] [1; 2; 3; 4; 5; 6]%Z in
  time_major t 2 = Some (mkTensor [3; 2] [1; 4; 2; 5; 3; 6]%Z) /\
  (t' <- time_major t 2 ;; time_major t' 2) = Some t.
Proof.
  split; [reflexivity|].
  apply (time_major_involutive (mkTensor [2; 3] [1; 2; 3; 4; 5; 6]%Z) 2);
    [reflexivity | reflexivity | lia].
Defined.

(** With a leading axis of length 1 (one batch element) the transposition
    only moves that axis: the entries stay in place. *)
Lemma time_major_batch1 {A} (t : tensor A) n rest :
  shape t = 1 :: n :: rest -> wf_tensor t ->
  time_major t (rank t) = Some (mkTensor (n :: 1 :: rest) (data t)).
Proof.
  intros Hs Hwf. rewrite (time_major_unfold t 1 n rest Hs). do 2 f_equal.
  unfold wf_tensor in Hwf. rewrite Hs in Hwf.
  rewrite (numel_swap 1 n rest), <- Hwf. apply gather_map_id.
  intros k Hk. rewrite Hwf in Hk.
  assert (Hk' : k < numel (n :: 1 :: rest)) by (rewrite numel_swap; exact Hk).
  pose proof (unravel_in_range (n :: 1 :: rest) k Hk') as Hin.
  rewrite <- (ravel_unravel (n :: 1 :: rest) k Hk') at 2.
  destruct (unravel (n :: 1 :: rest) k) as [|a [|b r]]; simpl in Hin; try tauto.
  destruct Hin as (_ & Hb & _). assert (b = 0) by lia. subst b.
  simpl. lia.
Qed.

(** ** Lists, [mapM] and blocks *)

Ltac bind_inv_as H E :=
  match type of H with
  | bind ?o _ = Some _ => destruct o eqn:E; cbn [bind] in H; [|discriminate H]
  | (if ?c then _ else _) = Some _ => destruct c eqn:E; [|discriminate H]
  end.

Tactic Notation "bind_inv" hyp(H) "as" ident(E) := bind_inv_as H E.
Tactic Notation "bind_inv" hyp(H) := let E := fresh "E" in bind_inv_as H E.

Lemma mapM_map {A B} (f : A -> option B) (g : A -> B) l :
  (forall a, In a l -> f a = Some (g a)) -> mapM f l = Some (map g l).
Proof.
  induction l as [|a l IH]; intros H; [reflexivity|].
  simpl. rewrite (H a) by now left. simpl. rewrite IH; [reflexivity|].
  intros; apply H; now right.
Qed.

Lemma mapM_length {A B} (f : A -> option B) l : forall l',
  mapM f l = Some l' -> length l' = length l.
Proof.
  induction l as [|a l IH]; intros l' H; simpl in H.
  - now inversion H.
  - destruct (f a); simpl in H; [|discriminate].
    destruct (mapM f l) eqn:E; simpl in H; [|discriminate].
    inversion H; subst. simpl. f_equal. now apply IH.
Qed.

Lemma mapM_nth {A B} (f : A -> option B) l : forall l' t a,
  mapM f l = Some l' -> nth_error l t = Some a ->
  exists b, nth_error l' t = Some b /\ f a = Some b.
Proof.
  induction l as [|x l IH]; intros l' t a H Ht; [destruct t; discriminate|].
  simpl in H. destruct (f x) as [b|] eqn:Ex; simpl in H; [|discriminate].
  destruct (mapM f l) as [bs|] eqn:E; simpl in H; [|discriminate].
  inversion H; subst. destruct t; simpl in *.
  - inversion Ht; subst. exists b; auto.
  - eapply IH; eauto.
Qed.

Lemma nth_error_combine {A B} (xs : list A) : forall (ys : list B) t x y,
  nth_error xs t = Some x -> nth_error ys t = Some y ->
  nth_error (combine xs ys) t = Some (x, y).
Proof.
  induction xs as [|a xs IH]; intros [|b ys] [|t] x y Hx Hy; simpl in *; try discriminate.
  - congruence.
  - now apply IH.
Qed.

Lemma chunk_0 {A} p (l r : list A) : length l = p -> chunk p 0 (l ++ r) = l.
Proof.
  intros <-. unfold chunk. simpl. rewrite firstn_app, Nat.sub_diag, firstn_all. simpl.
  apply app_nil_r.
Qed.

Lemma chunk_S {A} p i (l r : list A) : length l = p -> chunk p (S i) (l ++ r) = chunk p i r.
Proof.
  intros <-. unfold chunk. f_equal.
  replace (S i * length l) with (i * length l + length l) by lia.
  rewrite <- skipn_skipn. f_equal.
  rewrite skipn_app, Nat.sub_diag, skipn_all. reflexivity.
Qed.

(** The blocks of a concatenation of equally long blocks. *)
Lemma chunks_flat_map {X A} (f : X -> list A) p (l : list X) :
  (forall x, In x l -> length (f x) = p) ->
  map (fun i => chunk p i (flat_map f l)) (seq 0 (length l)) = map f l.
Proof.
  induction l as [|x l IH]; intros H; [reflexivity|].
  cbn [length seq map flat_map]. f_equal.
  - apply chunk_0. apply H. now left.
  - rewrite <- seq_shift, map_map. rewrite <- IH by (intros; apply H; now right).
    apply map_ext. intros i. apply chunk_S. apply H. now left.
Qed.

Lemma chunks_singletons {A} (l : list A) :
  map (fun i => chunk 1 i l) (seq 0 (length l)) = map (fun x => [x]) l.
Proof.
  rewrite <- (chunks_flat_map (fun x => [x]) 1 l) by reflexivity.
  apply map_ext. intros i. f_equal.
  clear. induction l; simpl; congruence.
Qed.

Lemma length_flat_map_const {X A} (f : X -> list A) p (l : list X) :
  (forall x, In x l -> length (f x) = p) -> length (flat_map f l) = length l * p.
Proof. intros H. now apply flat_map_constant_length. Qed.

Lemma length_chunk {A} p i (l : list A) : (S i) * p <= length l -> length (chunk p i l) = p.
Proof.
  intros H. unfold chunk. rewrite length_firstn, length_skipn. simpl in H. lia.
Qed.

(** ** Batches of one sequence through [time_major] and the unpacking *)

Lemma time_major_row {A} (l : list A) :
  time_major (row l) 2 = Some (mkTensor [length l; 1] l).
Proof.
  change 2 with (rank (row l)).
  apply (time_major_batch1 (row l) (length l) []); [reflexivity|].
  unfold wf_tensor, row. simpl. lia.
Qed.

Lemma unstack_column {A} (l : list A) :
  unstack (mkTensor [length l; 1] l) = Some (map (fun x => mkTensor [1] [x]) l).
Proof.
  unfold unstack. cbn [shape data]. f_equal.
  change (numel [1]) with 1.
  rewrite <- (map_map (fun x => [x]) (mkTensor [1])), <- chunks_singletons, map_map.
  reflexivity.
Qed.

Lemma tf_scan_length {X Acc} (fn : Acc -> X -> Acc) elems : forall a,
  length (tf_scan fn elems a) = length elems.
Proof. induction elems; intros; simpl; auto. Qed.

Lemma tf_constant_row {A} (a : A) n : tf_constant a [1; n] = mkTensor [1; n] (repeat a n).
Proof. unfold tf_constant. do 2 f_equal. simpl. lia. Qed.

Lemma tf_constant_single {A} (a : A) : tf_constant a [1] = mkTensor [1] [a].
Proof. reflexivity. Qed.

Section GraphFacts.
Context {B : Backend} {C : Collaborators}.

Lemma iswrite_row self fd flags :
  input_iswrite fd = Some (row flags) ->
  iswrite self fd = Some (map (fun w => mkTensor [1] [w]) flags).
Proof.
  intros H. unfold iswrite, placeholder. rewrite H. cbn [bind row shape shape_matches batch_size].
  rewrite Nat.eqb_refl. cbn [andb bind].
  change (mkTensor [1; length flags] flags) with (row flags).
  rewrite time_major_row. cbn [bind]. apply unstack_column.
Qed.

Lemma targets_row self fd tgts :
  targets fd = Some (row tgts) ->
  (t <- placeholder [Some (batch_size self); None] (targets fd) ;;
   t' <- time_major t 2 ;; unstack t') = Some (map (fun x => mkTensor [1] [x]) tgts).
Proof.
  intros H. unfold placeholder. rewrite H. cbn [bind row shape shape_matches batch_size].
  rewrite Nat.eqb_refl. cbn [andb bind].
  change (mkTensor [1; length tgts] tgts) with (row tgts).
  rewrite time_major_row. cbn [bind]. apply unstack_column.
Qed.

Lemma cond_output_step self h (w : bool) :
  cond_output self (h, mkTensor [1] [w]) =
  Some (if w then linear self h else mkTensor [1; vocab_size self] (repeat fzero (vocab_size self))).
Proof.
  unfold cond_output, reshape_scalar, tf_cond, batch_size. cbn [data bind].
  rewrite tf_constant_row. destruct w; reflexivity.
Qed.

Lemma cond_loss_step self output target (w : bool) :
  cond_loss self (output, target, mkTensor [1] [w]) =
  Some (if w then sparse_softmax_cross_entropy_with_logits output target
        else mkTensor [1] [fzero]).
Proof.
  unfold cond_loss, reshape_scalar, tf_cond, batch_size. cbn [data bind].
  destruct w; reflexivity.
Qed.

(** The scan yields one accumulator per token of the fed sequence. *)
Lemma scan_rnn_length self fd ids accs :
  input_data fd = Some ids -> scan_rnn self fd = Some accs ->
  length accs = nth 1 (shape ids) 0.
Proof.
  intros Hin H. unfold scan_rnn, _build_rnn_inputs, placeholder in H. rewrite Hin in H.
  cbn [bind] in H.
  destruct (shape_matches _ (shape ids)) eqn:Hsh; [|discriminate].
  destruct (shape ids) as [|b [|n [|? ?]]] eqn:Eids; cbn [shape_matches] in Hsh;
    rewrite ?andb_false_r in Hsh; try discriminate.
  clear Hsh. cbn [bind] in H.
  destruct (embedding_lookup (embedding self) ids) as [e|] eqn:He; [|discriminate].
  cbn [bind] in H.
  unfold embedding_lookup in He. destruct (shape (embedding self)) as [|d sh']; [discriminate|].
  destruct (forallb _ _); [|discriminate]. inversion He; subst e; clear He.
  rewrite Eids in H.
  unfold time_major at 1, tf_transpose at 1 in H. unfold rank in H. cbn [shape data] in H.
  destruct (is_permutation _ _) eqn:Hp; [|discriminate].
  unfold is_permutation in Hp. apply andb_prop in Hp. destruct Hp as [Hp _].
  apply Nat.eqb_eq in Hp. cbn in Hp.
  destruct sh' as [|r [|? ?]]; simpl in Hp; try lia.
  cbn [bind app seq map nth Nat.sub] in H.
  assert (Hlen : forall (o : option (tensor F * option (tensor Z))) dat,
             o = Some (mkTensor [n; b; r] dat, None) \/
             (exists e, o = Some (mkTensor [n; b; r] dat, Some e)) ->
             forall elems, (inputs <- o ;; scan_elems inputs) = Some elems ->
             length elems = n).
  { intros o dat [->|[e ->]] elems He; cbn [bind] in He; unfold scan_elems in He;
      cbn [fst snd unstack shape data bind] in He.
    - inversion He. now rewrite !length_map, length_seq.
    - destruct (unstack e) as [es|]; cbn [bind] in He; [|discriminate].
      rewrite length_map, length_seq in He.
      destruct (n =? length es) eqn:En; [|discriminate]. apply Nat.eqb_eq in En.
      inversion He. rewrite length_map, length_combine, length_map, length_seq. lia. }
  destruct (has_kg self).
  - bind_inv H as E. bind_inv E as E1. bind_inv E as E2. inversion E; subst; clear E.
    bind_inv H. bind_inv H. inversion H. rewrite tf_scan_length.
    eapply Hlen; [right; eexists; reflexivity | cbn [bind]; eassumption].
  - cbn [bind] in H. bind_inv H. bind_inv H. inversion H. rewrite tf_scan_length.
    eapply Hlen; [left; reflexivity | cbn [bind]; eassumption].
Qed.

Lemma rnn_outputs_length self fd toks hs :
  input_data fd = Some (row toks) -> rnn_outputs self fd = Some hs ->
  length hs = length toks.
Proof.
  intros Hin H. unfold rnn_outputs in H.
  destruct (scan_rnn self fd) as [accs|] eqn:E; [|discriminate].
  inversion H. rewrite length_map. apply (scan_rnn_length _ _ _ _ Hin E).
Qed.

End GraphFacts.

(** ** The conditional outputs and losses *)

Section Conditional.
Context {B : Backend} {C : Collaborators}.

Lemma combine_singletons {A X} (xs : list X) (l : list A) (p : X * tensor A) :
  In p (combine xs (map (fun a => mkTensor [1] [a]) l)) ->
  exists a, snd p = mkTensor [1] [a].
Proof.
  destruct p as [x t]. intros H. apply in_combine_r in H. apply in_map_iff in H.
  destruct H as (a & <- & _). now exists a.
Qed.

Lemma outputs_row self fd flags hs :
  input_iswrite fd = Some (row flags) ->
  rnn_outputs self fd = Some hs ->
  length hs = length flags ->
  outputs self fd =
  Some (map (fun hw : tensor F * tensor bool =>
               if hd false (data (snd hw)) then linear self (fst hw)
               else mkTensor [1; vocab_size self] (repeat fzero (vocab_size self)))
          (combine hs (map (fun w => mkTensor [1] [w]) flags))).
Proof.
  intros Hw Hh Hl. unfold outputs. rewrite Hh, (iswrite_row self fd flags Hw). cbn [bind].
  unfold map_fn2. rewrite length_map, Hl, Nat.eqb_refl.
  apply mapM_map. intros [h t] Hin.
  destruct (combine_singletons _ _ _ Hin) as (w & Ew). cbn [snd fst] in *. subst t.
  apply cond_output_step.
Qed.

Lemma outputs_length self fd flags outs :
  input_iswrite fd = Some (row flags) -> outputs self fd = Some outs ->
  length outs = length flags.
Proof.
  intros Hw H. unfold outputs in H. bind_inv H.
  rewrite (iswrite_row self fd flags Hw) in H. cbn [bind] in H.
  unfold map_fn2 in H. bind_inv H as El. apply Nat.eqb_eq in El.
  apply mapM_length in H. rewrite H, length_combine, length_map in *. lia.
Qed.

(** C1: with a token sequence and a write-flag sequence of the same length
    fed, the logits of every step whose flag is false are the zero vector
    of vocabulary size, and those of every step whose flag is true are the
    projection [h * output_w + output_b] of that step's hidden output [h],
    with the same [output_w] and [output_b] at all steps. *)
Theorem outputs_zero_or_projection self fd toks flags hs :
  input_data fd = Some (row toks) ->
  input_iswrite fd = Some (row flags) ->
  length toks = length flags ->
  rnn_outputs self fd = Some hs ->
  exists outs,
    outputs self fd = Some outs /\ length outs = length toks /\
    forall t h w,
      nth_error hs t = Some h -> nth_error flags t = Some w ->
      nth_error outs t =
      Some (if w then tf_add (tf_matmul h (output_w self)) (output_b self)
            else mkTensor [1; vocab_size self] (repeat fzero (vocab_size self))).
Proof.
  intros Hin Hw Hl Hh.
  pose proof (rnn_outputs_length self fd toks hs Hin Hh) as Hlh.
  eexists. split; [apply (outputs_row self fd flags hs Hw Hh); lia|]. split.
  - rewrite length_map, length_combine, length_map. lia.
  - intros t h w Ht Hf.
    erewrite map_nth_error;
      [|apply nth_error_combine; [exact Ht | apply map_nth_error; exact Hf]].
    reflexivity.
Qed.

Lemma seq_loss_row self fd flags tgts outs :
  input_iswrite fd = Some (row flags) ->
  targets fd = Some (row tgts) ->
  outputs self fd = Some outs ->
  length tgts = length flags ->
  seq_loss self fd =
  Some (map (fun otw : tensor F * tensor Z * tensor bool =>
               if hd false (data (snd otw))
               then sparse_softmax_cross_entropy_with_logits (fst (fst otw)) (snd (fst otw))
               else mkTensor [1] [fzero])
          (combine (combine outs (map (fun x => mkTensor [1] [x]) tgts))
                   (map (fun w => mkTensor [1] [w]) flags))).
Proof.
  intros Hw Ht Ho Hl. pose proof (outputs_length self fd flags outs Hw Ho) as Hlo.
  unfold seq_loss. rewrite Ho. cbn [bind].
  pose proof (targets_row self fd tgts Ht) as E. unfold placeholder in *.
  destruct (targets fd) as [tg|]; [|discriminate]. cbn [bind] in *.
  destruct (shape_matches _ (shape tg)); [|discriminate]. cbn [bind] in *.
  destruct (time_major tg 2) as [tg'|]; [|discriminate]. cbn [bind] in *.
  rewrite E. cbn [bind]. rewrite (iswrite_row self fd flags Hw). cbn [bind].
  unfold map_fn3. rewrite !length_map, Hlo, Hl, !Nat.eqb_refl. cbn [andb].
  apply mapM_map. intros [[o tg0] t] Hin.
  destruct (combine_singletons _ _ _ Hin) as (w & Ew). cbn [snd fst] in *. subst t.
  apply cond_loss_step.
Qed.

(** C2: with token, target and write-flag sequences of the same length
    fed, the loss of every step whose flag is false is zero, and that of
    every step whose flag is true is the cross-entropy between the step's
    logits and its target token. *)
Theorem seq_loss_zero_or_cross_entropy self fd toks tgts flags outs :
  input_data fd = Some (row toks) ->
  targets fd = Some (row tgts) ->
  input_iswrite fd = Some (row flags) ->
  length toks = length flags -> length tgts = length flags ->
  outputs self fd = Some outs ->
  exists ls,
    seq_loss self fd = Some ls /\ length ls = length toks /\
    forall t out tgt w,
      nth_error outs t = Some out -> nth_error tgts t = Some tgt ->
      nth_error flags t = Some w ->
      nth_error ls t =
      Some (if w then sparse_softmax_cross_entropy_with_logits out (mkTensor [1] [tgt])
            else mkTensor [1] [fzero]).
Proof.
  intros Hin Ht Hw Hl Hl' Ho.
  pose proof (outputs_length self fd flags outs Hw Ho) as Hlo.
  eexists. split; [apply (seq_loss_row self fd flags tgts outs Hw Ht Ho Hl')|]. split.
  - rewrite length_map, !length_combine, !length_map. lia.
  - intros t out tgt w Hout Htg Hf.
    erewrite map_nth_error;
      [|apply nth_error_combine;
        [apply nth_error_combine; [exact Hout | apply map_nth_error; exact Htg]
        | apply map_nth_error; exact Hf]].
    reflexivity.
Qed.

Lemma seq_loss_length self fd toks ls :
  input_data fd = Some (row toks) -> seq_loss self fd = Some ls ->
  length ls = length toks.
Proof.
  intros Hin H. unfold seq_loss in H.
  bind_inv H as Ho. bind_inv H as E1. bind_inv H as E2. bind_inv H as E3.
  bind_inv H as E4. unfold map_fn3 in H. bind_inv H as El.
  apply andb_prop in El. destruct El as [El El2].
  apply Nat.eqb_eq in El. apply Nat.eqb_eq in El2. apply mapM_length in H.
  rewrite H, !length_combine.
  unfold outputs in Ho. bind_inv Ho as Eh. bind_inv Ho as Ew. unfold map_fn2 in Ho.
  bind_inv Ho as El'. apply Nat.eqb_eq in El'. apply mapM_length in Ho.
  rewrite length_combine in Ho.
  pose proof (rnn_outputs_length self fd toks _ Hin Eh) as Hh. lia.
Qed.

(** C3: the aggregate loss is the sum of the per-step losses over all time
    steps, divided by the batch size and by the sequence length (in this
    order in the code; in the other order as well when dividing by the
    batch size, 1, changes nothing). *)
Theorem loss_is_average self fd toks ls :
  input_data fd = Some (row toks) ->
  seq_loss self fd = Some ls ->
  loss self fd =
    Some (fdiv (fdiv (reduce_sum ls) (to_float (Z.of_nat (batch_size self))))
               (to_float (Z.of_nat (length toks)))) /\
  ((forall x, fdiv x (to_float 1) = x) ->
   loss self fd =
     Some (fdiv (fdiv (reduce_sum ls) (to_float (Z.of_nat (length toks))))
                (to_float (Z.of_nat (batch_size self))))).
Proof.
  intros Hin Hs. pose proof (seq_loss_length self fd toks ls Hin Hs) as Hl.
  assert (E : loss self fd =
              Some (fdiv (fdiv (reduce_sum ls) (to_float (Z.of_nat (batch_size self))))
                         (to_float (Z.of_nat (length toks))))).
  { unfold loss. rewrite Hs. cbn [bind]. now rewrite Hl. }
  split; [exact E|]. intros H1. rewrite E. unfold batch_size. cbn [Z.of_nat Pos.of_succ_nat].
  now rewrite !H1.
Qed.

End Conditional.

(** ** Nested structures *)

Lemma nest_Forall_ind {A} (P : nest A -> Prop)
    (HL : forall a, P (Leaf a)) (HT : forall l, Forall P l -> P (Tuple l)) :
  forall s, P s.
Proof.
  fix IH 1. intros [a|l]; [apply HL|]. apply HT.
  induction l as [|x xs IHxs]; constructor; [apply IH | exact IHxs].
Qed.

Lemma same_structure_Tuple {A B} (l : list (nest A)) (l' : list (nest B)) :
  same_structure (Tuple l) (Tuple l') = same_structures l l'.
Proof.
  cbn [same_structure]. revert l'. induction l as [|x xs IH]; intros [|y ys]; try reflexivity.
  cbn [same_structures]. now rewrite IH.
Qed.

Lemma pack_from_Tuple {A B} (l : list (nest A)) (flat : list B) :
  pack_from (Tuple l) flat = (r <- pack_list l flat ;; Some (Tuple (fst r), snd r)).
Proof.
  cbn [pack_from]. f_equal. revert flat. induction l as [|x xs IH]; intros flat; [reflexivity|].
  cbn [pack_list]. destruct (pack_from x flat) as [r1|]; [|reflexivity]. cbn [bind].
  now rewrite IH.
Qed.

Lemma pack_from_flatten {A B} (s : nest A) : forall (t : nest B) rest,
  same_structure s t = true -> pack_from s (flatten t ++ rest) = Some (t, rest).
Proof.
  induction s as [a|l IH] using nest_Forall_ind; intros [b|l'] rest H; try discriminate.
  - reflexivity.
  - rewrite same_structure_Tuple in H. rewrite pack_from_Tuple.
    assert (E : pack_list l (flatten (Tuple l') ++ rest) = Some (l', rest)).
    { revert l' H. induction IH as [|x xs Hx _ IHxs]; intros [|y ys] H; try discriminate.
      - reflexivity.
      - cbn [same_structures] in H. apply andb_prop in H. destruct H as [H1 H2].
        cbn [pack_list flatten flat_map]. rewrite <- app_assoc, (Hx y _ H1). cbn [bind snd fst].
        specialize (IHxs ys H2). cbn [flatten] in IHxs. rewrite IHxs. reflexivity. }
    rewrite E. reflexivity.
Qed.

Lemma pack_sequence_as_flatten {A B} (s : nest A) (t : nest B) :
  same_structure s t = true -> pack_sequence_as s (flatten t) = Some t.
Proof.
  intros H. unfold pack_sequence_as.
  rewrite <- (app_nil_r (flatten t)), (pack_from_flatten s t [] H). reflexivity.
Qed.

Lemma pack_from_inv {A B} (s : nest A) : forall (flat : list B) t rest,
  pack_from s flat = Some (t, rest) ->
  same_structure s t = true /\ flat = flatten t ++ rest.
Proof.
  induction s as [a|l IH] using nest_Forall_ind; intros flat t rest H.
  - destruct flat as [|b flat]; [discriminate|]. inversion H; subst. now split.
  - rewrite pack_from_Tuple in H. bind_inv H as E. destruct p as [l' rest'].
    inversion H; subst; clear H. rewrite same_structure_Tuple. cbn [flatten].
    revert flat l' rest E.
    induction IH as [|x xs Hx _ IHxs]; intros flat l' rest E; cbn [pack_list] in E.
    + inversion E; subst. now split.
    + bind_inv E as E1. bind_inv E as E2. inversion E; subst; clear E.
      destruct p as [y r1]. destruct p0 as [ys r2]. cbn [fst snd] in *.
      destruct (Hx _ _ _ E1) as [H1 ->]. destruct (IHxs _ _ _ E2) as [H2 ->].
      cbn [same_structures flat_map]. rewrite H1, H2, app_assoc. now split.
Qed.

Lemma same_structure_length {A B} (s : nest A) : forall (t : nest B),
  same_structure s t = true -> length (flatten t) = length (flatten s).
Proof.
  induction s as [a|l IH] using nest_Forall_ind; intros [b|l'] H; try discriminate.
  - reflexivity.
  - rewrite same_structure_Tuple in H. cbn [flatten]. revert l' H.
    induction IH as [|x xs Hx _ IHxs]; intros [|y ys] H; try discriminate.
    + reflexivity.
    + cbn [same_structures] in H. apply andb_prop in H. destruct H as [H1 H2].
      cbn [flat_map]. rewrite !length_app, (Hx y H1), (IHxs ys H2). reflexivity.
Qed.

Lemma same_structure_trans {A B D} (s : nest A) : forall (t : nest B) (u : nest D),
  same_structure s t = true -> same_structure s u = true -> same_structure t u = true.
Proof.
  induction s as [a|l IH] using nest_Forall_ind; intros [b|l'] [d|l''] H1 H2;
    try discriminate.
  - reflexivity.
  - rewrite same_structure_Tuple in *. revert l' l'' H1 H2.
    induction IH as [|x xs Hx _ IHxs]; intros [|y ys] [|z zs] H1 H2; try discriminate.
    + reflexivity.
    + cbn [same_structures] in *.
      apply andb_prop in H1. destruct H1 as [H1 H1'].
      apply andb_prop in H2. destruct H2 as [H2 H2'].
      rewrite (Hx y z H1 H2), (IHxs ys zs H1' H2'). reflexivity.
Qed.

Lemma pack_from_enough {A B} (s : nest A) : forall (flat : list B),
  length (flatten s) <= length flat -> exists r, pack_from s flat = Some r.
Proof.
  induction s as [a|l IH] using nest_Forall_ind; intros flat H.
  - destruct flat; simpl in H; [lia|]. eexists; reflexivity.
  - rewrite pack_from_Tuple. cbn [flatten] in H.
    assert (E : exists r, pack_list l flat = Some r).
    { revert flat H. induction IH as [|x xs Hx _ IHxs]; intros flat H.
      - eexists; reflexivity.
      - cbn [flat_map] in H. rewrite length_app in H. cbn [pack_list].
        destruct (Hx flat) as [[y r1] E1]; [lia|]. rewrite E1. cbn [bind snd fst].
        destruct (pack_from_inv _ _ _ _ E1) as [Hs ->]. rewrite length_app in H.
        pose proof (same_structure_length _ _ Hs) as Hl.
        destruct (IHxs r1) as [r2 E2]; [lia|]. rewrite E2. eexists; reflexivity. }
    destruct E as [r ->]. eexists; reflexivity.
Qed.

(** Packing a sequence with exactly as many entries as the structure has
    leaves succeeds, and flattening the result gives the sequence back. *)
Lemma pack_sequence_as_exact {A B} (s : nest A) (flat : list B) :
  length flat = length (flatten s) ->
  exists t, pack_sequence_as s flat = Some t /\ flatten t = flat /\
            same_structure s t = true.
Proof.
  intros H. destruct (pack_from_enough s flat) as [[t rest] E]; [lia|].
  destruct (pack_from_inv _ _ _ _ E) as [Hs Hf].
  pose proof (same_structure_length _ _ Hs) as Hl.
  assert (rest = []).
  { subst flat. rewrite length_app in H. destruct rest; [reflexivity|simpl in H; lia]. }
  subst rest. rewrite app_nil_r in Hf. exists t.
  unfold pack_sequence_as. rewrite E. cbn [bind snd fst]. auto.
Qed.

(** ** The final state of the scan *)

Section FinalState.
Context {B : Backend} {C : Collaborators}.

Lemma column_map (steps : list rnn_state) j :
  Forall (fun s => j < length (flatten s)) steps ->
  gather_opt (map (fun s => nth_error (flatten s) j) steps) =
  map (fun s => nth j (flatten s) no_tensor) steps.
Proof.
  induction 1 as [|s steps Hs _ IH]; [reflexivity|].
  unfold gather_opt in *. cbn [map flat_map].
  rewrite (nth_error_nth' _ no_tensor Hs), IH. reflexivity.
Qed.

Lemma nth_map_last {A X} (f : A -> X) pre last d :
  nth (length pre) (map f (pre ++ [last])) d = f last.
Proof.
  apply nth_error_nth. rewrite nth_error_map, nth_error_app2, Nat.sub_diag by lia.
  reflexivity.
Qed.

Lemma slice_lookup_last {A} (pre : list A) (f : A -> tensor F) last :
  slice_lookup (map f (pre ++ [last])) (Z.of_nat (length (map f (pre ++ [last]))) - 1) =
  Some (f last).
Proof.
  unfold slice_lookup, valid_index. rewrite length_map, length_app. cbn [length].
  replace (Z.of_nat (length pre + 1) - 1)%Z with (Z.of_nat (length pre)) by lia.
  replace ((0 <=? Z.of_nat (length pre))%Z && (Z.of_nat (length pre) <? Z.of_nat (length pre + 1))%Z)
    with true by (symmetry; apply andb_true_intro; split; [apply Z.leb_le | apply Z.ltb_lt]; lia).
  rewrite Nat2Z.id, nth_error_map, nth_error_app2, Nat.sub_diag by lia. reflexivity.
Qed.

(** After at least one step, the state extracted by [_get_final_state]
    from the stacked states is the state of the last step. *)
Lemma get_final_state_last (init : rnn_state) (pre : list rnn_state) (last : rnn_state) :
  flatten init <> [] ->
  Forall (fun s => same_structure init s = true) pre ->
  same_structure init last = true ->
  (sts <- stack_states init (pre ++ [last]) ;; _get_final_state sts) = Some last.
Proof.
  intros Hne Hpre Hlast.
  assert (Hall : Forall (fun s => same_structure init s = true) (pre ++ [last])).
  { apply Forall_app. split; [assumption | now constructor]. }
  unfold stack_states.
  replace (forallb (same_structure init) (pre ++ [last])) with true
    by (symmetry; apply forallb_forall; intros s Hs;
        exact (proj1 (Forall_forall _ _) Hall s Hs)).
  set (k := length (flatten init)).
  set (colf := fun j => gather_opt (map (fun s : rnn_state => nth_error (flatten s) j)
                                      (pre ++ [last]))).
  change ((sts <- pack_sequence_as init (map colf (seq 0 k)) ;; _get_final_state sts)
          = Some last).
  destruct (pack_sequence_as_exact init (map colf (seq 0 k))) as (sts & Ep & Ef & Es).
  { now rewrite length_map, length_seq. }
  rewrite Ep. cbn [bind]. unfold _get_final_state. rewrite Ef.
  assert (Hk : 0 < k) by (subst k; destruct (flatten init); [congruence | simpl; lia]).
  assert (Hcol : forall j, j < k ->
            colf j = map (fun s => nth j (flatten s) no_tensor) (pre ++ [last])).
  { intros j Hj. apply column_map. eapply Forall_impl; [|exact Hall].
    intros s Hs. cbn beta in Hs. rewrite (same_structure_length _ _ Hs). exact Hj. }
  rewrite nth_error_map, nth_error_seq.
  replace (0 <? k) with true by (symmetry; apply Nat.ltb_lt; exact Hk).
  cbn [option_map bind Nat.add]. rewrite (Hcol 0) by lia.
  erewrite (mapM_map _ (fun col => nth (length pre) col no_tensor)).
  - cbn [bind]. rewrite map_map.
    replace (map (fun j => nth (length pre) (colf j) no_tensor) (seq 0 k))
      with (flatten last).
    + apply pack_sequence_as_flatten. exact (same_structure_trans _ _ _ Es Hlast).
    + rewrite <- (map_nth_shift no_tensor [] (flatten last)) at 1.
      rewrite (same_structure_length _ _ Hlast). fold k.
      apply map_ext_in. intros j Hj. apply in_seq in Hj. cbn [length app] in *.
      rewrite (Hcol j) by lia. now rewrite nth_map_last.
  - intros col Hin. apply in_map_iff in Hin. destruct Hin as (j & <- & Hj).
    apply in_seq in Hj. rewrite (Hcol j) by lia.
    rewrite !length_map, <- (length_map (fun s => nth j (flatten s) no_tensor) (pre ++ [last])).
    rewrite slice_lookup_last. now rewrite nth_map_last.
Qed.

End FinalState.

(** ** The elements of the scan *)

Lemma numel_1 r : numel [r] = r.
Proof. simpl. lia. Qed.

Lemma numel_1_1 r : numel [1; r] = r.
Proof. simpl. lia. Qed.

Lemma numel_1_2 n r : numel [1; n; r] = n * r.
Proof. simpl. lia. Qed.

Lemma valid_index_lt d i : valid_index d i = true -> Z.to_nat i < d.
Proof.
  unfold valid_index. intros H. apply andb_prop in H. destruct H as [H1 H2].
  apply Z.leb_le in H1. apply Z.ltb_lt in H2. lia.
Qed.

Section Elements.
Context {B : Backend} {C : Collaborators}.

Lemma embedding_row_length self i :
  variables_ok self -> i < vocab_size self ->
  length (chunk (rnn_size self) i (data (embedding self))) = rnn_size self.
Proof.
  intros [Hs Hw] Hi. apply length_chunk. unfold wf_tensor in Hw. rewrite Hw, Hs.
  cbn [numel fold_right]. nia.
Qed.

(** The embedded tokens of a fed batch of one sequence, step by step. *)
Lemma input_tokens_row self toks :
  variables_ok self ->
  forallb (valid_index (vocab_size self)) toks = true ->
  (rnn_inputs <- embedding_lookup (embedding self) (row toks) ;;
   input_tokens <- time_major rnn_inputs 3 ;;
   Some input_tokens) =
  Some (mkTensor [length toks; 1; rnn_size self]
          (flat_map (fun i => chunk (rnn_size self) (Z.to_nat i) (data (embedding self))) toks)).
Proof.
  intros Hok Hv. pose proof Hok as [Hs Hw]. unfold embedding_lookup. rewrite Hs.
  cbn [row data shape]. rewrite Hv. cbn [bind app]. rewrite numel_1.
  match goal with |- bind (time_major ?t 3) _ = _ =>
    change 3 with (rank t);
    rewrite (time_major_batch1 t (length toks) [rnn_size self] eq_refl) end.
  - reflexivity.
  - unfold wf_tensor. cbn [shape data]. rewrite numel_1_2.
    apply length_flat_map_const. intros i Hi. apply embedding_row_length; [exact Hok|].
    apply valid_index_lt. exact (proj1 (forallb_forall _ _) Hv i Hi).
Qed.

Lemma unstack_tokens self toks :
  variables_ok self ->
  forallb (valid_index (vocab_size self)) toks = true ->
  unstack (mkTensor [length toks; 1; rnn_size self]
             (flat_map (fun i => chunk (rnn_size self) (Z.to_nat i) (data (embedding self))) toks))
  = Some (map (embed self) toks).
Proof.
  intros Hok Hv. unfold unstack. cbn [shape data]. rewrite numel_1_1. f_equal.
  rewrite <- (map_map (fun i => chunk (rnn_size self) i _) (mkTensor [1; rnn_size self])).
  rewrite (chunks_flat_map
             (fun i => chunk (rnn_size self) (Z.to_nat i) (data (embedding self)))
             (rnn_size self) toks).
  - rewrite map_map. reflexivity.
  - intros i Hi. apply embedding_row_length; [exact Hok|].
    apply valid_index_lt. exact (proj1 (forallb_forall _ _) Hv i Hi).
Qed.

Lemma scan_elems_row self fd toks ents :
  variables_ok self ->
  input_data fd = Some (row toks) ->
  forallb (valid_index (vocab_size self)) toks = true ->
  entities_ok self (length toks) ents -> fed_entities fd ents ->
  (inputs <- _build_rnn_inputs self fd ;; scan_elems inputs) =
  Some (elems_of self toks ents).
Proof.
  intros Hok Hin Hv He Hfed. unfold _build_rnn_inputs, placeholder. rewrite Hin.
  cbn [bind row shape shape_matches batch_size]. rewrite Nat.eqb_refl. cbn [andb bind].
  pose proof (input_tokens_row self toks Hok Hv) as Ht. unfold row in Ht.
  destruct (embedding_lookup _ _) as [e|]; [|discriminate]. cbn [bind] in *.
  destruct (time_major e 3) as [tm|]; [|discriminate]. cbn [bind] in *.
  inversion Ht; subst tm; clear Ht.
  destruct ents as [en|]; cbn [entities_ok fed_entities] in *.
  - destruct He as (Hkg & Hsh & Hwf). rewrite Hkg, Hfed. cbn [bind]. rewrite Hsh.
    unfold batch_size. rewrite !Nat.eqb_refl. cbn [andb bind].
    pose proof (time_major_batch1 en (length toks) [entity_cache_size self] Hsh Hwf) as Etm.
    unfold rank in Etm. rewrite Hsh in Etm. cbn [length] in Etm. rewrite Etm.
    cbn [bind]. unfold scan_elems. cbn [fst snd]. rewrite (unstack_tokens self toks Hok Hv).
    cbn [bind unstack shape data]. rewrite !length_map, length_seq, Nat.eqb_refl.
    unfold elems_of, entity_slices. rewrite Hsh, numel_1_1. reflexivity.
  - rewrite He. unfold scan_elems. cbn [fst snd bind].
    rewrite (unstack_tokens self toks Hok Hv). cbn [bind].
    unfold elems_of. now rewrite map_map.
Qed.

End Elements.

(** ** The scan as a left fold *)

Lemma tf_scan_app {X Acc} (fn : Acc -> X -> Acc) xs : forall ys a,
  tf_scan fn (xs ++ ys) a = tf_scan fn xs a ++ tf_scan fn ys (fold_left fn xs a).
Proof.
  induction xs as [|x xs IH]; intros ys a; [reflexivity|].
  cbn [app tf_scan fold_left]. now rewrite IH.
Qed.

Lemma tf_scan_nth {X Acc} (fn : Acc -> X -> Acc) elems : forall a t x,
  nth_error elems t = Some x ->
  nth_error (tf_scan fn elems a) t = Some (fn (fold_left fn (firstn t elems) a) x).
Proof.
  induction elems as [|y elems IH]; intros a [|t] x H; try discriminate.
  - simpl in *. congruence.
  - simpl in *. now apply IH.
Qed.

Lemma tf_scan_snoc {X Acc} (fn : Acc -> X -> Acc) pre x a :
  tf_scan fn (pre ++ [x]) a = tf_scan fn pre a ++ [fn (fold_left fn pre a) x].
Proof. now rewrite tf_scan_app. Qed.

Lemma same_structure_nest_map {A X} (f : A -> X) (s : nest A) :
  same_structure s (nest_map f s) = true.
Proof.
  induction s as [a|l IH] using nest_Forall_ind; [reflexivity|].
  cbn [nest_map]. rewrite same_structure_Tuple.
  induction IH as [|x xs Hx _ IHxs]; [reflexivity|].
  cbn [map same_structures]. now rewrite Hx, IHxs.
Qed.

Section Scan.
Context {B : Backend} {C : Collaborators}.

Lemma length_elems_of self toks ents :
  entities_ok self (length toks) ents -> length (elems_of self toks ents) = length toks.
Proof.
  destruct ents as [e|]; cbn [entities_ok elems_of]; intros H.
  - destruct H as (_ & Hs & _). unfold entity_slices. rewrite Hs.
    rewrite length_map, length_combine, !length_map, length_seq. lia.
  - now rewrite length_map.
Qed.

Lemma scan_rnn_row self fd toks ents kgi :
  variables_ok self ->
  input_data fd = Some (row toks) ->
  forallb (valid_index (vocab_size self)) toks = true ->
  entities_ok self (length toks) ents -> fed_entities fd ents ->
  kg_value self fd = Some kgi ->
  scan_rnn self fd =
  Some (tf_scan (rnn_step self kgi) (elems_of self toks ents)
          (tf_constant fzero [1; output_size (cell self)], init_state_value self fd)).
Proof.
  intros Hok Hin Hv He Hfed Hkg. unfold scan_rnn.
  pose proof (scan_elems_row self fd toks ents Hok Hin Hv He Hfed) as E.
  destruct (_build_rnn_inputs self fd) as [inputs|]; [|discriminate]. cbn [bind] in *.
  rewrite E, Hkg. reflexivity.
Qed.

Lemma fold_keeps_structure self kgi elems : forall a,
  cell_ok self ->
  same_structure (state_size (cell self)) (snd a) = true ->
  same_structure (state_size (cell self))
    (snd (fold_left (rnn_step self kgi) elems a)) = true.
Proof.
  induction elems as [|x elems IH]; intros a Hc Ha; [exact Ha|].
  cbn [fold_left]. apply IH; [exact Hc|]. apply (proj2 Hc). exact Ha.
Qed.

Lemma scan_keeps_structure self kgi elems : forall a,
  cell_ok self ->
  same_structure (state_size (cell self)) (snd a) = true ->
  Forall (fun s => same_structure (state_size (cell self)) s = true)
    (map snd (tf_scan (rnn_step self kgi) elems a)).
Proof.
  induction elems as [|x elems IH]; intros a Hc Ha; [constructor|].
  cbn [tf_scan map]. constructor.
  - apply (proj2 Hc). exact Ha.
  - apply IH; [exact Hc|]. apply (proj2 Hc). exact Ha.
Qed.

(** The final state of a pass over a non-empty sequence is the state after
    the last step. *)
Lemma final_state_row self fd toks ents kgi :
  variables_ok self -> cell_ok self ->
  input_data fd = Some (row toks) ->
  forallb (valid_index (vocab_size self)) toks = true ->
  toks <> [] ->
  entities_ok self (length toks) ents -> fed_entities fd ents ->
  kg_value self fd = Some kgi ->
  same_structure (state_size (cell self)) (init_state_value self fd) = true ->
  final_state self fd =
  Some (snd (fold_left (rnn_step self kgi) (elems_of self toks ents)
               (tf_constant fzero [1; output_size (cell self)], init_state_value self fd))).
Proof.
  intros Hok Hc Hin Hv Hne He Hfed Hkg Hinit. unfold final_state, states.
  rewrite (scan_rnn_row self fd toks ents kgi Hok Hin Hv He Hfed Hkg). cbn [bind].
  pose proof (length_elems_of self toks ents He) as Hlen.
  destruct (elems_of self toks ents) as [|x0 els] using rev_ind.
  { destruct toks; [congruence | discriminate]. }
  clear IHels. set (a0 := (tf_constant fzero [1; output_size (cell self)],
                           init_state_value self fd)) in *.
  rewrite tf_scan_snoc, map_app, fold_left_app. cbn [map fold_left].
  apply get_final_state_last.
  - intros E. apply (proj1 Hc).
    pose proof (same_structure_length _ _ Hinit) as Hl. rewrite E in Hl.
    destruct (flatten (state_size (cell self))); [reflexivity | discriminate].
  - eapply Forall_impl; [|apply (scan_keeps_structure self kgi els a0 Hc Hinit)].
    intros s Hs. exact (same_structure_trans _ _ _ Hinit Hs).
  - apply (same_structure_trans _ _ _ Hinit). apply (proj2 Hc).
    apply fold_keeps_structure; assumption.
Qed.

End Scan.

Lemma flatten_nest_map {A X} (f : A -> X) (s : nest A) :
  flatten (nest_map f s) = map f (flatten s).
Proof.
  induction s as [a|l IH] using nest_Forall_ind; [reflexivity|].
  cbn [nest_map flatten]. induction IH as [|x xs Hx _ IHxs]; [reflexivity|].
  cbn [map flat_map]. now rewrite Hx, IHxs, map_app.
Qed.

Section ScanClaim.
Context {B : Backend} {C : Collaborators}.

(** C6: over a fed token sequence (no state fed), the scan starts from the
    accumulator (zero output vector, zero-filled initial state), the
    accumulator of step [t] is the cell applied to element [t] and to the
    state carried from the steps before it, left to right, and the final
    state is the state produced by the last step of the sequence. *)
Theorem scan_starts_at_zero_and_carries_state self fd toks ents kgi :
  variables_ok self -> cell_ok self ->
  input_data fd = Some (row toks) -> init_state fd = None ->
  forallb (valid_index (vocab_size self)) toks = true -> toks <> [] ->
  entities_ok self (length toks) ents -> fed_entities fd ents ->
  kg_value self fd = Some kgi ->
  let elems := elems_of self toks ents in
  let a0 := initializer self in
  fst a0 = mkTensor [1; output_size (cell self)] (repeat fzero (output_size (cell self))) /\
  Forall (fun t => exists s, t = mkTensor [1; s] (repeat fzero s)) (flatten (snd a0)) /\
  (exists accs,
     scan_rnn self fd = Some accs /\ length accs = length toks /\
     forall t x, nth_error elems t = Some x ->
       nth_error accs t =
       Some (call (cell self) kgi x (snd (fold_left (rnn_step self kgi) (firstn t elems) a0)))) /\
  (exists pre x,
     elems = pre ++ [x] /\
     final_state self fd =
     Some (snd (call (cell self) kgi x (snd (fold_left (rnn_step self kgi) pre a0))))).
Proof.
  intros Hok Hc Hin Hinit Hv Hne He Hfed Hkg elems a0.
  assert (Ea0 : (tf_constant fzero [1; output_size (cell self)], init_state_value self fd) = a0).
  { unfold init_state_value. rewrite Hinit. reflexivity. }
  assert (Hs0 : same_structure (state_size (cell self)) (init_state_value self fd) = true).
  { unfold init_state_value. rewrite Hinit. apply same_structure_nest_map. }
  pose proof (scan_rnn_row self fd toks ents kgi Hok Hin Hv He Hfed Hkg) as Hscan.
  pose proof (final_state_row self fd toks ents kgi Hok Hc Hin Hv Hne He Hfed Hkg Hs0) as Hfin.
  rewrite Ea0 in Hscan, Hfin. fold elems in Hscan, Hfin.
  split; [apply tf_constant_row|]. split; [|split].
  - subst a0. cbn [initializer snd]. rewrite flatten_nest_map.
    apply Forall_forall. intros t Ht. apply in_map_iff in Ht. destruct Ht as (s & <- & _).
    exists s. apply tf_constant_row.
  - eexists. split; [exact Hscan|]. split.
    + rewrite tf_scan_length. apply length_elems_of, He.
    + intros t x Ht. exact (tf_scan_nth (rnn_step self kgi) elems a0 t x Ht).
  - pose proof (length_elems_of self toks ents He) as Hlen. fold elems in Hlen.
    destruct elems as [|x0 els] using rev_ind.
    { destruct toks; [congruence | discriminate]. }
    exists els, x0. split; [reflexivity|].
    rewrite Hfin, fold_left_app. reflexivity.
Qed.

End ScanClaim.

(** ** The decoding loop: control flow *)

Section Loop.
Context {B : Backend} {C : Collaborators}.

Variables (self : EncoderDecoder) (stop_symbols : list Z) (lexicon : Lexicon)
          (vocab : Vocab) (max_len : option Z) (kg_input : option KGInput).

(** A returned sequence extends the one the loop was entered with; the
    test that ends the loop holds for it and for no shorter extension. *)
Lemma decode_loop_returned fuel : forall input_ entity state preds preds' st,
  decode_loop self stop_symbols lexicon vocab max_len kg_input fuel
    input_ entity state preds = Returned (preds', st) ->
  exists new,
    preds' = preds ++ new /\ new <> [] /\ stops stop_symbols max_len preds' = true /\
    forall k, 0 < k < length new -> stops stop_symbols max_len (preds ++ firstn k new) = false.
Proof.
  induction fuel as [|fuel IH]; intros input_ entity state preds preds' st H; [discriminate|].
  cbn [decode_loop] in H. unfold try in H.
  destruct (final_state _ _) as [state'|]; [|discriminate].
  destruct (outputs _ _) as [output|]; [|discriminate].
  destruct (np_argmax_axis2 _) as [pred_arr|]; [|discriminate].
  destruct (np_int pred_arr) as [pred|]; [|discriminate].
  destruct (py_in pred stop_symbols || len_eq (preds ++ [pred]) max_len) eqn:Estop.
  - inversion H; subst. exists [pred]. repeat split.
    + discriminate.
    + unfold stops. now rewrite last_last.
    + simpl. intros k Hk. lia.
  - destruct (if has_kg self then _ else _) as [entity'|]; [|discriminate].
    apply IH in H. destruct H as (new & -> & Hne & Hstop & Hmin).
    exists (pred :: new). rewrite <- app_assoc in *. repeat split.
    + discriminate.
    + exact Hstop.
    + intros k Hk. destruct k as [|k]; [lia|]. cbn [firstn].
      destruct k as [|k].
      * cbn [firstn]. unfold stops. now rewrite last_last.
      * specialize (Hmin (S k)). cbn [app] in Hmin.
        change (pred :: firstn (S k) new) with ([pred] ++ firstn (S k) new).
        rewrite app_assoc. apply Hmin. simpl in Hk. lia.
Qed.

(** With a positive length cap, the loop ends within as many iterations
    as the cap leaves room for. *)
Lemma decode_loop_terminates fuel : forall input_ entity state preds m,
  max_len = Some m ->
  (Z.of_nat (length preds) < m)%Z ->
  (m - Z.of_nat (length preds) <= Z.of_nat fuel)%Z ->
  decode_loop self stop_symbols lexicon vocab max_len kg_input fuel
    input_ entity state preds <> OutOfFuel.
Proof.
  induction fuel as [|fuel IH]; intros input_ entity state preds m Hm Hlt Hfuel; [simpl in *; lia|].
  cbn [decode_loop]. unfold try.
  destruct (final_state _ _) as [state'|]; [|discriminate].
  destruct (outputs _ _) as [output|]; [|discriminate].
  destruct (np_argmax_axis2 _) as [pred_arr|]; [|discriminate].
  destruct (np_int pred_arr) as [pred|]; [|discriminate].
  destruct (py_in pred stop_symbols || len_eq (preds ++ [pred]) max_len) eqn:Estop;
    [discriminate|].
  destruct (if has_kg self then _ else _) as [entity'|]; [|discriminate].
  apply orb_false_elim in Estop. destruct Estop as [_ Elen].
  unfold len_eq in Elen. rewrite Hm in Elen. apply Z.eqb_neq in Elen.
  rewrite length_app in Elen. cbn [length] in Elen.
  apply (IH _ _ _ _ m Hm); rewrite length_app; cbn [length]; lia.
Qed.

(** More fuel does not change an outcome that was reached. *)
Lemma decode_loop_more_fuel fuel : forall input_ entity state preds k,
  decode_loop self stop_symbols lexicon vocab max_len kg_input fuel
    input_ entity state preds <> OutOfFuel ->
  decode_loop self stop_symbols lexicon vocab max_len kg_input (fuel + k)
    input_ entity state preds =
  decode_loop self stop_symbols lexicon vocab max_len kg_input fuel
    input_ entity state preds.
Proof.
  induction fuel as [|fuel IH]; intros input_ entity state preds k H; [now elim H|].
  cbn [decode_loop Nat.add] in *. unfold try in *.
  destruct (final_state _ _) as [state'|]; [|reflexivity].
  destruct (outputs _ _) as [output|]; [|reflexivity].
  destruct (np_argmax_axis2 _) as [pred_arr|]; [|reflexivity].
  destruct (np_int pred_arr) as [pred|]; [|reflexivity].
  destruct (py_in pred stop_symbols || len_eq (preds ++ [pred]) max_len); [reflexivity|].
  destruct (if has_kg self then _ else _) as [entity'|]; [|reflexivity].
  now apply IH.
Qed.

End Loop.

Lemma last_firstn {A} (l : list A) : forall i p d,
  nth_error l i = Some p -> last (firstn (S i) l) d = p.
Proof.
  induction l as [|a l IH]; intros [|i] p d H; try discriminate.
  - simpl in H. inversion H. destruct l; reflexivity.
  - simpl in H. specialize (IH i p d H).
    change (firstn (S (S i)) (a :: l)) with (a :: firstn (S i) l).
    destruct l as [|b l]; [destruct i; discriminate|]. exact IH.
Qed.

Section GenerateControl.
Context {B : Backend} {C : Collaborators}.

Lemma generate_returned self kb inputs entities stop_symbols lexicon vocab max_len
    init_state fuel preds st :
  generate self kb inputs entities stop_symbols lexicon vocab max_len init_state fuel
    = Returned (preds, st) ->
  preds <> [] /\ stops stop_symbols max_len preds = true /\
  forall k, 0 < k < length preds -> stops stop_symbols max_len (firstn k preds) = false.
Proof.
  unfold generate, try. intros H.
  destruct (encode _ _ _ _ _) as [state|]; [|discriminate].
  destruct (bind (np_last 2 inputs) _) as [input_|]; [|discriminate].
  destruct (bind (np_last 3 entities) _) as [entity|]; [|discriminate].
  apply decode_loop_returned in H. destruct H as (new & -> & Hne & Hs & Hmin).
  cbn [app] in *. auto.
Qed.

(** C9: the sequence [generate] returns is never empty, a stop symbol can
    only be its last element, and the loop ended on a stop symbol or on
    the length cap. *)
Theorem generate_nonempty_and_stop_symbol_last self kb inputs entities stop_symbols
    lexicon vocab max_len init_state fuel preds st :
  generate self kb inputs entities stop_symbols lexicon vocab max_len init_state fuel
    = Returned (preds, st) ->
  preds <> [] /\
  (forall i p, nth_error preds i = Some p -> py_in p stop_symbols = true ->
               S i = length preds) /\
  (py_in (last preds 0%Z) stop_symbols = true \/ len_eq preds max_len = true).
Proof.
  intros H. apply generate_returned in H. destruct H as (Hne & Hs & Hmin).
  split; [exact Hne|]. split.
  - intros i p Hi Hp.
    assert (Hlt : i < length preds) by (apply nth_error_Some; congruence).
    destruct (Nat.eq_dec (S i) (length preds)) as [E|E]; [exact E|].
    specialize (Hmin (S i)). unfold stops in Hmin.
    rewrite (last_firstn preds i p 0%Z Hi), Hp in Hmin. cbn [orb] in Hmin.
    assert (true = false) by (apply Hmin; lia). discriminate.
  - unfold stops in Hs. apply orb_prop in Hs. exact Hs.
Qed.

(** Without a length cap, or with one below 1, only a stop symbol ends
    the loop. *)
Lemma generate_without_cap_ends_on_stop self kb inputs entities stop_symbols
    lexicon vocab max_len init_state fuel preds st :
  max_len = None \/ (exists m, max_len = Some m /\ (m <= 0)%Z) ->
  generate self kb inputs entities stop_symbols lexicon vocab max_len init_state fuel
    = Returned (preds, st) ->
  py_in (last preds 0%Z) stop_symbols = true.
Proof.
  intros Hcap H. apply generate_returned in H. destruct H as (Hne & Hs & _).
  unfold stops in Hs. apply orb_prop in Hs. destruct Hs as [Hs|Hs]; [exact Hs|].
  exfalso. destruct Hcap as [->|(m & -> & Hm)]; cbn [len_eq] in Hs; [discriminate|].
  apply Z.eqb_eq in Hs. destruct preds; [congruence | simpl in Hs; lia].
Qed.

End GenerateControl.

(** ** One step of the graph, as [generate] runs it *)

Lemma shape_matches_2 b sh :
  shape_matches [Some b; None] sh = true -> exists n, sh = [b; n].
Proof.
  destruct sh as [|b' [|n [|? ?]]]; cbn [shape_matches]; rewrite ?andb_false_r;
    try discriminate.
  intros H. apply andb_prop in H. destruct H as [H _]. apply Nat.eqb_eq in H. subst.
  now exists n.
Qed.

Lemma shape_matches_3 b c sh :
  shape_matches [Some b; None; Some c] sh = true -> exists n, sh = [b; n; c].
Proof.
  destruct sh as [|b' [|n [|c' [|? ?]]]]; cbn [shape_matches]; rewrite ?andb_false_r;
    try discriminate.
  intros H. apply andb_prop in H. destruct H as [H1 H2].
  apply andb_prop in H2. destruct H2 as [H2 _].
  apply Nat.eqb_eq in H1. apply Nat.eqb_eq in H2. subst. now exists n.
Qed.

Lemma placeholder_row {A} (l : list A) :
  placeholder [Some 1; None] (Some (row l)) = Some (row l).
Proof. reflexivity. Qed.

Section Step.
Context {B : Backend} {C : Collaborators}.

(** What a successful scan tells about the fed values. *)
Lemma scan_rnn_inv self fd toks accs :
  variables_ok self ->
  input_data fd = Some (row toks) ->
  scan_rnn self fd = Some accs ->
  forallb (valid_index (vocab_size self)) toks = true /\
  (exists kgi, kg_value self fd = Some kgi) /\
  (has_kg self = true ->
   exists e, input_entities fd = Some e /\
             shape e = [1; length toks; entity_cache_size self]).
Proof.
  intros Hok Hin H. pose proof Hok as [Hs Hw].
  unfold scan_rnn in H. bind_inv H as Ei. bind_inv H as Ee. bind_inv H as Ek.
  assert (Hv : forallb (valid_index (vocab_size self)) toks = true).
  { unfold _build_rnn_inputs, placeholder in Ei. rewrite Hin in Ei. cbn [bind] in Ei.
    bind_inv Ei as E1. bind_inv Ei as E2. inversion E1; subst t; clear E1.
    unfold embedding_lookup in E2. rewrite Hs in E2. cbn [row data] in E2.
    destruct (forallb _ toks); [reflexivity | discriminate]. }
  split; [exact Hv|]. split; [eauto|].
  intros Hkg. unfold _build_rnn_inputs in Ei. rewrite Hin, Hkg in Ei.
  unfold batch_size in Ei. rewrite placeholder_row in Ei. cbn [bind] in Ei.
  pose proof (input_tokens_row self toks Hok Hv) as Ht.
  destruct (embedding_lookup _ _) as [em|]; [|discriminate]. cbn [bind] in *.
  destruct (time_major em 3) as [tm|]; [|discriminate]. cbn [bind] in *.
  inversion Ht; subst tm; clear Ht.
  destruct (placeholder _ (input_entities fd)) as [e'|] eqn:Ep; [|discriminate].
  cbn [bind] in Ei. unfold placeholder in Ep.
  destruct (input_entities fd) as [e|]; [|discriminate]. cbn [bind] in Ep.
  destruct (shape_matches _ (shape e)) eqn:Em; [|discriminate].
  inversion Ep; subst e'; clear Ep.
  apply shape_matches_3 in Em. destruct Em as (m & Em).
  exists e. split; [reflexivity|].
  pose proof (time_major_unfold e 1 m [entity_cache_size self] Em) as Etm.
  unfold rank in Etm. rewrite Em in Etm. cbn [length] in Etm. rewrite Etm in Ei.
  cbn [bind] in Ei. inversion Ei; subst p; clear Ei.
  unfold scan_elems in Ee. cbn [fst snd] in Ee.
  rewrite (unstack_tokens self toks Hok Hv) in Ee.
  cbn [bind unstack shape data] in Ee. rewrite !length_map, length_seq in Ee.
  destruct (length toks =? m) eqn:En; [|discriminate]. apply Nat.eqb_eq in En.
  now subst m.
Qed.

(** After a single step the extracted final state is the state of that step. *)
Lemma get_final_state_single (init s st' : rnn_state) :
  (sts <- stack_states init [s] ;; _get_final_state sts) = Some st' -> st' = s.
Proof.
  intros H.
  assert (Hs : same_structure init s = true).
  { unfold stack_states in H. cbn [forallb] in H.
    destruct (same_structure init s); [reflexivity | discriminate]. }
  destruct (flatten init) as [|t0 ts] eqn:Ef.
  - exfalso. unfold stack_states in H. cbn [forallb] in H. rewrite Hs, Ef in H.
    cbn [andb length seq map] in H.
    destruct (pack_sequence_as_exact init (@nil (list (tensor F)))) as (sts & Ep & Efl & _).
    { now rewrite Ef. }
    rewrite Ep in H. cbn [bind] in H. unfold _get_final_state in H. rewrite Efl in H.
    discriminate.
  - pose proof (get_final_state_last init [] s) as E. cbn [app] in E.
    rewrite E in H; [congruence | rewrite Ef; discriminate | constructor | exact Hs].
Qed.

Lemma elems_of_single self tok ents :
  entities_ok self 1 ents -> exists x, elems_of self [tok] ents = [x].
Proof.
  intros He. pose proof (length_elems_of self [tok] ents He) as Hl.
  destruct (elems_of self [tok] ents) as [|x [|? ?]]; try discriminate. now exists x.
Qed.

(** One decoding step: the state after it and its logits are those of the
    cell applied to the fed token, and the logits are the projection of
    the cell's output, the write flag being true. *)
Lemma decode_iteration self kg_input tok entity state st' output :
  variables_ok self ->
  (has_kg self = true -> wf_tensor entity) ->
  let fd := decode_feed self kg_input (row [tok]) entity state in
  let kgi := if has_kg self then kg_input else None in
  let ents := if has_kg self then Some entity else None in
  let init := match state with Some s => s | None => zero_state (cell self) 1 end in
  final_state self fd = Some st' ->
  outputs self fd = Some output ->
  valid_index (vocab_size self) tok = true /\
  entities_ok self 1 ents /\
  exists x, elems_of self [tok] ents = [x] /\
            st' = snd (call (cell self) kgi x init) /\
            output = [linear self (fst (call (cell self) kgi x init))].
Proof.
  intros Hok Hwf fd kgi ents init Hf Ho.
  assert (Hin : input_data fd = Some (row [tok])) by reflexivity.
  unfold final_state, states in Hf. bind_inv Hf as Est. bind_inv Est as Es.
  destruct (scan_rnn_inv self fd [tok] l Hok Hin Es) as (Hv & (kgi' & Hkg) & Hent).
  assert (Ekgi : kgi' = kgi).
  { unfold kg_value, fd, decode_feed in Hkg. cbn [kg_input_data] in Hkg. subst kgi.
    destruct (has_kg self); congruence. }
  subst kgi'.
  assert (He : entities_ok self 1 ents /\ fed_entities fd ents).
  { subst ents. unfold fd, decode_feed.
    destruct (has_kg self) eqn:Ekg; cbn [entities_ok fed_entities input_entities].
    - destruct (Hent eq_refl) as (e & Ee & Esh). unfold fd, decode_feed in Ee.
      cbn [input_entities] in Ee. rewrite Ekg in Ee. inversion Ee; subst e.
      cbn [length] in Esh. auto.
    - auto. }
  destruct He as [He Hfed].
  cbn [forallb] in Hv. rewrite andb_true_r in Hv. split; [exact Hv|]. split; [exact He|].
  assert (Hv' : forallb (valid_index (vocab_size self)) [tok] = true)
    by (cbn [forallb]; now rewrite Hv).
  pose proof (scan_rnn_row self fd [tok] ents kgi Hok Hin Hv' He Hfed Hkg) as Escan.
  destruct (elems_of_single self tok ents He) as (x & Ex). rewrite Ex in Escan.
  cbn [tf_scan] in Escan. unfold rnn_step in Escan. cbn [snd] in Escan.
  change (init_state_value self fd) with init in *.
  rewrite Es in Escan. inversion Escan; subst l; clear Escan.
  exists x. split; [exact Ex|]. split.
  - cbn [map] in Est. apply (get_final_state_single init). rewrite Est. exact Hf.
  - assert (Hr : rnn_outputs self fd = Some [fst (call (cell self) kgi x init)]).
    { unfold rnn_outputs. rewrite Es. reflexivity. }
    assert (Hw : input_iswrite fd = Some (row [true])) by reflexivity.
    rewrite (outputs_row self fd [true] _ Hw Hr eq_refl) in Ho.
    cbn [map combine hd data snd fst] in Ho. congruence.
Qed.

Lemma argmax_pack_inv (lg : tensor F) pred_arr pred :
  np_argmax_axis2 (pack [lg]) = Some pred_arr ->
  np_int pred_arr = Some pred ->
  exists c i, shape lg = [1; c] /\ argmax (firstn c (data lg)) = Some i /\
              pred = Z.of_nat i /\ pred_arr = row [pred].
Proof.
  unfold np_argmax_axis2, pack. cbn [shape data length flat_map]. rewrite app_nil_r.
  intros H Hi. destruct (shape lg) as [|b [|c [|? ?]]]; try discriminate.
  bind_inv H as Em. inversion H; subst pred_arr; clear H.
  unfold np_int in Hi. cbn [data] in Hi.
  pose proof (mapM_length _ _ _ Em) as Hl. rewrite length_seq in Hl.
  destruct l as [|i [|? ?]]; try discriminate. cbn [map] in Hi. inversion Hi; subst pred.
  cbn [length] in Hl. assert (b = 1) by lia. subst b.
  cbn [Nat.mul Nat.add seq mapM] in Em. bind_inv Em as Ea. inversion Em; subst; clear Em.
  exists c, i. unfold chunk in Ea. cbn [Nat.mul skipn] in Ea. auto.
Qed.

End Step.

(** ** [np.argmax] picks a highest score *)

Section Argmax.
Context {B : Backend}.

Lemma argmax_from_bounds l : forall i best_i best,
  best_i < i -> argmax_from l i best_i best < i + length l.
Proof.
  induction l as [|x l IH]; intros i best_i best H; cbn [argmax_from length]; [lia|].
  destruct (fgt x best).
  - specialize (IH (S i) i x). lia.
  - specialize (IH (S i) best_i best). lia.
Qed.

(** Scanning [l], whose first entry has position [i], with the best score
    so far [best] found at [best_i]: the result holds a score that none of
    [seen ++ l] exceeds. *)
Lemma argmax_from_highest (d : F) l : forall seen best_i best,
  scores_ordered ->
  nth_error seen best_i = Some best ->
  (forall z, In z seen -> fgt z best = false) ->
  forall j, j < length (seen ++ l) ->
    fgt (nth j (seen ++ l) d)
        (nth (argmax_from l (length seen) best_i best) (seen ++ l) d) = false.
Proof.
  induction l as [|x l IH]; intros seen best_i best Hord Hb Hseen j Hj.
  - cbn [argmax_from]. rewrite app_nil_r in *.
    rewrite (nth_error_nth _ _ d Hb). apply Hseen. now apply nth_In.
  - cbn [argmax_from]. replace (seen ++ x :: l) with ((seen ++ [x]) ++ l) in *
      by (now rewrite <- app_assoc).
    replace (S (length seen)) with (length (seen ++ [x]))
      by (rewrite length_app; simpl; lia).
    destruct (fgt x best) eqn:Ex.
    + apply IH; [exact Hord | | | exact Hj].
      * rewrite nth_error_app2, Nat.sub_diag by lia. reflexivity.
      * intros z Hz. apply in_app_or in Hz. destruct Hz as [Hz|[<-|[]]].
        -- apply (proj2 Hord x best z Ex). now apply Hseen.
        -- apply (proj1 Hord).
    + apply IH; [exact Hord | | | exact Hj].
      * rewrite nth_error_app1; [exact Hb | apply nth_error_Some; congruence].
      * intros z Hz. apply in_app_or in Hz. destruct Hz as [Hz|[<-|[]]].
        -- now apply Hseen.
        -- exact Ex.
Qed.

Lemma argmax_highest (d : F) l i :
  argmax l = Some i ->
  i < length l /\
  (scores_ordered -> forall j, j < length l -> fgt (nth j l d) (nth i l d) = false).
Proof.
  destruct l as [|x l]; [discriminate|]. cbn [argmax]. intros H. inversion H; subst i.
  split.
  - pose proof (argmax_from_bounds l 1 0 x). cbn [length]. lia.
  - intros Hord j Hj.
    apply (argmax_from_highest d l [x] 0 x Hord eq_refl); [|exact Hj].
    intros z [<-|[]]. apply (proj1 Hord).
Qed.

End Argmax.

(** ** NumPy slices of a batch of one sequence *)

Lemma np_drop_last_row {A} (toks : list A) :
  np_drop_last 2 (row toks) = Some (row (removelast toks)).
Proof.
  unfold np_drop_last, row, rank. cbn [shape data length Nat.leb numel fold_right seq flat_map].
  unfold chunk. cbn [Nat.mul skipn]. rewrite !Nat.mul_1_r, app_nil_r, firstn_all.
  rewrite removelast_firstn_len. rewrite length_firstn.
  replace (Init.Nat.min (Nat.pred (length toks)) (length toks)) with (length toks - 1) by lia.
  replace (Nat.pred (length toks)) with (length toks - 1) by lia. reflexivity.
Qed.

Lemma skipn_last {A} (l : list A) d : l <> [] -> skipn (length l - 1) l = [last l d].
Proof.
  intros H. rewrite (app_removelast_last d H) at 2.
  rewrite skipn_app.
  assert (E : length (removelast l) = length l - 1).
  { rewrite removelast_firstn_len, length_firstn. lia. }
  rewrite <- E, skipn_all, Nat.sub_diag. reflexivity.
Qed.

Lemma np_last_row (toks : list Z) :
  toks <> [] ->
  (a <- np_last 2 (row toks) ;; np_expand_dims1 a) = Some (row [last toks 0%Z]).
Proof.
  intros H. unfold np_last, row, rank. cbn [shape data length Nat.leb andb].
  destruct toks as [|t0 ts] eqn:E; [congruence|]. rewrite <- E in *.
  replace (length toks =? 0) with false
    by (symmetry; apply Nat.eqb_neq; subst; simpl; lia).
  cbn [negb bind np_expand_dims1 shape data numel fold_right seq flat_map].
  unfold chunk. cbn [Nat.mul skipn]. rewrite !Nat.mul_1_r, app_nil_r, firstn_all.
  rewrite (skipn_last toks 0%Z) by (subst; discriminate). reflexivity.
Qed.

Lemma np_reshape_wf c a e : np_reshape_1_any c a = Some e -> wf_tensor e.
Proof.
  unfold np_reshape_1_any. destruct (c =? 0) eqn:Ec; [discriminate|].
  destruct (length (data a) mod c =? 0) eqn:Em; [|discriminate].
  cbn [orb negb]. intros H. inversion H; subst e; clear H.
  apply Nat.eqb_neq in Ec. apply Nat.eqb_eq in Em.
  unfold wf_tensor. cbn [shape data]. rewrite numel_1_2.
  rewrite (Nat.div_mod_eq (length (data a)) c) at 1. lia.
Qed.

Lemma np_last_wf {A} nidx (a e : tensor A) :
  wf_tensor a -> np_last nidx a = Some e -> wf_tensor e.
Proof.
  unfold np_last, wf_tensor. intros Hw H.
  destruct (shape a) as [|b [|n rest]]; try discriminate.
  destruct (nidx <=? rank a); [|discriminate].
  destruct (n =? 0) eqn:En; [discriminate|]. apply Nat.eqb_neq in En.
  cbn [andb negb] in H. inversion H; subst e; clear H. cbn [shape data].
  cbn [numel fold_right] in *. change (fold_right Nat.mul 1 rest) with (numel rest) in *.
  rewrite (length_flat_map_const _ (numel rest)), length_seq; [reflexivity|].
  intros i Hi. apply in_seq in Hi. rewrite length_skipn, length_chunk; nia.
Qed.

Lemma np_expand_dims1_wf {A} (a e : tensor A) :
  wf_tensor a -> np_expand_dims1 a = Some e -> wf_tensor e.
Proof.
  unfold np_expand_dims1, wf_tensor. intros Hw H.
  destruct (shape a) as [|b rest]; [discriminate|]. inversion H; subst e; clear H.
  cbn [shape data numel fold_right] in *. lia.
Qed.

(** ** The decoding loop decodes greedily *)

Section Greedy.
Context {B : Backend} {C : Collaborators}.

Lemma elems_of_single_input self tok ents x :
  entities_ok self 1 ents -> elems_of self [tok] ents = [x] -> is_input self tok x.
Proof.
  intros He Hx. destruct ents as [e|]; cbn [entities_ok elems_of] in *.
  - destruct He as (Hkg & Hs & _). unfold entity_slices in Hx. rewrite Hs in Hx.
    cbn [seq map combine] in Hx. inversion Hx; subst x. split; [reflexivity|].
    intros H. congruence.
  - cbn [map] in Hx. inversion Hx; subst x. split; reflexivity.
Qed.

Lemma update_entity_wf self lexicon vocab preds e :
  update_entity self lexicon vocab preds = Some e -> wf_tensor e.
Proof.
  unfold update_entity. intros H. bind_inv H as E1. bind_inv H as E2.
  exact (np_reshape_wf _ _ _ H).
Qed.

Lemma greedy_step_intro self kgi x st (lg : tensor F) pred_arr pred :
  lg = linear self (fst (call (cell self) kgi x st)) ->
  np_argmax_axis2 (pack [lg]) = Some pred_arr ->
  np_int pred_arr = Some pred ->
  greedy_step self kgi x st pred (snd (call (cell self) kgi x st)) /\ pred_arr = row [pred].
Proof.
  intros Hlg Ha Hi. destruct (argmax_pack_inv lg pred_arr pred Ha Hi) as (c & i & Hs & Hm & Hp & Hr).
  split; [|exact Hr]. unfold greedy_step. cbn zeta. rewrite <- Hlg.
  split; [reflexivity|]. exists c, i.
  destruct (argmax_highest fzero _ _ Hm) as [Hlt Hmax].
  repeat split; auto.
  - rewrite length_firstn in Hlt. lia.
  - intros Hord j Hj. specialize (Hmax Hord j Hj).
    rewrite length_firstn in Hlt, Hj. rewrite !nth_firstn in Hmax.
    replace (j <? c) with true in Hmax by (symmetry; apply Nat.ltb_lt; lia).
    replace (i <? c) with true in Hmax by (symmetry; apply Nat.ltb_lt; lia).
    exact Hmax.
Qed.

Lemma decode_loop_greedy self stop_symbols lexicon vocab max_len kg_input fuel :
  variables_ok self ->
  forall tok entity state preds preds' st_final,
  (has_kg self = true -> wf_tensor entity) ->
  decode_loop self stop_symbols lexicon vocab max_len kg_input fuel
    (row [tok]) entity state preds = Returned (preds', st_final) ->
  exists new,
    preds' = preds ++ new /\
    greedy_decoding self (if has_kg self then kg_input else None) tok
      (match state with Some s => s | None => zero_state (cell self) 1 end)
      new st_final.
Proof.
  intros Hok. induction fuel as [|fuel IH];
    intros tok entity state preds preds' st_final Hwf H; [discriminate|].
  cbn [decode_loop] in H. unfold try in H.
  destruct (final_state _ _) as [state'|] eqn:Ef; [|discriminate].
  destruct (outputs _ _) as [output|] eqn:Eo; [|discriminate].
  destruct (decode_iteration self kg_input tok entity state state' output Hok Hwf Ef Eo)
    as (Hv & He & x & Ex & Est & Eout).
  subst output.
  destruct (np_argmax_axis2 _) as [pred_arr|] eqn:Ea; [|discriminate].
  destruct (np_int pred_arr) as [pred|] eqn:Ei; [|discriminate].
  destruct (greedy_step_intro self _ x _ _ pred_arr pred eq_refl Ea Ei) as [Hstep Hr].
  rewrite <- Est in Hstep.
  pose proof (elems_of_single_input self tok _ x He Ex) as Hx.
  destruct (py_in pred stop_symbols || len_eq (preds ++ [pred]) max_len).
  - inversion H; subst. exists [pred]. split; [reflexivity|].
    eapply greedy_last; eassumption.
  - destruct (if has_kg self then _ else _) as [entity'|] eqn:Eu in H; [|discriminate].
    subst pred_arr. apply IH in H.
    + destruct H as (new & -> & Hg). exists (pred :: new).
      rewrite <- app_assoc. split; [reflexivity|].
      eapply greedy_more; eassumption.
    + intros Hkg. rewrite Hkg in Eu. exact (update_entity_wf _ _ _ _ _ Eu).
Qed.

(** C7: while decoding, every step is run with the write flag true (its
    logits are the projection of the cell's output), the token it emits is
    the argmax of its logits, which no other token outscores, and that
    token is the input of the next step. *)
Theorem generate_decodes_greedily self kb toks entities stop_symbols lexicon vocab
    max_len init_state fuel preds st_final :
  variables_ok self ->
  (has_kg self = true -> wf_tensor entities) ->
  generate self kb (row toks) entities stop_symbols lexicon vocab max_len init_state fuel
    = Returned (preds, st_final) ->
  (forall kg_input input_ entity state,
     input_iswrite (decode_feed self kg_input input_ entity state) = Some (row [true])) /\
  exists st0,
    greedy_decoding self (if has_kg self then Some (kg_load kb) else None)
      (last toks 0%Z) st0 preds st_final.
Proof.
  intros Hok Hwf H. split; [reflexivity|].
  unfold generate, try in H.
  destruct (encode _ _ _ _ _) as [state|]; [|discriminate].
  destruct (bind (np_last 2 (row toks)) _) as [input_|] eqn:Ein; [|discriminate].
  destruct (bind (np_last 3 entities) _) as [entity|] eqn:Een; [|discriminate].
  assert (Hne : toks <> []).
  { intros ->. discriminate. }
  rewrite (np_last_row toks Hne) in Ein. inversion Ein; subst input_; clear Ein.
  apply decode_loop_greedy in H; [|exact Hok|].
  - destruct H as (new & -> & Hg). cbn [app].
    destruct (has_kg self); eexists; exact Hg.
  - intros Hkg. bind_inv Een as E1.
    exact (np_expand_dims1_wf _ _ (np_last_wf _ _ _ (Hwf Hkg) E1) Een).
Qed.

End Greedy.

(** ** Entity arrays *)

Lemma concat_flat_map {A} (l : list (list A)) : concat l = flat_map (fun x => x) l.
Proof. induction l; simpl; congruence. Qed.

Lemma length_concat_const {A} c (l : list (list A)) :
  Forall (fun x => length x = c) l -> length (concat l) = length l * c.
Proof.
  intros H. rewrite concat_flat_map. apply length_flat_map_const.
  exact (proj1 (Forall_forall _ _) H).
Qed.

Lemma entity_array_wf c caches :
  Forall (fun x => length x = c) caches -> wf_tensor (entity_array c caches).
Proof.
  intros H. unfold wf_tensor, entity_array. cbn [shape data].
  rewrite numel_1_2. now apply length_concat_const.
Qed.

Lemma entity_slices_array c caches :
  Forall (fun x => length x = c) caches ->
  entity_slices (entity_array c caches) = map (mkTensor [1; c]) caches.
Proof.
  intros H. unfold entity_slices, entity_array. cbn [shape data].
  rewrite <- (map_map (fun i => chunk c i (concat caches)) (mkTensor [1; c])).
  f_equal. rewrite concat_flat_map. rewrite (chunks_flat_map (fun x => x) c caches).
  - apply map_id.
  - exact (proj1 (Forall_forall _ _) H).
Qed.

Lemma Forall_removelast {A} (P : A -> Prop) l : Forall P l -> Forall P (removelast l).
Proof.
  intros H. apply Forall_forall. intros x Hx.
  apply (proj1 (Forall_forall _ _) H). destruct l as [|a l]; [contradiction|].
  rewrite (app_removelast_last a (l := a :: l)) by discriminate.
  apply in_or_app. now left.
Qed.

Lemma length_removelast {A} (l : list A) : length (removelast l) = length l - 1.
Proof. rewrite removelast_firstn_len, length_firstn. lia. Qed.

Lemma np_drop_last_array c caches :
  Forall (fun x => length x = c) caches ->
  np_drop_last 3 (entity_array c caches) = Some (entity_array c (removelast caches)).
Proof.
  intros H. unfold np_drop_last, entity_array, rank.
  cbn [shape data length Nat.leb seq flat_map]. rewrite numel_1, app_nil_r.
  rewrite length_removelast. do 2 f_equal.
  unfold chunk. cbn [Nat.mul skipn].
  rewrite <- (length_concat_const c caches H), firstn_all.
  destruct caches as [|x0 xs] eqn:E; [reflexivity|]. rewrite <- E in *.
  assert (Hne : caches <> []) by (subst; discriminate).
  rewrite (app_removelast_last [] Hne) at 2. rewrite concat_app.
  rewrite <- (length_removelast caches),
    <- (length_concat_const c (removelast caches) (Forall_removelast _ _ H)).
  rewrite firstn_app, Nat.sub_diag, firstn_all. cbn [firstn]. apply app_nil_r.
Qed.

Lemma np_last_array c caches :
  Forall (fun x => length x = c) caches -> caches <> [] ->
  (e <- np_last 3 (entity_array c caches) ;; np_expand_dims1 e) =
  Some (mkTensor [1; 1; c] (last caches [])).
Proof.
  intros H Hne. unfold np_last, entity_array, rank.
  cbn [shape data length Nat.leb andb seq flat_map].
  replace (length caches =? 0) with false
    by (symmetry; apply Nat.eqb_neq; destruct caches; [congruence | simpl; lia]).
  cbn [negb bind np_expand_dims1 shape data]. rewrite numel_1, app_nil_r. do 2 f_equal.
  unfold chunk. cbn [Nat.mul skipn].
  rewrite <- (length_concat_const c caches H), firstn_all.
  rewrite (app_removelast_last [] Hne) at 2. rewrite concat_app.
  rewrite <- (length_removelast caches),
    <- (length_concat_const c (removelast caches) (Forall_removelast _ _ H)).
  rewrite skipn_app, Nat.sub_diag, skipn_all. cbn [skipn concat app]. apply app_nil_r.
Qed.

Lemma map_combine_map {A1 A2 X1 X2 Y} (f : A1 -> X1) (g : A2 -> X2) (h : X1 * X2 -> Y) l1 :
  forall l2,
  map h (combine (map f l1) (map g l2)) =
  map (fun p => h (f (fst p), g (snd p))) (combine l1 l2).
Proof.
  induction l1 as [|a l1 IH]; intros [|b l2]; try reflexivity.
  cbn [map combine fst snd]. now rewrite IH.
Qed.

Section Passes.
Context {B : Backend} {C : Collaborators}.

Lemma elems_of_steps self toks caches :
  Forall (fun x => length x = entity_cache_size self) caches ->
  elems_of self toks (fed_caches self caches) = steps self toks caches.
Proof.
  intros H. unfold fed_caches, steps. destruct (has_kg self); cbn [elems_of]; [|reflexivity].
  rewrite (entity_slices_array _ _ H).
  apply (map_combine_map (embed self) (mkTensor [1; entity_cache_size self])
           (fun xe : tensor F * tensor Z => (fst xe, Some (snd xe)))).
Qed.

Lemma entities_ok_fed_caches self (toks : list Z) caches :
  Forall (fun x => length x = entity_cache_size self) caches ->
  length caches = length toks ->
  entities_ok self (length toks) (fed_caches self caches).
Proof.
  intros H Hl. unfold fed_caches. destruct (has_kg self) eqn:E; cbn [entities_ok]; [|exact E].
  split; [exact E|]. split; [|now apply entity_array_wf].
  unfold entity_array. cbn [shape]. now rewrite Hl.
Qed.

Lemma feedable_structure self init :
  feedable self init ->
  same_structure (state_size (cell self)) (start_state self init) = true.
Proof.
  destruct init as [s|]; cbn [feedable start_state].
  - intros [H _]. exact H.
  - intros _. apply same_structure_nest_map.
Qed.

End Passes.

(** ** The priming pass of [generate] *)

Section Priming.
Context {B : Backend} {C : Collaborators}.

Lemma pass_final_state self kb toks caches init :
  variables_ok self -> cell_ok self ->
  Forall (fun x => length x = entity_cache_size self) caches ->
  length caches = length toks ->
  forallb (valid_index (vocab_size self)) toks = true ->
  toks <> [] ->
  same_structure (state_size (cell self)) (start_state self init) = true ->
  final_state self
    (encode_feed self (kg_input_of self kb) (row toks) (fed_caches self caches) init)
  = Some (state_after self (kg_input_of self kb) toks caches init).
Proof.
  intros Hok Hc Hf Hl Hv Hne Hs.
  set (fd := encode_feed self (kg_input_of self kb) (row toks) (fed_caches self caches) init).
  assert (Hkg : kg_value self fd = Some (kg_input_of self kb)).
  { unfold kg_value, fd, encode_feed, kg_input_of. cbn [kg_input_data].
    destruct (has_kg self); reflexivity. }
  assert (Hfed : fed_entities fd (fed_caches self caches)).
  { unfold fed_entities, fd, encode_feed. cbn [input_entities].
    destruct (fed_caches self caches); [reflexivity | exact I]. }
  rewrite (final_state_row self fd toks (fed_caches self caches) (kg_input_of self kb)
             Hok Hc eq_refl Hv Hne (entities_ok_fed_caches self toks caches Hf Hl) Hfed Hkg Hs).
  rewrite (elems_of_steps self toks caches Hf). reflexivity.
Qed.

Lemma encode_one_token self kgi (toks : list Z) entities init truthy :
  length toks = 1 -> truth_value init = Some truthy ->
  encode self kgi (row toks) entities init = Some init.
Proof.
  intros Hl Ht. unfold encode. rewrite Ht. cbn [bind row shape nth_error]. rewrite Hl.
  reflexivity.
Qed.

Lemma encode_many_tokens self kb toks caches init truthy :
  variables_ok self -> cell_ok self ->
  Forall (fun x => length x = entity_cache_size self) caches ->
  length caches = length toks ->
  forallb (valid_index (vocab_size self)) (removelast toks) = true ->
  1 < length toks ->
  truth_value init = Some truthy ->
  same_structure (state_size (cell self))
    (start_state self (if truthy then init else None)) = true ->
  encode self (kg_input_of self kb) (row toks)
    (entity_array (entity_cache_size self) caches) init
  = Some (Some (state_after self (kg_input_of self kb) (removelast toks) (removelast caches)
                  (if truthy then init else None))).
Proof.
  intros Hok Hc Hf Hl Hv Hn Ht Hs. unfold encode. rewrite Ht.
  cbn [bind row shape nth_error].
  replace (1 <? length toks) with true by (symmetry; apply Nat.ltb_lt; exact Hn).
  change (mkTensor [1; length toks] toks) with (row toks).
  rewrite np_drop_last_row. cbn [bind].
  assert (Ee : (if has_kg self
                then e <- np_drop_last 3 (entity_array (entity_cache_size self) caches) ;;
                     Some (Some e)
                else Some None) = Some (fed_caches self (removelast caches))).
  { unfold fed_caches. destruct (has_kg self); [|reflexivity].
    now rewrite (np_drop_last_array _ _ Hf). }
  rewrite Ee. cbn [bind].
  rewrite (pass_final_state self kb (removelast toks) (removelast caches)); auto.
  - now apply Forall_removelast.
  - rewrite !length_removelast. lia.
  - intros E. apply (f_equal (@length Z)) in E. rewrite length_removelast in E.
    simpl in E. lia.
Qed.

Lemma generate_unfold self kb toks caches stop_symbols lexicon vocab max_len init fuel :
  Forall (fun x => length x = entity_cache_size self) caches ->
  length caches = length toks -> toks <> [] ->
  generate self kb (row toks) (entity_array (entity_cache_size self) caches)
    stop_symbols lexicon vocab max_len init fuel =
  (state <-! encode self (kg_input_of self kb) (row toks)
               (entity_array (entity_cache_size self) caches) init ;;
   decode_loop self stop_symbols lexicon vocab max_len (kg_input_of self kb) fuel
     (row [last toks 0%Z]) (mkTensor [1; 1; entity_cache_size self] (last caches []))
     state []).
Proof.
  intros Hf Hl Hne. unfold generate. fold (kg_input_of self kb).
  rewrite (np_last_row toks Hne), (np_last_array _ caches Hf).
  - reflexivity.
  - intros ->. destruct toks; [congruence | discriminate].
Qed.

(** C8: with a prefix of more than one token, [generate] runs the scanner
    over all tokens but the last and decodes from the state that pass ends
    in, with the last token as the first input; with a one-token prefix
    nothing is run before decoding, which starts from [init_state] as given
    and from that token. An [init_state] that is fed to that pass is one
    the graph accepts ([feedable]). *)
Theorem generate_primes_on_all_but_last self kb toks caches stop_symbols lexicon vocab
    max_len init truthy fuel :
  variables_ok self -> cell_ok self ->
  Forall (fun x => length x = entity_cache_size self) caches ->
  length caches = length toks ->
  forallb (valid_index (vocab_size self)) (removelast toks) = true ->
  truth_value init = Some truthy ->
  feedable self (if truthy then init else None) ->
  let entities := entity_array (entity_cache_size self) caches in
  let kgi := kg_input_of self kb in
  let entity := mkTensor [1; 1; entity_cache_size self] (last caches []) in
  (1 < length toks ->
   encode self kgi (row toks) entities init =
     Some (Some (state_after self kgi (removelast toks) (removelast caches)
                   (if truthy then init else None))) /\
   generate self kb (row toks) entities stop_symbols lexicon vocab max_len init fuel =
     decode_loop self stop_symbols lexicon vocab max_len kgi fuel
       (row [last toks 0%Z]) entity
       (Some (state_after self kgi (removelast toks) (removelast caches)
                (if truthy then init else None))) []) /\
  (length toks = 1 ->
   encode self kgi (row toks) entities init = Some init /\
   generate self kb (row toks) entities stop_symbols lexicon vocab max_len init fuel =
     decode_loop self stop_symbols lexicon vocab max_len kgi fuel
       (row [last toks 0%Z]) entity init []).
Proof.
  intros Hok Hc Hf Hl Hv Ht Hs entities kgi entity. subst entities kgi entity.
  apply feedable_structure in Hs.
  split; intros Hn.
  - assert (Hne : toks <> []) by (intros ->; simpl in Hn; lia).
    pose proof (encode_many_tokens self kb toks caches init truthy
                  Hok Hc Hf Hl Hv Hn Ht Hs) as E.
    split; [exact E|].
    rewrite (generate_unfold self kb toks caches _ _ _ _ _ _ Hf Hl Hne), E. reflexivity.
  - assert (Hne : toks <> []) by (intros ->; discriminate).
    pose proof (encode_one_token self (kg_input_of self kb) toks
                  (entity_array (entity_cache_size self) caches) init truthy Hn Ht) as E.
    split; [exact E|].
    rewrite (generate_unfold self kb toks caches _ _ _ _ _ _ Hf Hl Hne), E. reflexivity.
Qed.

End Priming.

(** ** Carrying the state over to a later call *)

Lemma last_app_nonempty {A} (l l' : list A) d : l' <> [] -> last (l ++ l') d = last l' d.
Proof.
  intros H. induction l as [|a l IH]; [reflexivity|].
  cbn [app]. destruct (l ++ l') eqn:E.
  - apply app_eq_nil in E. destruct E; congruence.
  - exact IH.
Qed.

Lemma combine_app_same {A X} (l1 : list A) : forall (c1 : list X) l2 c2,
  length l1 = length c1 ->
  combine (l1 ++ l2) (c1 ++ c2) = combine l1 c1 ++ combine l2 c2.
Proof.
  induction l1 as [|a l1 IH]; intros [|x c1] l2 c2 H; try discriminate; [reflexivity|].
  cbn [app combine]. f_equal. apply IH. simpl in H. lia.
Qed.

Section Continuity.
Context {B : Backend} {C : Collaborators}.

Lemma steps_app self p1 c1 p2 c2 :
  length c1 = length p1 ->
  steps self (p1 ++ p2) (c1 ++ c2) = steps self p1 c1 ++ steps self p2 c2.
Proof.
  intros H. unfold steps. destruct (has_kg self).
  - rewrite combine_app_same by lia. apply map_app.
  - apply map_app.
Qed.

Lemma fold_rnn_step_snd self kgi elems a b :
  snd a = snd b ->
  snd (fold_left (rnn_step self kgi) elems a) = snd (fold_left (rnn_step self kgi) elems b).
Proof.
  intros H. destruct elems as [|x elems]; [exact H|].
  cbn [fold_left]. unfold rnn_step at 2 4. now rewrite H.
Qed.

Lemma state_after_nil self kgi caches init :
  state_after self kgi [] caches init = start_state self init.
Proof. unfold state_after, steps. destruct (has_kg self); reflexivity. Qed.

Lemma state_after_app self kgi p1 c1 p2 c2 :
  length c1 = length p1 ->
  state_after self kgi (p1 ++ p2) (c1 ++ c2) None =
  state_after self kgi p2 c2 (Some (state_after self kgi p1 c1 None)).
Proof.
  intros H. unfold state_after. rewrite (steps_app self p1 c1 p2 c2 H), fold_left_app.
  apply fold_rnn_step_snd. reflexivity.
Qed.

Lemma state_after_structure self kgi toks caches init :
  cell_ok self ->
  same_structure (state_size (cell self)) (start_state self init) = true ->
  same_structure (state_size (cell self)) (state_after self kgi toks caches init) = true.
Proof.
  intros Hc Hs. unfold state_after. now apply fold_keeps_structure.
Qed.

(** Generation on the second part of a split prefix, started from the state
    the first part ends in, is generation on the whole prefix, provided
    Python takes that state for true in [if init_state:]. *)
Lemma generate_continues_from_truthy_state self kb p1 c1 p2 c2
    stop_symbols lexicon vocab max_len fuel :
  variables_ok self -> cell_ok self ->
  Forall (fun x => length x = entity_cache_size self) c1 ->
  Forall (fun x => length x = entity_cache_size self) c2 ->
  length c1 = length p1 -> length c2 = length p2 ->
  forallb (valid_index (vocab_size self)) p1 = true ->
  forallb (valid_index (vocab_size self)) (removelast p2) = true ->
  p1 <> [] -> p2 <> [] ->
  let s1 := state_after self (kg_input_of self kb) p1 c1 None in
  final_state self
    (encode_feed self (kg_input_of self kb) (row p1) (fed_caches self c1) None) = Some s1 /\
  (truth_value (Some s1) = Some true ->
   generate self kb (row p2) (entity_array (entity_cache_size self) c2)
     stop_symbols lexicon vocab max_len (Some s1) fuel =
   generate self kb (row (p1 ++ p2)) (entity_array (entity_cache_size self) (c1 ++ c2))
     stop_symbols lexicon vocab max_len None fuel).
Proof.
  intros Hok Hc Hf1 Hf2 Hl1 Hl2 Hv1 Hv2 Hn1 Hn2 s1.
  assert (Hz : same_structure (state_size (cell self)) (start_state self None) = true)
    by apply same_structure_nest_map.
  assert (Hs1 : same_structure (state_size (cell self)) s1 = true)
    by (apply state_after_structure; assumption).
  split.
  { apply pass_final_state; assumption. }
  intros Ht.
  assert (Hc2 : c2 <> []) by (intros ->; destruct p2; [congruence | discriminate]).
  assert (Hf12 : Forall (fun x => length x = entity_cache_size self) (c1 ++ c2))
    by (apply Forall_app; split; assumption).
  assert (Hl12 : length (c1 ++ c2) = length (p1 ++ p2)) by (rewrite !length_app; lia).
  assert (Hn12 : p1 ++ p2 <> []) by (intros E; apply app_eq_nil in E; destruct E; congruence).
  rewrite (generate_unfold self kb p2 c2 _ _ _ _ _ _ Hf2 Hl2 Hn2).
  rewrite (generate_unfold self kb (p1 ++ p2) (c1 ++ c2) _ _ _ _ _ _ Hf12 Hl12 Hn12).
  rewrite (last_app_nonempty p1 p2 0%Z Hn2), (last_app_nonempty c1 c2 [] Hc2).
  assert (Hlen1 : 0 < length p1) by (destruct p1; [congruence | simpl; lia]).
  assert (Hlen2 : 0 < length p2) by (destruct p2; [congruence | simpl; lia]).
  rewrite (encode_many_tokens self kb (p1 ++ p2) (c1 ++ c2) None false); auto.
  - rewrite (removelast_app p1 Hn2), (removelast_app c1 Hc2).
    rewrite (state_after_app self _ p1 c1 _ _ Hl1). fold s1.
    destruct (Nat.eq_dec (length p2) 1) as [E1|E1].
    + rewrite (encode_one_token self _ p2 _ (Some s1) true E1 Ht).
      destruct p2 as [|t [|? ?]]; try discriminate.
      destruct c2 as [|x [|? ?]]; try discriminate. cbn [removelast].
      rewrite state_after_nil. reflexivity.
    + rewrite (encode_many_tokens self kb p2 c2 (Some s1) true); auto. lia.
  - rewrite (removelast_app p1 Hn2), forallb_app, Hv1, Hv2. reflexivity.
  - rewrite length_app. lia.
Qed.

End Continuity.

(** C5: with a GRU-style state, a single array of more than one entry,
    [generate] given the final state of the first part of a prefix raises
    (Python cannot decide [if init_state:] for such an array), while a
    single pass over the whole prefix returns. *)
Theorem generate_state_continuity_fails_for_array_state :
  let self := Toy.model Toy.gru_like in
  let s1 := Leaf (mkTensor [1; 2] [1; 1]%Z) in
  final_state self (encode_feed self None (row [0; 1]%Z) None None) = Some s1 /\
  generate self tt (row [2]%Z) (Toy.no_entities 1) [5%Z] tt tt (Some 4%Z) (Some s1) 10
    = Raised /\
  generate self tt (row [0; 1; 2]%Z) (Toy.no_entities 3) [5%Z] tt tt (Some 4%Z) None 10
    = Returned ([1; 1; 1; 1]%Z, Leaf (mkTensor [1; 2] [2; 5]%Z)).
Proof. repeat split; vm_compute; reflexivity. Qed.

(** ** The decoding loop returns *)

Section Returns.
Context {B : Backend} {C : Collaborators}.

Lemma decode_iteration_runs self kb tok entity state :
  variables_ok self -> cell_ok self ->
  valid_index (vocab_size self) tok = true ->
  (has_kg self = true ->
   shape entity = [1; 1; entity_cache_size self] /\ wf_tensor entity) ->
  same_structure (state_size (cell self)) (start_state self state) = true ->
  let fd := decode_feed self (kg_input_of self kb) (row [tok]) entity state in
  exists x,
    final_state self fd =
      Some (snd (call (cell self) (kg_input_of self kb) x (start_state self state))) /\
    outputs self fd =
      Some [linear self (fst (call (cell self) (kg_input_of self kb) x (start_state self state)))].
Proof.
  intros Hok Hc Hv Hent Hs fd.
  set (ents := if has_kg self then Some entity else None).
  assert (Hin : input_data fd = Some (row [tok])) by reflexivity.
  assert (Hv' : forallb (valid_index (vocab_size self)) [tok] = true)
    by (cbn [forallb]; now rewrite Hv).
  assert (He : entities_ok self 1 ents).
  { subst ents. destruct (has_kg self) eqn:E; cbn [entities_ok]; [|exact E].
    destruct (Hent eq_refl). auto. }
  assert (Hfed : fed_entities fd ents).
  { subst ents fd. unfold decode_feed. destruct (has_kg self); cbn; auto. }
  assert (Hkg : kg_value self fd = Some (kg_input_of self kb)).
  { unfold kg_value, fd, decode_feed, kg_input_of. cbn [kg_input_data].
    destruct (has_kg self); reflexivity. }
  destruct (elems_of_single self tok ents He) as (x & Ex). exists x.
  pose proof (final_state_row self fd [tok] ents _ Hok Hc Hin Hv' ltac:(discriminate)
                He Hfed Hkg Hs) as Ef.
  pose proof (scan_rnn_row self fd [tok] ents _ Hok Hin Hv' He Hfed Hkg) as Es.
  rewrite Ex in Ef, Es. cbn [fold_left tf_scan] in Ef, Es. unfold rnn_step in Ef, Es.
  cbn [snd] in Ef, Es. split; [exact Ef|].
  assert (Hr : rnn_outputs self fd =
               Some [fst (call (cell self) (kg_input_of self kb) x (start_state self state))]).
  { unfold rnn_outputs. rewrite Es. reflexivity. }
  rewrite (outputs_row self fd [true] _ eq_refl Hr eq_refl). reflexivity.
Qed.

Lemma np_argmax_pack (lg : tensor F) v :
  shape lg = [1; v] -> length (data lg) = v -> 0 < v ->
  exists i, i < v /\ np_argmax_axis2 (pack [lg]) = Some (row [Z.of_nat i]).
Proof.
  intros Hs Hl Hv. unfold np_argmax_axis2, pack. cbn [shape data length flat_map].
  rewrite Hs, app_nil_r. cbn [Nat.mul Nat.add seq mapM].
  unfold chunk. cbn [Nat.mul skipn]. rewrite <- Hl, firstn_all.
  destruct (argmax (data lg)) as [i|] eqn:E.
  - exists i. split; [|reflexivity].
    rewrite Hl. rewrite <- Hl. exact (proj1 (argmax_highest fzero _ _ E)).
  - destruct (data lg); [simpl in Hl; lia | discriminate].
Qed.

Lemma decode_loop_returns self kb stop_symbols lexicon vocab m fuel :
  variables_ok self -> cell_ok self -> logits_ok self ->
  entity_updates_ok self lexicon vocab ->
  forall tok entity state preds,
  valid_index (vocab_size self) tok = true ->
  (has_kg self = true ->
   shape entity = [1; 1; entity_cache_size self] /\ wf_tensor entity) ->
  same_structure (state_size (cell self)) (start_state self state) = true ->
  (Z.of_nat (length preds) < m)%Z ->
  (m - Z.of_nat (length preds) <= Z.of_nat fuel)%Z ->
  exists preds' st,
    decode_loop self stop_symbols lexicon vocab (Some m) (kg_input_of self kb) fuel
      (row [tok]) entity state preds = Returned (preds', st).
Proof.
  intros Hok Hc Hlg Hup. induction fuel as [|fuel IH];
    intros tok entity state preds Hv Hent Hs Hlt Hfuel; [simpl in Hfuel; lia|].
  cbn [decode_loop].
  destruct (decode_iteration_runs self kb tok entity state Hok Hc Hv Hent Hs)
    as (x & Ef & Eo).
  rewrite Ef, Eo. cbn [try].
  destruct Hlg as [Hvoc Hlin].
  destruct (Hlin (fst (call (cell self) (kg_input_of self kb) x (start_state self state))))
    as [Hsh Hlen].
  destruct (np_argmax_pack _ _ Hsh Hlen Hvoc) as (i & Hi & Ea).
  rewrite Ea. cbn [try np_int row data].
  destruct (py_in (Z.of_nat i) stop_symbols || len_eq (preds ++ [Z.of_nat i]) (Some m))
    eqn:Estop; [eauto|].
  apply orb_false_elim in Estop. destruct Estop as [_ Elen].
  unfold len_eq in Elen. apply Z.eqb_neq in Elen. rewrite length_app in Elen.
  cbn [length] in Elen.
  assert (Hu : exists entity',
             (if has_kg self then update_entity self lexicon vocab (preds ++ [Z.of_nat i])
              else Some entity) = Some entity' /\
             (has_kg self = true ->
              shape entity' = [1; 1; entity_cache_size self] /\ wf_tensor entity')).
  { destruct (has_kg self) eqn:Ekg.
    - destruct (Hup Ekg (preds ++ [Z.of_nat i])) as (e & Ee & Es).
      exists e. split; [exact Ee|]. intros _. split; [exact Es|].
      exact (update_entity_wf _ _ _ _ _ Ee).
    - exists entity. split; [reflexivity | discriminate]. }
  destruct Hu as (entity' & Eu & Hent'). rewrite Eu. cbn [try].
  apply IH.
  - unfold valid_index. apply andb_true_intro. split; [apply Z.leb_le | apply Z.ltb_lt]; lia.
  - exact Hent'.
  - cbn [start_state]. apply (proj2 Hc). exact Hs.
  - rewrite length_app. cbn [length]. lia.
  - rewrite length_app. cbn [length]. lia.
Qed.

(** Without a length cap, or with one below 1, and with no stop symbol in
    the vocabulary, the loop never ends. *)
Lemma decode_loop_never_ends self kb stop_symbols lexicon vocab max_len fuel :
  variables_ok self -> cell_ok self -> logits_ok self ->
  entity_updates_ok self lexicon vocab ->
  (forall p, py_in p stop_symbols = true -> valid_index (vocab_size self) p = false) ->
  max_len = None \/ (exists m, max_len = Some m /\ (m <= 0)%Z) ->
  forall tok entity state preds,
  valid_index (vocab_size self) tok = true ->
  (has_kg self = true ->
   shape entity = [1; 1; entity_cache_size self] /\ wf_tensor entity) ->
  same_structure (state_size (cell self)) (start_state self state) = true ->
  decode_loop self stop_symbols lexicon vocab max_len (kg_input_of self kb) fuel
    (row [tok]) entity state preds = OutOfFuel.
Proof.
  intros Hok Hc Hlg Hup Hstop Hcap. induction fuel as [|fuel IH];
    intros tok entity state preds Hv Hent Hs; [reflexivity|].
  cbn [decode_loop].
  destruct (decode_iteration_runs self kb tok entity state Hok Hc Hv Hent Hs)
    as (x & Ef & Eo).
  rewrite Ef, Eo. cbn [try].
  destruct Hlg as [Hvoc Hlin].
  destruct (Hlin (fst (call (cell self) (kg_input_of self kb) x (start_state self state))))
    as [Hsh Hlen].
  destruct (np_argmax_pack _ _ Hsh Hlen Hvoc) as (i & Hi & Ea).
  rewrite Ea. cbn [try np_int row data].
  assert (Hvi : valid_index (vocab_size self) (Z.of_nat i) = true).
  { unfold valid_index. apply andb_true_intro. split; [apply Z.leb_le | apply Z.ltb_lt]; lia. }
  assert (Hin : py_in (Z.of_nat i) stop_symbols = false).
  { destruct (py_in (Z.of_nat i) stop_symbols) eqn:E; [|reflexivity].
    rewrite (Hstop _ E) in Hvi. discriminate. }
  assert (Hlen' : len_eq (preds ++ [Z.of_nat i]) max_len = false).
  { destruct Hcap as [->|(m & -> & Hm)]; cbn [len_eq]; [reflexivity|].
    apply Z.eqb_neq. rewrite length_app. cbn [length]. lia. }
  rewrite Hin, Hlen'. cbn [orb].
  assert (Hu : exists entity',
             (if has_kg self then update_entity self lexicon vocab (preds ++ [Z.of_nat i])
              else Some entity) = Some entity' /\
             (has_kg self = true ->
              shape entity' = [1; 1; entity_cache_size self] /\ wf_tensor entity')).
  { destruct (has_kg self) eqn:Ekg.
    - destruct (Hup Ekg (preds ++ [Z.of_nat i])) as (e & Ee & Es).
      exists e. split; [exact Ee|]. intros _. split; [exact Es|].
      exact (update_entity_wf _ _ _ _ _ Ee).
    - exists entity. split; [reflexivity | discriminate]. }
  destruct Hu as (entity' & Eu & Hent'). rewrite Eu. cbn [try].
  apply IH; [exact Hvi | exact Hent' |]. cbn [start_state]. apply (proj2 Hc). exact Hs.
Qed.

End Returns.

Section Termination.
Context {B : Backend} {C : Collaborators}.

Lemma generate_returns self kb toks caches stop_symbols lexicon vocab m init truthy fuel :
  variables_ok self -> cell_ok self -> logits_ok self ->
  entity_updates_ok self lexicon vocab ->
  Forall (fun x => length x = entity_cache_size self) caches ->
  length caches = length toks -> toks <> [] ->
  forallb (valid_index (vocab_size self)) toks = true ->
  truth_value init = Some truthy ->
  feedable self init ->
  (1 <= m)%Z -> (m <= Z.of_nat fuel)%Z ->
  exists preds st,
    generate self kb (row toks) (entity_array (entity_cache_size self) caches)
      stop_symbols lexicon vocab (Some m) init fuel = Returned (preds, st).
Proof.
  intros Hok Hc Hlg Hup Hf Hl Hne Hv Ht Hinit Hm Hfuel.
  assert (Hstart : forall o, o = init \/ o = None ->
            same_structure (state_size (cell self)) (start_state self o) = true).
  { intros o [->| ->]; apply feedable_structure; [exact Hinit | exact I]. }
  assert (Hcne : caches <> []) by (intros ->; destruct toks; [congruence | discriminate]).
  assert (Hvl : valid_index (vocab_size self) (last toks 0%Z) = true).
  { apply (proj1 (forallb_forall _ _) Hv). rewrite (app_removelast_last 0%Z Hne) at 2.
    apply in_or_app. right. now left. }
  assert (Hvr : forallb (valid_index (vocab_size self)) (removelast toks) = true).
  { apply forallb_forall. intros t Ht'. apply (proj1 (forallb_forall _ _) Hv).
    rewrite (app_removelast_last 0%Z Hne). apply in_or_app. now left. }
  assert (Hent : has_kg self = true ->
            shape (mkTensor [1; 1; entity_cache_size self] (last caches []))
              = [1; 1; entity_cache_size self] /\
            wf_tensor (mkTensor [1; 1; entity_cache_size self] (last caches []))).
  { intros _. split; [reflexivity|]. unfold wf_tensor. cbn [shape data].
    rewrite numel_1_2, Nat.mul_1_l.
    apply (proj1 (Forall_forall _ _) Hf). rewrite (app_removelast_last [] Hcne) at 2.
    apply in_or_app. right. now left. }
  rewrite (generate_unfold self kb toks caches _ _ _ _ _ _ Hf Hl Hne).
  destruct (Nat.eq_dec (length toks) 1) as [E1|E1].
  - rewrite (encode_one_token self _ toks _ init truthy E1 Ht). cbn [try].
    apply decode_loop_returns; auto; simpl; lia.
  - assert (Hn : 1 < length toks) by (destruct toks as [|? [|? ?]]; simpl in *; try congruence; lia).
    rewrite (encode_many_tokens self kb toks caches init truthy); auto.
    + cbn [try]. apply decode_loop_returns; auto; try (simpl; lia).
      cbn [start_state]. apply state_after_structure; [exact Hc|].
      apply Hstart. destruct truthy; auto.
    + apply Hstart. destruct truthy; auto.
Qed.

(** C4, amended: with an integer [max_len] of at least 1, the loop of
    [generate] is over within [max_len] iterations; what it returns has
    between 1 and [max_len] tokens and ends at the first token that is a
    stop symbol or the [max_len]-th; and on well-formed input (an
    [init_state], if given, of the structure and shapes of the graph's),
    with a cell, a projection and an entity lookup that keep their
    contracts, it does return. *)
Theorem generate_terminates_within_max_len self kb inputs entities stop_symbols
    lexicon vocab m init fuel :
  (1 <= m)%Z -> (m <= Z.of_nat fuel)%Z ->
  let run := generate self kb inputs entities stop_symbols lexicon vocab (Some m) init fuel in
  run <> OutOfFuel /\
  (forall preds st, run = Returned (preds, st) ->
     1 <= length preds /\ (Z.of_nat (length preds) <= m)%Z /\
     stops stop_symbols (Some m) preds = true /\
     forall k, 0 < k < length preds -> stops stop_symbols (Some m) (firstn k preds) = false) /\
  (forall toks caches truthy,
     inputs = row toks -> entities = entity_array (entity_cache_size self) caches ->
     variables_ok self -> cell_ok self -> logits_ok self ->
     entity_updates_ok self lexicon vocab ->
     Forall (fun x => length x = entity_cache_size self) caches ->
     length caches = length toks -> toks <> [] ->
     forallb (valid_index (vocab_size self)) toks = true ->
     truth_value init = Some truthy ->
     feedable self init ->
     exists preds st, run = Returned (preds, st)).
Proof.
  intros Hm Hfuel run. subst run. split; [|split].
  - unfold generate, try.
    destruct (encode _ _ _ _ _) as [state|]; [|discriminate].
    destruct (bind (np_last 2 inputs) _) as [input_|]; [|discriminate].
    destruct (bind (np_last 3 entities) _) as [entity|]; [|discriminate].
    apply (decode_loop_terminates self stop_symbols lexicon vocab (Some m) _ fuel
             input_ entity state [] m eq_refl); simpl; lia.
  - intros preds st H. apply generate_returned in H. destruct H as (Hne & Hs & Hmin).
    assert (Hl : 1 <= length preds) by (destruct preds; [congruence | simpl; lia]).
    split; [exact Hl|]. split; [|split; assumption].
    destruct (Z_le_gt_dec (Z.of_nat (length preds)) m) as [Hle|Hgt]; [exact Hle|].
    exfalso. specialize (Hmin (Z.to_nat m)).
    assert (Hk : 0 < Z.to_nat m < length preds) by lia.
    specialize (Hmin Hk). unfold stops in Hmin. apply orb_false_elim in Hmin.
    destruct Hmin as [_ Hlen]. unfold len_eq in Hlen. apply Z.eqb_neq in Hlen.
    rewrite length_firstn in Hlen. lia.
  - intros toks caches truthy -> -> Hok Hc Hlg Hup Hf Hl Hne Hv Ht Hinit.
    eapply generate_returns; eauto.
Qed.

End Termination.

(** * The theorems on the small integer instance *)

Module ToyFacts.

Lemma variables_ok_model c : variables_ok (Toy.model c).
Proof. split; reflexivity. Qed.

Lemma cell_ok_lstm_like : cell_ok (Toy.model Toy.lstm_like).
Proof.
  split; [discriminate|]. intros kgi x st H.
  destruct st as [a|[|[c|?] [|[h|?] [|? ?]]]]; try discriminate. reflexivity.
Qed.

Lemma cell_ok_attn_like : cell_ok Toy.attn_model.
Proof.
  split; [discriminate|]. intros kgi x st H.
  destruct st as [a|[|[c|?] [|[h|?] [|? ?]]]]; try discriminate. reflexivity.
Qed.

Lemma logits_ok_model c : logits_ok (Toy.model c).
Proof.
  split; [cbn; lia|]. intros h. split; reflexivity.
Qed.

Lemma entity_updates_ok_model c lexicon vocab : entity_updates_ok (Toy.model c) lexicon vocab.
Proof. intros H. discriminate. Qed.

End ToyFacts.

(** With the default [max_len=None] and a stop symbol the model never
    emits, [generate] does not terminate: whatever the number of
    iterations allowed, the loop is still running. *)
Lemma generate_without_max_len_loops fuel :
  generate Toy.self tt (row [2]%Z) (Toy.no_entities 1) [5%Z] tt tt None None fuel
  = OutOfFuel.
Proof.
  unfold generate. cbn [has_kg Toy.self Toy.model].
  change (encode Toy.self None (row [2]%Z) (Toy.no_entities 1) None) 
    with (Some (@None (@rnn_state Toy.backend))).
  cbn [try]. change (bind (np_last 2 (row [2]%Z)) np_expand_dims1) with (Some (row [2]%Z)).
  cbn [try].
  change (bind (np_last 3 (Toy.no_entities 1)) np_expand_dims1)
    with (Some (mkTensor [1; 1; 2] [-1; -1]%Z)).
  cbn [try].
  apply (decode_loop_never_ends Toy.self tt [5%Z] tt tt None fuel
           (ToyFacts.variables_ok_model _) ToyFacts.cell_ok_lstm_like
           (ToyFacts.logits_ok_model _) (ToyFacts.entity_updates_ok_model _ tt tt)).
  - intros p H. unfold py_in in H. cbn [existsb] in H. rewrite orb_false_r in H.
    apply Z.eqb_eq in H. subst p. reflexivity.
  - now left.
  - reflexivity.
  - discriminate.
  - reflexivity.
Qed.

(** C4 as stated fails for [max_len = 0]: the first token is appended
    before the test, so the returned sequence is longer than [max_len]. *)
Lemma generate_max_len_zero_exceeds :
  exists preds st,
    generate (Toy.model Toy.lstm_like) tt (row [0; 1; 2]%Z) (Toy.no_entities 3)
      [2%Z] tt tt (Some 0%Z) None 10 = Returned (preds, st) /\
    ~ (Z.of_nat (length preds) <= 0)%Z.
Proof.
  eexists. eexists. split; [vm_compute; reflexivity|]. simpl. lia.
Qed.


Lemma outputs_zero_or_projection_witness :
  exists outs,
    outputs Toy.self Toy.fd = Some outs /\
    length outs = length Toy.toks /\
    forall t h w,
      nth_error Toy.hs t = Some h -> nth_error Toy.flags t = Some w ->
      nth_error outs t =
      Some (if w
            then Toy.add (Toy.matmul h (output_w Toy.self)) (output_b Toy.self)
            else mkTensor [1; 3] (repeat 0%Z 3)).
Proof.
  apply (outputs_zero_or_projection Toy.self Toy.fd Toy.toks
           Toy.flags Toy.hs); vm_compute; reflexivity.
Defined.

Lemma seq_loss_zero_or_cross_entropy_witness :
  exists ls,
    seq_loss Toy.self Toy.fd = Some ls /\ length ls = length Toy.toks /\
    forall t out tgt w,
      nth_error Toy.outs t = Some out -> nth_error Toy.tgts t = Some tgt ->
      nth_error Toy.flags t = Some w ->
      nth_error ls t =
      Some (if w then Toy.xent out (mkTensor [1] [tgt]) else mkTensor [1] [0%Z]).
Proof.
  apply (seq_loss_zero_or_cross_entropy Toy.self Toy.fd Toy.toks
           Toy.tgts Toy.flags Toy.outs); vm_compute; reflexivity.
Defined.

Lemma loss_is_average_witness :
  loss Toy.self Toy.fd = Some ((2 + 0 + 5 + 2) / 1 / 4)%Z /\
  ((forall x : Z, (x / 1 = x)%Z) ->
   loss Toy.self Toy.fd = Some ((2 + 0 + 5 + 2) / 4 / 1)%Z).
Proof.
  apply (loss_is_average Toy.self Toy.fd Toy.toks Toy.ls);
    vm_compute; reflexivity.
Defined.

Lemma scan_starts_at_zero_and_carries_state_witness :
  let self := Toy.self in
  let elems := elems_of self Toy.toks None in
  let a0 := initializer self in
  fst a0 = mkTensor [1; 2] (repeat 0%Z 2) /\
  Forall (fun t => exists s, t = mkTensor [1; s] (repeat 0%Z s)) (flatten (snd a0)) /\
  (exists accs,
     scan_rnn self Toy.fd = Some accs /\ length accs = length Toy.toks /\
     forall t x, nth_error elems t = Some x ->
       nth_error accs t =
       Some (call (cell self) None x (snd (fold_left (rnn_step self None) (firstn t elems) a0)))) /\
  (exists pre x,
     elems = pre ++ [x] /\
     final_state self Toy.fd =
     Some (snd (call (cell self) None x (snd (fold_left (rnn_step self None) pre a0))))).
Proof.
  apply (scan_starts_at_zero_and_carries_state Toy.self Toy.fd Toy.toks
           None None (ToyFacts.variables_ok_model _) ToyFacts.cell_ok_lstm_like);
    try reflexivity; try exact I; discriminate.
Defined.

Lemma generate_nonempty_and_stop_symbol_last_witness :
  let preds := [2; 1]%Z in
  preds <> [] /\
  (forall i p, nth_error preds i = Some p -> py_in p [1%Z] = true -> S i = length preds) /\
  (py_in (last preds 0%Z) [1%Z] = true \/ len_eq preds (Some 4%Z) = true).
Proof.
  apply (generate_nonempty_and_stop_symbol_last Toy.self tt (row [0; 1; 2]%Z)
           (Toy.no_entities 3) [1%Z] tt tt (Some 4%Z) None 10 [2; 1]%Z
           (Tuple [Leaf (mkTensor [1; 2] [3; 2]%Z); Leaf (mkTensor [1; 2] [2; 2]%Z)])).
  vm_compute. reflexivity.
Defined.

Lemma generate_decodes_greedily_witness :
  (forall kg_input input_ entity state,
     input_iswrite (decode_feed Toy.self kg_input input_ entity state)
     = Some (row [true])) /\
  exists st0,
    greedy_decoding Toy.self None 2%Z st0 [2; 1]%Z
      (Tuple [Leaf (mkTensor [1; 2] [3; 2]%Z); Leaf (mkTensor [1; 2] [2; 2]%Z)]).
Proof.
  apply (generate_decodes_greedily Toy.self tt [0; 1; 2]%Z (Toy.no_entities 3)
           [1%Z] tt tt (Some 4%Z) None 10 [2; 1]%Z
           (Tuple [Leaf (mkTensor [1; 2] [3; 2]%Z); Leaf (mkTensor [1; 2] [2; 2]%Z)])
           (ToyFacts.variables_ok_model _)).
  - discriminate.
  - vm_compute. reflexivity.
Defined.

Lemma generate_primes_on_all_but_last_witness :
  let self := Toy.self in
  let toks := [0; 1; 2]%Z in
  let init := Some Toy.prior_state in
  let entities := entity_array 2 Toy.caches in
  let entity := mkTensor [1; 1; 2] (last Toy.caches []) in
  (1 < length toks ->
   encode self None (row toks) entities init =
     Some (Some (state_after self None (removelast toks) (removelast Toy.caches) init)) /\
   generate self tt (row toks) entities [1%Z] tt tt (Some 4%Z) init 10 =
     decode_loop self [1%Z] tt tt (Some 4%Z) None 10
       (row [last toks 0%Z]) entity
       (Some (state_after self None (removelast toks) (removelast Toy.caches) init)) []) /\
  (length toks = 1 ->
   encode self None (row toks) entities init = Some init /\
   generate self tt (row toks) entities [1%Z] tt tt (Some 4%Z) init 10 =
     decode_loop self [1%Z] tt tt (Some 4%Z) None 10
       (row [last toks 0%Z]) entity init []).
Proof.
  apply (generate_primes_on_all_but_last Toy.self tt [0; 1; 2]%Z Toy.caches
           [1%Z] tt tt (Some 4%Z) (Some Toy.prior_state) true 10
           (ToyFacts.variables_ok_model _) ToyFacts.cell_ok_lstm_like).
  - repeat constructor.
  - reflexivity.
  - reflexivity.
  - reflexivity.
  - split; [reflexivity | repeat constructor].
Defined.

Lemma generate_terminates_within_max_len_witness :
  let run := generate Toy.self tt (row [0; 1; 2]%Z) (Toy.no_entities 3)
               [5%Z] tt tt (Some 4%Z) (Some Toy.prior_state) 10 in
  run <> OutOfFuel /\
  (forall preds st, run = Returned (preds, st) ->
     1 <= length preds /\ (Z.of_nat (length preds) <= 4)%Z) /\
  exists preds st, run = Returned (preds, st).
Proof.
  assert (H1 : (1 <= 4)%Z) by lia.
  assert (H2 : (4 <= Z.of_nat 10)%Z) by (simpl; lia).
  destruct (generate_terminates_within_max_len Toy.self tt (row [0; 1; 2]%Z)
              (Toy.no_entities 3) [5%Z] tt tt 4%Z (Some Toy.prior_state) 10 H1 H2)
    as (Ha & Hb & Hc).
  split; [exact Ha|]. split.
  - intros preds st H. destruct (Hb preds st H) as (P1 & P2 & _). split; assumption.
  - apply (Hc [0; 1; 2]%Z Toy.caches true); try reflexivity.
    + apply ToyFacts.variables_ok_model.
    + apply ToyFacts.cell_ok_lstm_like.
    + apply ToyFacts.logits_ok_model.
    + apply ToyFacts.entity_updates_ok_model.
    + repeat constructor.
    + discriminate.
    + split; [reflexivity | repeat constructor].
Defined.

(** The attention variant with its LSTM-style state: generation on the
    second part of a split prefix, from the state the first part ends in,
    is generation on the whole prefix. *)
Lemma generate_continues_on_attention_instance :
  let self := Toy.attn_model in
  let s1 := state_after self (kg_input_of self tt) [0; 1]%Z [[1; -1]; [0; 1]]%Z None in
  s1 = Tuple [Leaf (mkTensor [1; 2] [9; 8]%Z); Leaf (mkTensor [1; 2] [7; 8]%Z)] /\
  final_state self
    (encode_feed self (kg_input_of self tt) (row [0; 1]%Z)
       (fed_caches self [[1; -1]; [0; 1]]%Z) None) = Some s1 /\
  generate self tt (row [2]%Z) (entity_array (entity_cache_size self) [[2; 2]]%Z)
    [1%Z] tt tt (Some 4%Z) (Some s1) 10 =
  generate self tt (row ([0; 1] ++ [2])%Z)
    (entity_array (entity_cache_size self) ([[1; -1]; [0; 1]] ++ [[2; 2]])%Z)
    [1%Z] tt tt (Some 4%Z) None 10.
Proof.
  intros self s1. split; [vm_compute; reflexivity|].
  assert (Hok : variables_ok Toy.attn_model) by (split; vm_compute; reflexivity).
  assert (Hv1 : forallb (valid_index (vocab_size Toy.attn_model)) [0; 1]%Z = true)
    by (vm_compute; reflexivity).
  assert (Hv2 : forallb (valid_index (vocab_size Toy.attn_model)) (removelast [2]%Z) = true)
    by (vm_compute; reflexivity).
  destruct (generate_continues_from_truthy_state Toy.attn_model tt
              [0; 1]%Z [[1; -1]; [0; 1]]%Z [2]%Z [[2; 2]]%Z [1%Z] tt tt (Some 4%Z) 10
              Hok ToyFacts.cell_ok_attn_like
              ltac:(repeat constructor) ltac:(repeat constructor)
              eq_refl eq_refl Hv1 Hv2 ltac:(discriminate) ltac:(discriminate))
    as [H1 H2].
  split; [exact H1|]. apply H2. vm_compute. reflexivity.
Qed.

(** * Further properties of the code *)

(** ** [time_major] *)

(** X1: on a tensor of shape [d0 x d1 x rest], [time_major] returns a tensor
    of shape [d1 x d0 x rest] (the docstring's [seq_len, batch_size, ..])
    with all its entries, the one at [(i1, i0, r)] being the input's entry
    at [(i0, i1, r)]. *)
Theorem time_major_swaps_first_two_axes {A} (t : tensor A) d0 d1 rest :
  shape t = d0 :: d1 :: rest -> wf_tensor t ->
  exists t',
    time_major t (rank t) = Some t' /\
    shape t' = d1 :: d0 :: rest /\ wf_tensor t' /\
    forall i0 i1 r, i0 < d0 -> i1 < d1 -> in_range rest r ->
      exists a,
        nth_error (data t) (ravel (d0 :: d1 :: rest) (i0 :: i1 :: r)) = Some a /\
        nth_error (data t') (ravel (d1 :: d0 :: rest) (i1 :: i0 :: r)) = Some a.
Proof.
  intros Hs Hw. rewrite (time_major_unfold t d0 d1 rest Hs).
  set (src := fun k => ravel (d0 :: d1 :: rest) (swap2 (unravel (d1 :: d0 :: rest) k))).
  assert (Hall : Forall (fun i => i < length (data t))
                   (map src (seq 0 (numel (d1 :: d0 :: rest))))).
  { apply Forall_forall. intros i Hi. apply in_map_iff in Hi.
    destruct Hi as (k & <- & Hk). apply in_seq in Hk. unfold wf_tensor in Hw.
    rewrite Hw, Hs. apply swap_src_lt. lia. }
  eexists. split; [reflexivity|]. cbn [shape data]. split; [reflexivity|]. split.
  - unfold wf_tensor. cbn [shape data].
    rewrite (length_gather _ _ Hall), length_map, length_seq. reflexivity.
  - intros i0 i1 r H0 H1 Hr.
    assert (Hin : in_range (d0 :: d1 :: rest) (i0 :: i1 :: r)) by (simpl; auto).
    assert (Hin' : in_range (d1 :: d0 :: rest) (i1 :: i0 :: r)) by (simpl; auto).
    pose proof (ravel_lt _ _ Hin) as Hlt. pose proof (ravel_lt _ _ Hin') as Hlt'.
    unfold wf_tensor in Hw. rewrite Hs in Hw.
    destruct (nth_error (data t) (ravel (d0 :: d1 :: rest) (i0 :: i1 :: r))) as [a|] eqn:Ea.
    + exists a. split; [reflexivity|].
      rewrite (nth_error_gather _ _ Hall), nth_error_map, nth_error_seq.
      replace (ravel (d1 :: d0 :: rest) (i1 :: i0 :: r) <? numel (d1 :: d0 :: rest))
        with true by (symmetry; apply Nat.ltb_lt; exact Hlt').
      cbn [option_map Nat.add]. unfold src. rewrite (unravel_ravel _ _ Hin').
      cbn [swap2]. exact Ea.
    + apply nth_error_None in Ea. lia.
Qed.

Lemma time_major_swaps_first_two_axes_witness :
  exists t',
    time_major (mkTensor [2; 3] [1; 2; 3; 4; 5; 6]%Z) 2 = Some t' /\
    shape t' = [3; 2] /\ wf_tensor t' /\
    forall i0 i1 r, i0 < 2 -> i1 < 3 -> in_range [] r ->
      exists a,
        nth_error [1; 2; 3; 4; 5; 6]%Z (ravel [2; 3] (i0 :: i1 :: r)) = Some a /\
        nth_error (data t') (ravel [3; 2] (i1 :: i0 :: r)) = Some a.
Proof.
  apply (time_major_swaps_first_two_axes (mkTensor [2; 3] [1; 2; 3; 4; 5; 6]%Z) 2 3 []);
    reflexivity.
Defined.

(** X2: [time_major(t, rank)] raises exactly when the tensor does not have
    [max(rank, 2)] axes: a vector always raises, and a [rank] below 2 is
    taken for 2. *)
Theorem time_major_raises_iff_rank_differs {A} (t : tensor A) (rk : nat) :
  time_major t rk = None <-> rank t <> 2 + (rk - 2).
Proof.
  unfold time_major, tf_transpose.
  destruct (Nat.eq_dec (rank t) (2 + (rk - 2))) as [E|E].
  - rewrite E, (time_major_perm_ok (rk - 2)). split; [discriminate | congruence].
  - replace (is_permutation ([1; 0] ++ seq 2 (rk - 2)) (rank t)) with false.
    + split; auto.
    + symmetry. unfold is_permutation. apply andb_false_intro1.
      apply Nat.eqb_neq. cbn [app length]. rewrite length_seq. lia.
Qed.

(** ** The graph: what it accepts *)

Lemma mapM_total {A X} (f : A -> option X) l :
  (forall a, In a l -> exists b, f a = Some b) -> exists l', mapM f l = Some l'.
Proof.
  induction l as [|a l IH]; intros H; [eexists; reflexivity|].
  destruct (H a (or_introl eq_refl)) as (b & Eb).
  destruct IH as (l' & El); [intros; apply H; now right|].
  cbn [mapM]. rewrite Eb. cbn [bind]. rewrite El. eexists; reflexivity.
Qed.

Section Accepts.
Context {B : Backend} {C : Collaborators}.

(** X3: [_build_rnn_inputs] of the plain model, fed one sequence of tokens
    that are 32-bit values (what the [tf.int32] placeholder holds): if every
    token is an id of the vocabulary, the result has shape
    [seq_len x 1 x rnn_size] and its slice at step [t] is the embedding row
    of token [t]; if some token is not, it raises. *)
Theorem build_rnn_inputs_embeds_tokens self fd toks :
  variables_ok self -> has_kg self = false ->
  input_data fd = Some (row toks) -> Forall is_int32 toks ->
  (forallb (valid_index (vocab_size self)) toks = true ->
   exists x,
     _build_rnn_inputs self fd = Some (x, None) /\
     shape x = [length toks; 1; rnn_size self] /\
     unstack x = Some (map (embed self) toks)) /\
  (forallb (valid_index (vocab_size self)) toks = false ->
   _build_rnn_inputs self fd = None).
Proof.
  intros Hok Hkg Hin _. unfold _build_rnn_inputs. rewrite Hin, Hkg. unfold batch_size.
  rewrite placeholder_row. cbn [bind]. split; intros Hv.
  - pose proof (input_tokens_row self toks Hok Hv) as Ht.
    destruct (embedding_lookup _ _) as [e|]; [|discriminate]. cbn [bind] in *.
    destruct (time_major e 3) as [tm|]; [|discriminate]. cbn [bind] in *.
    inversion Ht; subst tm; clear Ht. eexists. split; [reflexivity|].
    split; [reflexivity|]. apply (unstack_tokens self toks Hok Hv).
  - unfold embedding_lookup. rewrite (proj1 Hok). cbn [row data]. rewrite Hv. reflexivity.
Qed.

Lemma outputs_length_tokens self fd toks outs :
  input_data fd = Some (row toks) -> outputs self fd = Some outs ->
  length outs = length toks.
Proof.
  intros Hin Ho. unfold outputs in Ho. bind_inv Ho as Eh. bind_inv Ho as Ew.
  unfold map_fn2 in Ho. bind_inv Ho as El. apply Nat.eqb_eq in El.
  apply mapM_length in Ho. rewrite length_combine in Ho.
  pose proof (rnn_outputs_length self fd toks _ Hin Eh). lia.
Qed.

(** X4: with write flags fed for a different number of steps than there
    are tokens, fetching the logits, the per-step loss or the loss raises. *)
Theorem outputs_raise_on_flag_length_mismatch self fd toks flags :
  input_data fd = Some (row toks) ->
  input_iswrite fd = Some (row flags) ->
  length flags <> length toks ->
  outputs self fd = None /\ seq_loss self fd = None /\ loss self fd = None.
Proof.
  intros Hin Hw Hne.
  assert (Ho : outputs self fd = None).
  { destruct (outputs self fd) as [outs|] eqn:E; [|reflexivity]. exfalso.
    pose proof (outputs_length_tokens self fd toks outs Hin E).
    pose proof (outputs_length self fd flags outs Hw E). lia. }
  assert (Hs : seq_loss self fd = None) by (unfold seq_loss; now rewrite Ho).
  repeat split; auto. unfold loss. now rewrite Hs.
Qed.

(** X5: with targets fed for a different number of steps than there are
    tokens, fetching the per-step loss or the loss raises. *)
Theorem seq_loss_raises_on_target_length_mismatch self fd toks tgts :
  input_data fd = Some (row toks) ->
  targets fd = Some (row tgts) ->
  length tgts <> length toks ->
  seq_loss self fd = None /\ loss self fd = None.
Proof.
  intros Hin Ht Hne.
  assert (Hs : seq_loss self fd = None).
  { destruct (seq_loss self fd) as [ls|] eqn:E; [|reflexivity]. exfalso.
    unfold seq_loss in E. bind_inv E as Eo.
    pose proof (outputs_length_tokens self fd toks _ Hin Eo) as Hlo.
    pose proof (targets_row self fd tgts Ht) as Etg. unfold placeholder in *.
    destruct (targets fd) as [tg|]; [|discriminate]. cbn [bind] in *.
    destruct (shape_matches _ (shape tg)); [|discriminate]. cbn [bind] in *.
    destruct (time_major tg 2) as [tg'|]; [|discriminate]. cbn [bind] in *.
    rewrite Etg in E. cbn [bind] in E. bind_inv E as Ew.
    unfold map_fn3 in E. bind_inv E as El. apply andb_prop in El.
    destruct El as [El _]. apply Nat.eqb_eq in El. rewrite length_map in El. lia. }
  split; [exact Hs|]. unfold loss. now rewrite Hs.
Qed.

(** X6: the graph takes one sequence at a time: fed token ids that are not
    a [1 x n] array (a batch of two sequences, a vector), every fetch
    raises. *)
Theorem graph_accepts_one_sequence_only self fd ids :
  input_data fd = Some ids ->
  (forall n, shape ids <> [1; n]) ->
  scan_rnn self fd = None /\ final_state self fd = None /\
  outputs self fd = None /\ loss self fd = None.
Proof.
  intros Hin Hsh.
  assert (Hb : _build_rnn_inputs self fd = None).
  { unfold _build_rnn_inputs, placeholder. rewrite Hin. cbn [bind].
    destruct (shape_matches _ (shape ids)) eqn:E; [|reflexivity].
    apply shape_matches_2 in E. destruct E as (n & E). now elim (Hsh n). }
  assert (Hs : scan_rnn self fd = None) by (unfold scan_rnn; now rewrite Hb).
  assert (Ho : outputs self fd = None) by (unfold outputs, rnn_outputs; now rewrite Hs).
  repeat split; auto.
  - unfold final_state, states. now rewrite Hs.
  - unfold loss, seq_loss. now rewrite Ho.
Qed.

(** X7: over an empty token sequence there is no last step: fetching the
    final state raises, whatever else is fed. *)
Theorem final_state_raises_on_empty_sequence self fd :
  input_data fd = Some (row []) -> final_state self fd = None.
Proof.
  intros Hin. unfold final_state, states.
  destruct (scan_rnn self fd) as [accs|] eqn:Es; [|reflexivity]. cbn [bind].
  pose proof (scan_rnn_length self fd _ accs Hin Es) as Hl. cbn in Hl.
  destruct accs; [|discriminate]. cbn [map]. unfold stack_states. cbn [forallb map].
  destruct (pack_sequence_as _ _) as [sts|] eqn:Ep; [|reflexivity]. cbn [bind].
  unfold pack_sequence_as in Ep. bind_inv Ep as Ef. destruct p as [t rest].
  cbn [fst snd] in Ep. destruct rest; [|discriminate]. inversion Ep; subst t; clear Ep.
  apply pack_from_inv in Ef. destruct Ef as [_ Ef]. rewrite app_nil_r in Ef.
  unfold _get_final_state. rewrite <- Ef.
  destruct (length (flatten (init_state_value self fd))) as [|k]; [reflexivity|].
  reflexivity.
Qed.

(** X8: [_get_final_state] takes the index of the last step from the first
    state tensor and uses it for every state tensor: its result has the
    structure of [states] and holds, for each tensor, the slice at that
    index; it succeeds whenever the first tensor has a step and no tensor
    has fewer steps than the first, and raises on a structure without
    tensors. *)
Theorem get_final_state_uses_length_of_first (sts : nest (list (tensor F))) :
  (forall st, _get_final_state sts = Some st ->
     exists first rest,
       flatten sts = first :: rest /\ first <> [] /\
       same_structure sts st = true /\
       length (flatten st) = length (flatten sts) /\
       forall j l, nth_error (flatten sts) j = Some l ->
         exists s, nth_error (flatten st) j = Some s /\
                   nth_error l (length first - 1) = Some s) /\
  (forall first rest,
     flatten sts = first :: rest -> first <> [] ->
     Forall (fun l => length first <= length l) rest ->
     exists st, _get_final_state sts = Some st) /\
  (flatten sts = [] -> _get_final_state sts = None).
Proof.
  split; [|split].
  - intros st H. unfold _get_final_state in H.
    destruct (flatten sts) as [|first rest] eqn:Ef; [discriminate|].
    cbn [nth_error bind] in H. bind_inv H as Em.
    exists first, rest. split; [reflexivity|].
    unfold pack_sequence_as in H. bind_inv H as Ep. destruct p as [t r].
    cbn [fst snd] in H. destruct r; [|discriminate]. inversion H; subst t; clear H.
    apply pack_from_inv in Ep. destruct Ep as [Hs Hfl]. rewrite app_nil_r in Hfl. subst l.
    pose proof (mapM_length _ _ _ Em) as Hl.
    assert (Hfirst : first <> []).
    { intros ->. cbn [mapM] in Em. unfold slice_lookup in Em. cbn in Em. discriminate. }
    repeat split; auto.
    intros j l Hj. destruct (mapM_nth _ _ _ j l Em Hj) as (s & Hs1 & Hs2).
    exists s. split; [exact Hs1|]. unfold slice_lookup in Hs2.
    destruct (valid_index (length l) _); [|discriminate].
    rewrite <- Hs2. f_equal. destruct first; [congruence|]. cbn [length]. lia.
  - intros first rest Ef Hne Hall. unfold _get_final_state. rewrite Ef.
    cbn [nth_error bind].
    destruct (mapM_total (fun state : list (tensor F) =>
                            slice_lookup state (Z.of_nat (length first) - 1))
                (first :: rest)) as (l' & El).
    { intros l Hl. unfold slice_lookup.
      assert (Hlen : length first <= length l).
      { destruct Hl as [<-|Hl]; [lia|]. exact (proj1 (Forall_forall _ _) Hall l Hl). }
      assert (H0 : 0 < length first) by (destruct first; [congruence | simpl; lia]).
      replace (valid_index (length l) (Z.of_nat (length first) - 1)) with true
        by (symmetry; unfold valid_index; apply andb_true_intro;
            split; [apply Z.leb_le | apply Z.ltb_lt]; lia).
      destruct (nth_error l (Z.to_nat (Z.of_nat (length first) - 1))) as [s|] eqn:E;
        [eexists; reflexivity|].
      apply nth_error_None in E. lia. }
    rewrite El. cbn [bind].
    destruct (pack_sequence_as_exact sts l') as (st & Ep & _).
    { rewrite (mapM_length _ _ _ El), Ef. reflexivity. }
    exists st. exact Ep.
  - intros Ef. unfold _get_final_state. rewrite Ef. reflexivity.
Qed.

End Accepts.

(** ** [generate]: its arguments *)

Section Arguments.
Context {B : Backend} {C : Collaborators}.

(** X9: [generate] on an empty prefix raises ([inputs[:, -1]] has nothing
    to index), whatever the other arguments. *)
Theorem generate_raises_on_empty_prefix self kb entities stop_symbols lexicon vocab
    max_len init_state fuel :
  generate self kb (row []) entities stop_symbols lexicon vocab max_len init_state fuel
  = Raised.
Proof.
  unfold generate, try. destruct (encode _ _ _ _ _); reflexivity.
Qed.

(** X10: [generate] indexes [entities[:, -1, :]] whether or not the model
    has a knowledge graph: with an [entities] array of fewer than three
    axes, or with no entry along axis 1, it raises. *)
Theorem generate_raises_without_entities_array self kb inputs entities stop_symbols
    lexicon vocab max_len init_state fuel :
  rank entities < 3 \/ nth 1 (shape entities) 0 = 0 ->
  generate self kb inputs entities stop_symbols lexicon vocab max_len init_state fuel
  = Raised.
Proof.
  intros H.
  assert (E : np_last 3 entities = None).
  { unfold np_last, rank in *. destruct (shape entities) as [|b [|n rest]]; try reflexivity.
    destruct H as [H|H].
    - replace (3 <=? length (b :: n :: rest)) with false
        by (symmetry; apply Nat.leb_gt; exact H). reflexivity.
    - cbn [nth] in H. subst n. cbn [Nat.eqb negb]. now rewrite andb_false_r. }
  unfold generate, try. rewrite E. cbn [bind].
  destruct (encode _ _ _ _ _); [|reflexivity].
  destruct (bind (np_last 2 inputs) _); reflexivity.
Qed.

Lemma decode_loop_ignores_entity self stop_symbols lexicon vocab max_len kg_input fuel :
  has_kg self = false ->
  forall input_ entity1 entity2 state preds,
  decode_loop self stop_symbols lexicon vocab max_len kg_input fuel
    input_ entity1 state preds =
  decode_loop self stop_symbols lexicon vocab max_len kg_input fuel
    input_ entity2 state preds.
Proof.
  intros Hkg. induction fuel as [|fuel IH]; intros input_ entity1 entity2 state preds;
    [reflexivity|].
  cbn [decode_loop]. unfold decode_feed. rewrite Hkg. unfold try.
  destruct (final_state _ _) as [state'|]; [|reflexivity].
  destruct (outputs _ _) as [output|]; [|reflexivity].
  destruct (np_argmax_axis2 _) as [pred_arr|]; [|reflexivity].
  destruct (np_int pred_arr) as [pred|]; [|reflexivity].
  destruct (py_in pred stop_symbols || len_eq (preds ++ [pred]) max_len); [reflexivity|].
  apply IH.
Qed.

(** X11: the plain model reads nothing of [entities] but its indexability:
    two calls that differ only in [entities], both arrays having a last
    entry along axis 1, do the same. *)
Theorem generate_ignores_entities_without_kg self kb inputs entities1 entities2
    stop_symbols lexicon vocab max_len init_state fuel :
  has_kg self = false ->
  (e <- np_last 3 entities1 ;; np_expand_dims1 e) <> None ->
  (e <- np_last 3 entities2 ;; np_expand_dims1 e) <> None ->
  generate self kb inputs entities1 stop_symbols lexicon vocab max_len init_state fuel =
  generate self kb inputs entities2 stop_symbols lexicon vocab max_len init_state fuel.
Proof.
  intros Hkg H1 H2. unfold generate, encode. rewrite Hkg.
  destruct (bind (np_last 3 entities1) _) as [e1|]; [|congruence].
  destruct (bind (np_last 3 entities2) _) as [e2|]; [|congruence].
  unfold try.
  match goal with |- match ?o with _ => _ end = _ => destruct o as [state|] end;
    [|reflexivity].
  destruct (bind (np_last 2 inputs) _) as [input_|]; [|reflexivity].
  apply decode_loop_ignores_entity. exact Hkg.
Qed.

End Arguments.

Lemma generate_raises_without_entities_array_witness :
  generate Toy.self tt (row [0; 1; 2]%Z) (row [-1; -1; -1]%Z) [1%Z] tt tt (Some 4%Z) None 10
  = Raised.
Proof.
  apply (generate_raises_without_entities_array Toy.self tt (row [0; 1; 2]%Z)
           (row [-1; -1; -1]%Z) [1%Z] tt tt (Some 4%Z) None 10).
  left. cbn. lia.
Defined.

Lemma generate_ignores_entities_without_kg_witness :
  generate Toy.self tt (row [0; 1; 2]%Z) (Toy.no_entities 3) [1%Z] tt tt (Some 4%Z) None 10 =
  generate Toy.self tt (row [0; 1; 2]%Z) (entity_array 5 [[1; 2; 3; 4; 5]]%Z)
    [1%Z] tt tt (Some 4%Z) None 10.
Proof.
  apply (generate_ignores_entities_without_kg Toy.self tt (row [0; 1; 2]%Z)
           (Toy.no_entities 3) (entity_array 5 [[1; 2; 3; 4; 5]]%Z)
           [1%Z] tt tt (Some 4%Z) None 10); [reflexivity | discriminate | discriminate].
Defined.

(** ** [generate]: what it returns *)

Section Returned.
Context {B : Backend} {C : Collaborators}.

Lemma greedy_decoding_valid self kgi tok st preds st_final :
  logits_ok self ->
  greedy_decoding self kgi tok st preds st_final ->
  forallb (valid_index (vocab_size self)) preds = true.
Proof.
  intros [_ Hlin] H.
  assert (Hstep : forall x s p s', greedy_step self kgi x s p s' ->
                    valid_index (vocab_size self) p = true).
  { intros x s p s' (_ & c & i & Hs & Hi & -> & _).
    rewrite (proj1 (Hlin _)) in Hs. inversion Hs; subst c.
    unfold valid_index. apply andb_true_intro. split; [apply Z.leb_le | apply Z.ltb_lt]; lia. }
  induction H as [tok st x pred st' _ Hg | tok st x pred st' preds stf _ Hg _ IH];
    cbn [forallb]; rewrite (Hstep _ _ _ _ Hg); [reflexivity | exact IH].
Qed.

Lemma generate_greedy self kb toks entities stop_symbols lexicon vocab max_len
    init_state fuel preds st_final :
  variables_ok self ->
  (has_kg self = true -> wf_tensor entities) ->
  generate self kb (row toks) entities stop_symbols lexicon vocab max_len init_state fuel
    = Returned (preds, st_final) ->
  exists st0, greedy_decoding self (kg_input_of self kb) (last toks 0%Z) st0 preds st_final.
Proof.
  intros Hok Hwf H. unfold generate, try in H.
  destruct (encode _ _ _ _ _) as [state|]; [|discriminate].
  destruct (bind (np_last 2 (row toks)) _) as [input_|] eqn:Ein; [|discriminate].
  destruct (bind (np_last 3 entities) _) as [entity|] eqn:Een; [|discriminate].
  assert (Hne : toks <> []) by (intros ->; discriminate).
  rewrite (np_last_row toks Hne) in Ein. inversion Ein; subst input_; clear Ein.
  apply decode_loop_greedy in H; [|exact Hok|].
  - destruct H as (new & -> & Hg). cbn [app]. unfold kg_input_of.
    destruct (has_kg self); eexists; exact Hg.
  - intros Hkg. bind_inv Een as E1.
    exact (np_expand_dims1_wf _ _ (np_last_wf _ _ _ (Hwf Hkg) E1) Een).
Qed.

(** X12: every token [generate] returns is an id of the vocabulary, so it
    can be embedded again (the projection giving [vocab_size] scores). *)
Theorem generated_tokens_are_vocabulary_ids self kb toks entities stop_symbols lexicon
    vocab max_len init_state fuel preds st :
  variables_ok self -> logits_ok self ->
  (has_kg self = true -> wf_tensor entities) ->
  generate self kb (row toks) entities stop_symbols lexicon vocab max_len init_state fuel
    = Returned (preds, st) ->
  forallb (valid_index (vocab_size self)) preds = true.
Proof.
  intros Hok Hlg Hwf H.
  destruct (generate_greedy _ _ _ _ _ _ _ _ _ _ _ _ Hok Hwf H) as (st0 & Hg).
  exact (greedy_decoding_valid _ _ _ _ _ _ Hlg Hg).
Qed.

(** X13: when no stop symbol is an id of the vocabulary (as in [test], which
    passes the stop symbol 5 to a model of 5 tokens), a call that returns
    returns exactly [max_len] tokens. *)
Theorem generate_returns_max_len_tokens_without_reachable_stop self kb toks entities
    stop_symbols lexicon vocab max_len init_state fuel preds st :
  variables_ok self -> logits_ok self ->
  (has_kg self = true -> wf_tensor entities) ->
  (forall p, py_in p stop_symbols = true -> valid_index (vocab_size self) p = false) ->
  generate self kb (row toks) entities stop_symbols lexicon vocab max_len init_state fuel
    = Returned (preds, st) ->
  max_len = Some (Z.of_nat (length preds)).
Proof.
  intros Hok Hlg Hwf Hstop H.
  destruct (generate_greedy _ _ _ _ _ _ _ _ _ _ _ _ Hok Hwf H) as (st0 & Hg).
  pose proof (greedy_decoding_valid _ _ _ _ _ _ Hlg Hg) as Hv.
  apply generate_returned in H. destruct H as (Hne & Hs & _).
  unfold stops in Hs. apply orb_prop in Hs. destruct Hs as [Hs|Hs].
  - exfalso. apply Hstop in Hs.
    assert (Hin : In (last preds 0%Z) preds).
    { rewrite (app_removelast_last 0%Z Hne) at 2. apply in_or_app. right. now left. }
    rewrite (proj1 (forallb_forall _ _) Hv _ Hin) in Hs. discriminate.
  - unfold len_eq in Hs. destruct max_len as [m|]; [|discriminate].
    apply Z.eqb_eq in Hs. now subst m.
Qed.

Lemma greedy_decoding_nonempty self kgi tok st preds st_final :
  greedy_decoding self kgi tok st preds st_final -> preds <> [].
Proof. intros H. destruct H; discriminate. Qed.

Lemma greedy_decoding_fold self tok st preds st_final :
  has_kg self = false ->
  greedy_decoding self None tok st preds st_final ->
  forall o,
    st_final =
    snd (fold_left (rnn_step self None)
           (map (fun t => (embed self t, None)) (tok :: removelast preds)) (o, st)).
Proof.
  intros Hkg H.
  assert (Hx : forall t x, is_input self t x -> x = (embed self t, None)).
  { intros t [x1 x2] [H1 H2]. cbn [fst snd] in *. now rewrite H1, (H2 Hkg). }
  induction H as [tok st x pred st' Hi Hg | tok st x pred st' preds stf Hi Hg Hrest IH];
    intros o.
  - cbn [removelast map fold_left]. unfold rnn_step. cbn [snd].
    rewrite <- (Hx _ _ Hi). exact (proj1 Hg).
  - pose proof (greedy_decoding_nonempty _ _ _ _ _ _ Hrest) as Hne.
    destruct preds as [|p ps]; [congruence|].
    change (removelast (pred :: p :: ps)) with (pred :: removelast (p :: ps)).
    specialize (IH (fst (call (cell self) None x st))).
    rewrite (proj1 Hg), <- surjective_pairing, (Hx _ _ Hi) in IH.
    cbn [map fold_left] in *.
    change (rnn_step self None (o, st) (embed self tok, None))
      with (call (cell self) None (embed self tok, None) st).
    exact IH.
Qed.

(** X14: the state the plain model returns is the state of a pass over the
    prefix followed by all the generated tokens but the last: the last
    token has been emitted, not yet read. *)
Theorem generate_returns_state_after_prefix_and_output self kb toks caches stop_symbols
    lexicon vocab max_len init fuel preds st :
  has_kg self = false ->
  variables_ok self -> cell_ok self ->
  Forall (fun x => length x = entity_cache_size self) caches ->
  length caches = length toks ->
  forallb (valid_index (vocab_size self)) (removelast toks) = true ->
  init = None \/ truth_value init = Some true ->
  same_structure (state_size (cell self)) (start_state self init) = true ->
  generate self kb (row toks) (entity_array (entity_cache_size self) caches)
    stop_symbols lexicon vocab max_len init fuel = Returned (preds, st) ->
  st = state_after self None (toks ++ removelast preds) [] init.
Proof.
  intros Hkg Hok Hc Hf Hl Hv Hinit Hs H.
  assert (Hne : toks <> []).
  { intros ->. unfold generate, try in H.
    destruct (encode _ _ _ _ _) in H; discriminate. }
  assert (Ekg : kg_input_of self kb = None) by (unfold kg_input_of; now rewrite Hkg).
  assert (Hsteps : forall l cs, steps self l cs = map (fun t => (embed self t, None)) l).
  { intros l cs. unfold steps. now rewrite Hkg. }
  assert (Htv : exists truthy, truth_value init = Some truthy /\
                               (if truthy then init else None) = init).
  { destruct Hinit as [->|Ht]; [exists false; split; reflexivity|].
    exists true. split; [exact Ht | reflexivity]. }
  destruct Htv as (truthy & Ht & Hti).
  rewrite (generate_unfold self kb toks caches _ _ _ _ _ _ Hf Hl Hne) in H.
  rewrite Ekg in H.
  assert (Hdec : forall state,
            decode_loop self stop_symbols lexicon vocab max_len None fuel
              (row [last toks 0%Z])
              (mkTensor [1; 1; entity_cache_size self] (last caches [])) state []
              = Returned (preds, st) ->
            forall o, st = snd (fold_left (rnn_step self None)
                                  (map (fun t => (embed self t, None))
                                       (last toks 0%Z :: removelast preds))
                                  (o, start_state self state))).
  { intros state Hd o. apply decode_loop_greedy in Hd; [|exact Hok|congruence].
    destruct Hd as (new & Hnew & Hg). cbn [app] in Hnew. subst new.
    rewrite Hkg in Hg. apply greedy_decoding_fold; assumption. }
  unfold state_after. rewrite Hsteps.
  rewrite (app_removelast_last 0%Z Hne) at 1. rewrite <- app_assoc. cbn [app].
  rewrite map_app, fold_left_app.
  destruct (Nat.eq_dec (length toks) 1) as [E1|E1].
  - rewrite (encode_one_token self _ toks _ init truthy E1 Ht) in H. cbn [try] in H.
    destruct toks as [|t [|? ?]]; try discriminate. cbn [removelast map fold_left].
    apply (Hdec init H).
  - assert (Hn : 1 < length toks)
      by (destruct toks as [|? [|? ?]]; simpl in *; try congruence; lia).
    pose proof (encode_many_tokens self kb toks caches init truthy Hok Hc Hf Hl Hv Hn Ht) as E.
    rewrite Hti, Ekg in E. rewrite (E Hs) in H. cbn [try] in H.
    rewrite (Hdec _ H (fst (fold_left (rnn_step self None)
                              (map (fun t => (embed self t, None)) (removelast toks))
                              (tf_constant fzero [1; output_size (cell self)],
                               start_state self init)))).
    cbn [start_state]. unfold state_after. rewrite Hsteps.
    rewrite <- surjective_pairing. reflexivity.
Qed.

End Returned.

(** ** [generate] without a length cap *)

Section NoCap.
Context {B : Backend} {C : Collaborators}.

(** X15: with the default [max_len=None], or a [max_len] below 1, a call
    that returns returns the tokens up to and including the first stop
    symbol: its last token is a stop symbol and no other one is. *)
Theorem generate_without_cap_returns_up_to_first_stop self kb inputs entities
    stop_symbols lexicon vocab max_len init_state fuel preds st :
  max_len = None \/ (exists m, max_len = Some m /\ (m <= 0)%Z) ->
  generate self kb inputs entities stop_symbols lexicon vocab max_len init_state fuel
    = Returned (preds, st) ->
  py_in (last preds 0%Z) stop_symbols = true /\
  forall i p, nth_error preds i = Some p -> S i < length preds ->
              py_in p stop_symbols = false.
Proof.
  intros Hcap H. apply generate_returned in H. destruct H as (Hne & Hs & Hmin).
  assert (Hlen : forall l : list Z, l <> [] -> len_eq l max_len = false).
  { intros l Hl. destruct Hcap as [->|(m & -> & Hm)]; cbn [len_eq]; [reflexivity|].
    apply Z.eqb_neq. destruct l; [congruence | simpl; lia]. }
  split.
  - unfold stops in Hs. rewrite (Hlen preds Hne), orb_false_r in Hs. exact Hs.
  - intros i p Hi Hlt. specialize (Hmin (S i) ltac:(lia)). unfold stops in Hmin.
    apply orb_false_elim in Hmin. destruct Hmin as [Hmin _].
    now rewrite (last_firstn preds i p 0%Z Hi) in Hmin.
Qed.

(** X16: with no length cap and no stop symbol among the ids of the
    vocabulary, [generate] never returns on well-formed input (an
    [init_state], if given, of the structure and shapes of the graph's):
    however many iterations are allowed, the loop is still running. *)
Theorem generate_never_returns_without_cap_and_reachable_stop self kb toks caches
    stop_symbols lexicon vocab max_len init truthy fuel :
  variables_ok self -> cell_ok self -> logits_ok self ->
  entity_updates_ok self lexicon vocab ->
  Forall (fun x => length x = entity_cache_size self) caches ->
  length caches = length toks -> toks <> [] ->
  forallb (valid_index (vocab_size self)) toks = true ->
  truth_value init = Some truthy ->
  feedable self init ->
  (forall p, py_in p stop_symbols = true -> valid_index (vocab_size self) p = false) ->
  max_len = None \/ (exists m, max_len = Some m /\ (m <= 0)%Z) ->
  generate self kb (row toks) (entity_array (entity_cache_size self) caches)
    stop_symbols lexicon vocab max_len init fuel = OutOfFuel.
Proof.
  intros Hok Hc Hlg Hup Hf Hl Hne Hv Ht Hinit Hstop Hcap.
  assert (Hstart : forall o, o = init \/ o = None ->
            same_structure (state_size (cell self)) (start_state self o) = true).
  { intros o [->| ->]; apply feedable_structure; [exact Hinit | exact I]. }
  assert (Hcne : caches <> []) by (intros ->; destruct toks; [congruence | discriminate]).
  assert (Hvl : valid_index (vocab_size self) (last toks 0%Z) = true).
  { apply (proj1 (forallb_forall _ _) Hv). rewrite (app_removelast_last 0%Z Hne) at 2.
    apply in_or_app. right. now left. }
  assert (Hvr : forallb (valid_index (vocab_size self)) (removelast toks) = true).
  { apply forallb_forall. intros t Ht'. apply (proj1 (forallb_forall _ _) Hv).
    rewrite (app_removelast_last 0%Z Hne). apply in_or_app. now left. }
  assert (Hent : has_kg self = true ->
            shape (mkTensor [1; 1; entity_cache_size self] (last caches []))
              = [1; 1; entity_cache_size self] /\
            wf_tensor (mkTensor [1; 1; entity_cache_size self] (last caches []))).
  { intros _. split; [reflexivity|]. unfold wf_tensor. cbn [shape data].
    rewrite numel_1_2, Nat.mul_1_l.
    apply (proj1 (Forall_forall _ _) Hf). rewrite (app_removelast_last [] Hcne) at 2.
    apply in_or_app. right. now left. }
  rewrite (generate_unfold self kb toks caches _ _ _ _ _ _ Hf Hl Hne).
  destruct (Nat.eq_dec (length toks) 1) as [E1|E1].
  - rewrite (encode_one_token self _ toks _ init truthy E1 Ht). cbn [try].
    apply decode_loop_never_ends; auto.
  - assert (Hn : 1 < length toks)
      by (destruct toks as [|? [|? ?]]; simpl in *; try congruence; lia).
    rewrite (encode_many_tokens self kb toks caches init truthy); auto.
    + cbn [try]. apply decode_loop_never_ends; auto.
      cbn [start_state]. apply state_after_structure; [exact Hc|].
      apply Hstart. destruct truthy; auto.
    + apply Hstart. destruct truthy; auto.
Qed.

End NoCap.

Lemma generated_tokens_are_vocabulary_ids_witness :
  forallb (valid_index 3) [2; 1]%Z = true.
Proof.
  apply (generated_tokens_are_vocabulary_ids Toy.self tt [0; 1; 2]%Z (Toy.no_entities 3)
           [1%Z] tt tt (Some 4%Z) None 10 [2; 1]%Z
           (Tuple [Leaf (mkTensor [1; 2] [3; 2]%Z); Leaf (mkTensor [1; 2] [2; 2]%Z)])
           (ToyFacts.variables_ok_model _) (ToyFacts.logits_ok_model _)).
  - discriminate.
  - vm_compute. reflexivity.
Defined.

Lemma generate_returns_max_len_tokens_without_reachable_stop_witness :
  Some 4%Z = Some (Z.of_nat (length [2; 1; 1; 1]%Z)).
Proof.
  apply (generate_returns_max_len_tokens_without_reachable_stop Toy.self tt [0; 1; 2]%Z
           (Toy.no_entities 3) [5%Z] tt tt (Some 4%Z) None 10 [2; 1; 1; 1]%Z
           (Tuple [Leaf (mkTensor [1; 2] [8; 7]%Z); Leaf (mkTensor [1; 2] [5; 5]%Z)])
           (ToyFacts.variables_ok_model _) (ToyFacts.logits_ok_model _)).
  - discriminate.
  - intros p H. unfold py_in in H. cbn [existsb] in H. rewrite orb_false_r in H.
    apply Z.eqb_eq in H. subst p. reflexivity.
  - vm_compute. reflexivity.
Defined.

Lemma generate_returns_state_after_prefix_and_output_witness :
  Tuple [Leaf (mkTensor [1; 2] [3; 2]%Z); Leaf (mkTensor [1; 2] [2; 2]%Z)] =
  state_after Toy.self None ([0; 1; 2] ++ removelast [2; 1])%Z [] None.
Proof.
  apply (generate_returns_state_after_prefix_and_output Toy.self tt [0; 1; 2]%Z Toy.caches
           [1%Z] tt tt (Some 4%Z) None 10 [2; 1]%Z
           (Tuple [Leaf (mkTensor [1; 2] [3; 2]%Z); Leaf (mkTensor [1; 2] [2; 2]%Z)])
           eq_refl (ToyFacts.variables_ok_model _) ToyFacts.cell_ok_lstm_like).
  - repeat constructor.
  - reflexivity.
  - reflexivity.
  - now left.
  - reflexivity.
  - vm_compute. reflexivity.
Defined.

Lemma generate_without_cap_returns_up_to_first_stop_witness :
  py_in (last [2; 1]%Z 0%Z) [1%Z] = true /\
  forall i p, nth_error [2; 1]%Z i = Some p -> S i < length [2; 1]%Z ->
              py_in p [1%Z] = false.
Proof.
  apply (generate_without_cap_returns_up_to_first_stop Toy.self tt (row [0; 1; 2]%Z)
           (Toy.no_entities 3) [1%Z] tt tt None None 10 [2; 1]%Z
           (Tuple [Leaf (mkTensor [1; 2] [3; 2]%Z); Leaf (mkTensor [1; 2] [2; 2]%Z)])).
  - now left.
  - vm_compute. reflexivity.
Defined.

Lemma generate_never_returns_without_cap_and_reachable_stop_witness :
  generate Toy.self tt (row [0; 1; 2]%Z) (entity_array 2 Toy.caches)
    [5%Z] tt tt (Some 0%Z) (Some Toy.prior_state) 1000 = OutOfFuel.
Proof.
  apply (generate_never_returns_without_cap_and_reachable_stop Toy.self tt [0; 1; 2]%Z
           Toy.caches [5%Z] tt tt (Some 0%Z) (Some Toy.prior_state) true 1000
           (ToyFacts.variables_ok_model _) ToyFacts.cell_ok_lstm_like
           (ToyFacts.logits_ok_model _) (ToyFacts.entity_updates_ok_model _ tt tt)).
  - repeat constructor.
  - reflexivity.
  - discriminate.
  - reflexivity.
  - reflexivity.
  - split; [reflexivity | repeat constructor].
  - intros p H. unfold py_in in H. cbn [existsb] in H. rewrite orb_false_r in H.
    apply Z.eqb_eq in H. subst p. reflexivity.
  - right. exists 0%Z. split; [reflexivity | lia].
Defined.

(** ** The graph: passes that continue or extend another *)

Section Extends.
Context {B : Backend} {C : Collaborators}.

(** X17: fed back as [init_state], the final state of a pass makes the next
    pass continue it: the final state over a second sequence, started from
    the final state over a first one, is the final state of one pass over
    the two sequences joined. *)
Theorem final_state_continues_from_fed_state self kb p1 c1 p2 c2 :
  variables_ok self -> cell_ok self ->
  Forall (fun x => length x = entity_cache_size self) c1 ->
  Forall (fun x => length x = entity_cache_size self) c2 ->
  length c1 = length p1 -> length c2 = length p2 ->
  forallb (valid_index (vocab_size self)) p1 = true ->
  forallb (valid_index (vocab_size self)) p2 = true ->
  p1 <> [] -> p2 <> [] ->
  exists s1 s2,
    final_state self
      (encode_feed self (kg_input_of self kb) (row p1) (fed_caches self c1) None) = Some s1 /\
    final_state self
      (encode_feed self (kg_input_of self kb) (row p2) (fed_caches self c2) (Some s1)) = Some s2 /\
    final_state self
      (encode_feed self (kg_input_of self kb) (row (p1 ++ p2)) (fed_caches self (c1 ++ c2)) None)
    = Some s2.
Proof.
  intros Hok Hc Hf1 Hf2 Hl1 Hl2 Hv1 Hv2 Hn1 Hn2.
  assert (Hz : same_structure (state_size (cell self)) (start_state self None) = true)
    by apply same_structure_nest_map.
  exists (state_after self (kg_input_of self kb) p1 c1 None),
         (state_after self (kg_input_of self kb) p2 c2
            (Some (state_after self (kg_input_of self kb) p1 c1 None))).
  split; [|split].
  - apply pass_final_state; auto.
  - apply pass_final_state; auto. cbn [start_state].
    apply state_after_structure; auto.
  - rewrite <- (state_after_app self _ p1 c1 p2 c2 Hl1). apply pass_final_state; auto.
    + apply Forall_app. split; assumption.
    + rewrite !length_app. lia.
    + rewrite forallb_app, Hv1, Hv2. reflexivity.
    + intros E. apply app_eq_nil in E. destruct E. contradiction.
Qed.

(** X18: the logits of a step depend on the steps up to it only: fetched
    for a sequence cut after some step (tokens, flags and entity caches
    alike), they are the logits the whole sequence gives for those steps. *)
Theorem outputs_do_not_look_ahead self fd p1 p2 w1 w2 c1 c2 outs :
  variables_ok self ->
  Forall (fun x => length x = entity_cache_size self) c1 ->
  Forall (fun x => length x = entity_cache_size self) c2 ->
  length c1 = length p1 -> length c2 = length p2 -> length w1 = length p1 ->
  input_data fd = Some (row (p1 ++ p2)) ->
  input_iswrite fd = Some (row (w1 ++ w2)) ->
  fed_entities fd (fed_caches self (c1 ++ c2)) ->
  outputs self fd = Some outs ->
  outputs self
    {| input_data := Some (row p1);
       input_iswrite := Some (row w1);
       targets := targets fd;
       init_state := init_state fd;
       kg_input_data := kg_input_data fd;
       input_entities := fed_caches self c1 |}
  = Some (firstn (length p1) outs).
Proof.
  intros Hok Hf1 Hf2 Hl1 Hl2 Hlw Hin Hw Hfed Ho.
  set (fd1 := {| input_data := Some (row p1); input_iswrite := Some (row w1);
                 targets := targets fd; init_state := init_state fd;
                 kg_input_data := kg_input_data fd;
                 input_entities := fed_caches self c1 |}).
  pose proof (outputs_length self fd _ outs Hw Ho) as Hlo.
  pose proof (outputs_length_tokens self fd _ outs Hin Ho) as Hlt.
  assert (Hs : exists accs, scan_rnn self fd = Some accs).
  { unfold outputs, rnn_outputs in Ho. destruct (scan_rnn self fd) as [accs|];
      [now exists accs | discriminate]. }
  destruct Hs as (accs & Hs).
  destruct (scan_rnn_inv self fd _ accs Hok Hin Hs) as (Hv & (kgi & Hkg) & _).
  rewrite forallb_app in Hv. apply andb_prop in Hv. destruct Hv as [Hv1 Hv2].
  assert (Hv : forallb (valid_index (vocab_size self)) (p1 ++ p2) = true)
    by (rewrite forallb_app, Hv1, Hv2; reflexivity).
  assert (Hf : Forall (fun x => length x = entity_cache_size self) (c1 ++ c2))
    by (apply Forall_app; split; assumption).
  assert (Hl : length (c1 ++ c2) = length (p1 ++ p2)) by (rewrite !length_app; lia).
  pose proof (scan_rnn_row self fd (p1 ++ p2) _ kgi Hok Hin Hv
                (entities_ok_fed_caches self _ _ Hf Hl) Hfed Hkg) as E.
  rewrite (elems_of_steps self _ _ Hf), (steps_app self p1 c1 p2 c2 Hl1), tf_scan_app in E.
  assert (Hfed1 : fed_entities fd1 (fed_caches self c1))
    by (unfold fed_entities; destruct (fed_caches self c1); [reflexivity | exact I]).
  pose proof (scan_rnn_row self fd1 p1 _ kgi Hok eq_refl Hv1
                (entities_ok_fed_caches self _ _ Hf1 Hl1) Hfed1 Hkg) as E1.
  rewrite (elems_of_steps self _ _ Hf1) in E1.
  change (init_state_value self fd1) with (init_state_value self fd) in E1.
  set (a0 := (tf_constant fzero [1; output_size (cell self)], init_state_value self fd)) in *.
  set (accs1 := tf_scan (rnn_step self kgi) (steps self p1 c1) a0) in *.
  set (accs2 := tf_scan (rnn_step self kgi) (steps self p2 c2)
                  (fold_left (rnn_step self kgi) (steps self p1 c1) a0)) in *.
  assert (Hla : length accs1 = length p1).
  { pose proof (scan_rnn_length self fd1 _ accs1 eq_refl E1) as H. exact H. }
  assert (Hh : rnn_outputs self fd = Some (map fst accs1 ++ map fst accs2))
    by (unfold rnn_outputs; rewrite E; cbn [bind]; now rewrite map_app).
  assert (Hh1 : rnn_outputs self fd1 = Some (map fst accs1))
    by (unfold rnn_outputs; now rewrite E1).
  assert (Hlh : length (map fst accs1 ++ map fst accs2) = length (w1 ++ w2)).
  { rewrite (rnn_outputs_length self fd _ _ Hin Hh). lia. }
  rewrite (outputs_row self fd _ _ Hw Hh Hlh) in Ho.
  rewrite (outputs_row self fd1 w1 _ eq_refl Hh1) by (rewrite length_map; lia).
  inversion Ho; subst outs; clear Ho. f_equal.
  rewrite map_app, combine_app_same, map_app by (rewrite !length_map; lia).
  rewrite firstn_app.
  match goal with |- _ = firstn _ ?l ++ _ =>
    assert (Hll : length l = length p1)
      by (rewrite length_map, length_combine, !length_map; lia) end.
  rewrite Hll, Nat.sub_diag, <- Hll, firstn_all. cbn [firstn]. now rewrite app_nil_r.
Qed.

(** X19: in the attention variant every token is scanned together with its
    entity cache: fed tokens and one cache per token, the elements of the
    scan are the pairs (embedding of token [t], cache [t] as a
    [1 x entity_cache_size] array). *)
Theorem attention_inputs_pair_tokens_with_caches self fd toks caches :
  variables_ok self -> has_kg self = true ->
  Forall (fun x => length x = entity_cache_size self) caches ->
  length caches = length toks ->
  forallb (valid_index (vocab_size self)) toks = true ->
  input_data fd = Some (row toks) ->
  input_entities fd = Some (entity_array (entity_cache_size self) caches) ->
  (inputs <- _build_rnn_inputs self fd ;; scan_elems inputs) =
  Some (map (fun p => (embed self (fst p),
                       Some (mkTensor [1; entity_cache_size self] (snd p))))
          (combine toks caches)).
Proof.
  intros Hok Hkg Hf Hl Hv Hin He.
  pose proof (entities_ok_fed_caches self toks caches Hf Hl) as Hent.
  pose proof (elems_of_steps self toks caches Hf) as Hst.
  unfold fed_caches, steps in *. rewrite Hkg in *.
  rewrite (scan_elems_row self fd toks _ Hok Hin Hv Hent He). now rewrite Hst.
Qed.

(** X20: the attention variant needs one entity cache per token: with the
    [input_entities] placeholder not fed, or fed with what is not a
    [1 x seq_len x entity_cache_size] array, every fetch raises. *)
Theorem attention_graph_needs_entities_for_every_token self fd toks :
  variables_ok self -> has_kg self = true ->
  input_data fd = Some (row toks) ->
  input_entities fd = None \/
  (exists e, input_entities fd = Some e /\
             shape e <> [1; length toks; entity_cache_size self]) ->
  scan_rnn self fd = None /\ final_state self fd = None /\
  outputs self fd = None /\ loss self fd = None.
Proof.
  intros Hok Hkg Hin Hbad.
  assert (Hs : scan_rnn self fd = None).
  { destruct (scan_rnn self fd) as [accs|] eqn:E; [|reflexivity]. exfalso.
    destruct (scan_rnn_inv self fd toks accs Hok Hin E) as (_ & _ & He).
    destruct (He Hkg) as (e & Ee & Es).
    destruct Hbad as [Hb|(e' & Hb & Hb')].
    - congruence.
    - rewrite Ee in Hb. inversion Hb; subst e'. contradiction. }
  assert (Ho : outputs self fd = None) by (unfold outputs, rnn_outputs; now rewrite Hs).
  repeat split; auto.
  - unfold final_state, states. now rewrite Hs.
  - unfold loss, seq_loss. now rewrite Ho.
Qed.

End Extends.

(** ** [generate]: resuming from the returned state *)

Section Resume.
Context {B : Backend} {C : Collaborators}.

(** Tokens already in [preds] only move the length at which the loop
    stops. *)
Lemma decode_loop_shift self stop_symbols lexicon vocab kg_input pre m fuel :
  has_kg self = false ->
  forall input_ entity state acc,
  decode_loop self stop_symbols lexicon vocab (Some (m + Z.of_nat (length pre))%Z)
    kg_input fuel input_ entity state (pre ++ acc) =
  match decode_loop self stop_symbols lexicon vocab (Some m) kg_input fuel
          input_ entity state acc with
  | Returned (preds, st) => Returned (pre ++ preds, st)
  | Raised => Raised
  | OutOfFuel => OutOfFuel
  end.
Proof.
  intros Hkg. induction fuel as [|fuel IH]; intros input_ entity state acc; [reflexivity|].
  cbn [decode_loop]. unfold try.
  destruct (final_state _ _) as [state'|]; [|reflexivity].
  destruct (outputs _ _) as [output|]; [|reflexivity].
  destruct (np_argmax_axis2 _) as [pred_arr|]; [|reflexivity].
  destruct (np_int pred_arr) as [pred|]; [|reflexivity].
  assert (El : len_eq ((pre ++ acc) ++ [pred]) (Some (m + Z.of_nat (length pre))%Z)
               = len_eq (acc ++ [pred]) (Some m)).
  { cbn [len_eq]. rewrite !length_app.
    destruct (Z.eqb_spec (Z.of_nat (length acc + length [pred])) m) as [E|E].
    - apply Z.eqb_eq. lia.
    - apply Z.eqb_neq. lia. }
  rewrite El. destruct (py_in pred stop_symbols || len_eq (acc ++ [pred]) (Some m)).
  - now rewrite <- app_assoc.
  - rewrite Hkg. rewrite <- app_assoc. apply IH.
Qed.

Lemma decode_loop_resume self stop_symbols lexicon vocab kg_input m1 m2 fuel1 :
  variables_ok self -> has_kg self = false -> (1 <= m2)%Z ->
  forall tok entity state acc preds1 st1,
  (Z.of_nat (length acc) < m1)%Z ->
  decode_loop self stop_symbols lexicon vocab (Some m1) kg_input fuel1
    (row [tok]) entity state acc = Returned (preds1, st1) ->
  py_in (last preds1 0%Z) stop_symbols = false ->
  forall fuel2 r,
  decode_loop self stop_symbols lexicon vocab (Some (m1 + m2)%Z) kg_input fuel2
    (row [last preds1 0%Z]) entity (Some st1) preds1 = Returned r ->
  decode_loop self stop_symbols lexicon vocab (Some (m1 + m2)%Z) kg_input (fuel1 + fuel2)
    (row [tok]) entity state acc = Returned r.
Proof.
  intros Hok Hkg Hm2. induction fuel1 as [|fuel1 IH];
    intros tok entity state acc preds1 st1 Hacc H Hlast fuel2 r H2; [discriminate|].
  cbn [Nat.add decode_loop] in *. unfold try in *.
  destruct (final_state _ _) as [state'|] eqn:Ef; [|discriminate].
  destruct (outputs _ _) as [output|] eqn:Eo; [|discriminate].
  assert (Hwf : has_kg self = true -> wf_tensor entity) by (rewrite Hkg; discriminate).
  destruct (decode_iteration self kg_input tok entity state state' output Hok Hwf Ef Eo)
    as (_ & _ & x & _ & _ & Eout).
  subst output.
  destruct (np_argmax_axis2 _) as [pred_arr|] eqn:Ea; [|discriminate].
  destruct (np_int pred_arr) as [pred|] eqn:Ei; [|discriminate].
  destruct (argmax_pack_inv _ _ _ Ea Ei) as (c & i & _ & _ & _ & Er). subst pred_arr.
  rewrite Hkg in *.
  destruct (py_in pred stop_symbols) eqn:Ep; cbn [orb] in *.
  - inversion H; subst preds1 st1; clear H. rewrite last_last, Ep in Hlast. discriminate.
  - destruct (len_eq (acc ++ [pred]) (Some m1)) eqn:El.
    + inversion H; subst preds1 st1; clear H. rewrite last_last in H2.
      cbn [len_eq] in *. apply Z.eqb_eq in El.
      replace (Z.of_nat (length (acc ++ [pred])) =? m1 + m2)%Z with false
        by (symmetry; apply Z.eqb_neq; lia).
      rewrite Nat.add_comm, decode_loop_more_fuel; [exact H2|].
      rewrite H2. discriminate.
    + cbn [len_eq] in El |- *. apply Z.eqb_neq in El.
      assert (Hl : (Z.of_nat (length (acc ++ [pred])) < m1)%Z)
        by (rewrite length_app in *; cbn [length] in *; lia).
      replace (Z.of_nat (length (acc ++ [pred])) =? m1 + m2)%Z with false
        by (symmetry; apply Z.eqb_neq; lia).
      exact (IH pred entity (Some state') (acc ++ [pred]) preds1 st1 Hl H Hlast fuel2 r H2).
Qed.

(** X21: the state [generate] returns resumes the decoding: if a call of
    the plain model stopped at its length cap [m1] on a token that is no
    stop symbol, a second call on that last token alone, with the returned
    state as [init_state] and a cap [m2], returns what one call with the
    cap [m1 + m2] returns after the first [m1] tokens. *)
Theorem generate_resumes_from_returned_state self kb toks entities1 entities2
    stop_symbols lexicon vocab m1 m2 init fuel1 fuel2 preds1 st1 preds2 st2 :
  variables_ok self -> has_kg self = false -> (1 <= m2)%Z ->
  generate self kb (row toks) entities1 stop_symbols lexicon vocab (Some m1) init fuel1
    = Returned (preds1, st1) ->
  py_in (last preds1 0%Z) stop_symbols = false ->
  generate self kb (row [last preds1 0%Z]) entities2 stop_symbols lexicon vocab (Some m2)
    (Some st1) fuel2 = Returned (preds2, st2) ->
  generate self kb (row toks) entities1 stop_symbols lexicon vocab (Some (m1 + m2)%Z) init
    (fuel1 + fuel2) = Returned (preds1 ++ preds2, st2).
Proof.
  intros Hok Hkg Hm2 H1 Hlast H2.
  destruct (generate_returned _ _ _ _ _ _ _ _ _ _ _ _ H1) as (Hne1 & Hs1 & _).
  unfold stops in Hs1. rewrite Hlast in Hs1. cbn [orb len_eq] in Hs1.
  apply Z.eqb_eq in Hs1.
  assert (Hm1 : (0 < m1)%Z) by (destruct preds1; [congruence | simpl in *; lia]).
  assert (Htoks : toks <> []).
  { intros ->. unfold generate, try in H1. destruct (encode _ _ _ _ _) in H1; discriminate. }
  unfold generate in *. rewrite Hkg in *. unfold try in *.
  destruct (encode self None (row toks) entities1 init) as [state|]; [|discriminate].
  rewrite (np_last_row toks Htoks) in *.
  destruct (e <- np_last 3 entities1 ;; np_expand_dims1 e) as [entity|]; [|discriminate].
  destruct (encode self None (row [last preds1 0%Z]) entities2 (Some st1)) as [state2|] eqn:Ee;
    [|discriminate].
  assert (state2 = Some st1).
  { unfold encode in Ee. destruct (truth_value (Some st1)); [|discriminate].
    cbn in Ee. congruence. }
  subst state2. rewrite (np_last_row [last preds1 0%Z]) in H2 by discriminate.
  cbn [last] in H2.
  destruct (e <- np_last 3 entities2 ;; np_expand_dims1 e) as [entity2|]; [|discriminate].
  rewrite (decode_loop_ignores_entity self _ _ _ _ _ _ Hkg _ entity2 entity) in H2.
  pose proof (decode_loop_shift self stop_symbols lexicon vocab None preds1 m2 fuel2 Hkg
                (row [last preds1 0%Z]) entity (Some st1) []) as Hsh.
  rewrite H2, app_nil_r in Hsh.
  replace (m2 + Z.of_nat (length preds1))%Z with (m1 + m2)%Z in Hsh by lia.
  exact (decode_loop_resume self stop_symbols lexicon vocab None m1 m2 fuel1 Hok Hkg Hm2
           (last toks 0%Z) entity state [] preds1 st1 Hm1 H1 Hlast fuel2 _ Hsh).
Qed.

End Resume.

(** ** The further properties on the small integer instance *)

Lemma variables_ok_attn_model : variables_ok Toy.attn_model.
Proof. split; vm_compute; reflexivity. Qed.

Lemma build_rnn_inputs_embeds_tokens_witness :
  (exists x,
     _build_rnn_inputs Toy.self (Toy.train_feed [0; 1; 2]%Z [] []) = Some (x, None) /\
     shape x = [length [0; 1; 2]%Z; 1; rnn_size Toy.self] /\
     unstack x = Some (map (embed Toy.self) [0; 1; 2]%Z)) /\
  _build_rnn_inputs Toy.self (Toy.train_feed [0; 3; -1]%Z [] []) = None.
Proof.
  split.
  - apply (build_rnn_inputs_embeds_tokens Toy.self (Toy.train_feed [0; 1; 2]%Z [] [])
             [0; 1; 2]%Z (ToyFacts.variables_ok_model _) eq_refl eq_refl).
    + repeat constructor; discriminate.
    + reflexivity.
  - apply (build_rnn_inputs_embeds_tokens Toy.self (Toy.train_feed [0; 3; -1]%Z [] [])
             [0; 3; -1]%Z (ToyFacts.variables_ok_model _) eq_refl eq_refl).
    + repeat constructor; discriminate.
    + reflexivity.
Defined.

Lemma outputs_raise_on_flag_length_mismatch_witness :
  outputs Toy.self (Toy.train_feed [0; 1; 2]%Z [true; false] [1; 2; 1]%Z) = None /\
  seq_loss Toy.self (Toy.train_feed [0; 1; 2]%Z [true; false] [1; 2; 1]%Z) = None /\
  loss Toy.self (Toy.train_feed [0; 1; 2]%Z [true; false] [1; 2; 1]%Z) = None.
Proof.
  apply (outputs_raise_on_flag_length_mismatch Toy.self
           (Toy.train_feed [0; 1; 2]%Z [true; false] [1; 2; 1]%Z)
           [0; 1; 2]%Z [true; false]); [reflexivity | reflexivity | simpl; lia].
Defined.

Lemma seq_loss_raises_on_target_length_mismatch_witness :
  seq_loss Toy.self (Toy.train_feed [0; 1; 2]%Z [true; false; true] [1; 2]%Z) = None /\
  loss Toy.self (Toy.train_feed [0; 1; 2]%Z [true; false; true] [1; 2]%Z) = None.
Proof.
  apply (seq_loss_raises_on_target_length_mismatch Toy.self
           (Toy.train_feed [0; 1; 2]%Z [true; false; true] [1; 2]%Z)
           [0; 1; 2]%Z [1; 2]%Z); [reflexivity | reflexivity | simpl; lia].
Defined.

Lemma graph_accepts_one_sequence_only_witness :
  scan_rnn Toy.self (encode_feed Toy.self None (mkTensor [2; 2] [0; 1; 2; 1]%Z) None None)
    = None /\
  final_state Toy.self
    (encode_feed Toy.self None (mkTensor [2; 2] [0; 1; 2; 1]%Z) None None) = None /\
  outputs Toy.self
    (encode_feed Toy.self None (mkTensor [2; 2] [0; 1; 2; 1]%Z) None None) = None /\
  loss Toy.self
    (encode_feed Toy.self None (mkTensor [2; 2] [0; 1; 2; 1]%Z) None None) = None.
Proof.
  apply (graph_accepts_one_sequence_only Toy.self
           (encode_feed Toy.self None (mkTensor [2; 2] [0; 1; 2; 1]%Z) None None)
           (mkTensor [2; 2] [0; 1; 2; 1]%Z)); [reflexivity|].
  intros n. cbn [shape]. discriminate.
Defined.

Lemma final_state_raises_on_empty_sequence_witness :
  final_state Toy.self (Toy.train_feed [] [] []) = None.
Proof.
  apply (final_state_raises_on_empty_sequence Toy.self (Toy.train_feed [] [] [])).
  reflexivity.
Defined.

Lemma get_final_state_uses_length_of_first_witness :
  exists st,
    _get_final_state (B := Toy.backend)
      (Tuple [Leaf [mkTensor [1; 2] [1; 0]%Z; mkTensor [1; 2] [2; 1]%Z];
              Leaf [mkTensor [1; 2] [0; 1]%Z; mkTensor [1; 2] [1; 2]%Z;
                    mkTensor [1; 2] [3; 3]%Z]]) = Some st.
Proof.
  apply (proj1 (proj2 (get_final_state_uses_length_of_first (B := Toy.backend)
           (Tuple [Leaf [mkTensor [1; 2] [1; 0]%Z; mkTensor [1; 2] [2; 1]%Z];
                   Leaf [mkTensor [1; 2] [0; 1]%Z; mkTensor [1; 2] [1; 2]%Z;
                         mkTensor [1; 2] [3; 3]%Z]])))
           [mkTensor [1; 2] [1; 0]%Z; mkTensor [1; 2] [2; 1]%Z]
           [[mkTensor [1; 2] [0; 1]%Z; mkTensor [1; 2] [1; 2]%Z; mkTensor [1; 2] [3; 3]%Z]]).
  - reflexivity.
  - discriminate.
  - repeat constructor.
Defined.

Lemma final_state_continues_from_fed_state_witness :
  exists s1 s2,
    final_state Toy.attn_model
      (encode_feed Toy.attn_model (kg_input_of Toy.attn_model tt) (row [0; 1]%Z)
         (fed_caches Toy.attn_model [[-1; -1]; [1; -1]]%Z) None) = Some s1 /\
    final_state Toy.attn_model
      (encode_feed Toy.attn_model (kg_input_of Toy.attn_model tt) (row [2; 1]%Z)
         (fed_caches Toy.attn_model [[1; 2]; [2; 1]]%Z) (Some s1)) = Some s2 /\
    final_state Toy.attn_model
      (encode_feed Toy.attn_model (kg_input_of Toy.attn_model tt) (row ([0; 1] ++ [2; 1])%Z)
         (fed_caches Toy.attn_model ([[-1; -1]; [1; -1]] ++ [[1; 2]; [2; 1]])%Z) None)
    = Some s2.
Proof.
  apply (final_state_continues_from_fed_state Toy.attn_model tt
           [0; 1]%Z [[-1; -1]; [1; -1]]%Z [2; 1]%Z [[1; 2]; [2; 1]]%Z
           variables_ok_attn_model ToyFacts.cell_ok_attn_like);
    try reflexivity; try discriminate; repeat constructor.
Defined.

Lemma outputs_do_not_look_ahead_witness :
  outputs Toy.self
    {| input_data := Some (row [0; 1]%Z);
       input_iswrite := Some (row [true; false]);
       targets := targets Toy.fd;
       init_state := init_state Toy.fd;
       kg_input_data := kg_input_data Toy.fd;
       input_entities := fed_caches Toy.self [[-1; -1]; [-1; -1]]%Z |}
  = Some (firstn (length [0; 1]%Z) Toy.outs).
Proof.
  apply (outputs_do_not_look_ahead Toy.self Toy.fd [0; 1]%Z [2; 1]%Z [true; false]
           [true; true] [[-1; -1]; [-1; -1]]%Z [[-1; -1]; [-1; -1]]%Z Toy.outs
           (ToyFacts.variables_ok_model _));
    try reflexivity; try (repeat constructor).
Defined.

Lemma attention_inputs_pair_tokens_with_caches_witness :
  (inputs <- _build_rnn_inputs Toy.attn_model
               (encode_feed Toy.attn_model (Some 7%Z) (row [0; 2]%Z)
                  (Some (entity_array 2 [[-1; -1]; [1; -1]]%Z)) None) ;;
   scan_elems inputs) =
  Some (map (fun p => (embed Toy.attn_model (fst p),
                       Some (mkTensor [1; entity_cache_size Toy.attn_model] (snd p))))
          (combine [0; 2]%Z [[-1; -1]; [1; -1]]%Z)).
Proof.
  apply (attention_inputs_pair_tokens_with_caches Toy.attn_model
           (encode_feed Toy.attn_model (Some 7%Z) (row [0; 2]%Z)
              (Some (entity_array 2 [[-1; -1]; [1; -1]]%Z)) None)
           [0; 2]%Z [[-1; -1]; [1; -1]]%Z variables_ok_attn_model);
    try reflexivity; repeat constructor.
Defined.

Lemma attention_graph_needs_entities_for_every_token_witness :
  scan_rnn Toy.attn_model
    (encode_feed Toy.attn_model (Some 7%Z) (row [0; 2]%Z)
       (Some (entity_array 2 [[-1; -1]]%Z)) None) = None /\
  final_state Toy.attn_model
    (encode_feed Toy.attn_model (Some 7%Z) (row [0; 2]%Z)
       (Some (entity_array 2 [[-1; -1]]%Z)) None) = None /\
  outputs Toy.attn_model
    (encode_feed Toy.attn_model (Some 7%Z) (row [0; 2]%Z)
       (Some (entity_array 2 [[-1; -1]]%Z)) None) = None /\
  loss Toy.attn_model
    (encode_feed Toy.attn_model (Some 7%Z) (row [0; 2]%Z)
       (Some (entity_array 2 [[-1; -1]]%Z)) None) = None.
Proof.
  apply (attention_graph_needs_entities_for_every_token Toy.attn_model
           (encode_feed Toy.attn_model (Some 7%Z) (row [0; 2]%Z)
              (Some (entity_array 2 [[-1; -1]]%Z)) None)
           [0; 2]%Z variables_ok_attn_model eq_refl eq_refl).
  right. exists (entity_array 2 [[-1; -1]]%Z). split; [reflexivity|].
  cbn. discriminate.
Defined.

Lemma generate_resumes_from_returned_state_witness :
  generate Toy.self tt (row [0; 1; 2]%Z) (Toy.no_entities 3) [5%Z] tt tt
    (Some (2 + 2)%Z) None (10 + 10) =
  Returned (([2; 1] ++ [1; 1])%Z,
            Tuple [Leaf (mkTensor [1; 2] [8; 7]%Z); Leaf (mkTensor [1; 2] [5; 5]%Z)]).
Proof.
  apply (generate_resumes_from_returned_state Toy.self tt [0; 1; 2]%Z (Toy.no_entities 3)
           (Toy.no_entities 1) [5%Z] tt tt 2%Z 2%Z None 10 10 [2; 1]%Z
           (Tuple [Leaf (mkTensor [1; 2] [3; 2]%Z); Leaf (mkTensor [1; 2] [2; 2]%Z)])
           [1; 1]%Z
           (Tuple [Leaf (mkTensor [1; 2] [8; 7]%Z); Leaf (mkTensor [1; 2] [5; 5]%Z)])
           (ToyFacts.variables_ok_model _) eq_refl).
  - lia.
  - vm_compute. reflexivity.
  - reflexivity.
  - vm_compute. reflexivity.
Defined.
